(** * TActionThread: the per-connection worker of the application server

    A shallow embedding of [src/tactionthread.cpp].  The worker talks to a
    socket, an event loop, the application dispatcher and the other worker
    threads; all of these are collaborators whose answers the worker cannot
    predict.  They are gathered in a [World]: a script that gives, for the
    n-th interaction of the worker with its surroundings, the answer it gets.
    Quantifying over every [World] covers every behaviour of the
    collaborators.

    The worker itself is written in a small monad that threads the mutable
    state (the two namespace-level globals and the members of the thread
    object), records every interaction in a chronological trace, and whose
    results distinguish normal completion, a [goto] to one of the three
    labels of [run], a C++ exception in flight, and a call that has not
    returned within the loop budget.

    Log output (tSystemDebug, tSystemWarn, tWarn, tError, ...) is not part of
    the trace.  The dispatcher is taken to throw only the two exception
    classes that the handlers of [run] name. *)

From Stdlib Require Import ZArith List String Ascii Bool Lia.
Import ListNotations.
Local Open Scope string_scope.
Local Open Scope list_scope.
Local Open Scope Z_scope.

Set Implicit Arguments.

(** ** Qt values seen by the worker *)

(** QByteArray::toLower: only the ASCII capitals change. *)
Definition lower_ascii (c : ascii) : ascii :=
  let n := nat_of_ascii c in
  if ((65 <=? n) && (n <=? 90))%nat then ascii_of_nat (n + 32) else c.

Fixpoint toLower (s : string) : string :=
  match s with
  | EmptyString => EmptyString
  | String c r => String (lower_ascii c) (toLower r)
  end.

(** QByteArray::contains: [sub] occurs somewhere in [s]. *)
Fixpoint contains (s sub : string) : bool :=
  String.prefix sub s ||
  match s with
  | EmptyString => false
  | String _ r => contains r sub
  end.

(** QAbstractSocket::SocketState. *)
Inductive SocketState :=
| UnconnectedState | HostLookupState | ConnectingState | ConnectedState
| BoundState | ListeningState | ClosingState.

Definition is_connected (st : SocketState) : bool :=
  match st with ConnectedState => true | _ => false end.

(** QEventLoop::ProcessEventsFlag, as far as the worker uses it. *)
Inductive ProcessEventsFlag := AllEvents | ExcludeSocketNotifiers.

(** A request header is what its accessors answer. *)
Record THttpRequestHeader := mkHeader {
  rawHeader : string -> string;
  cookie : string -> string
}.

Record THttpRequest := mkRequest {
  header : THttpRequestHeader;
  body : string
}.

(** A response header: the raw header lines set so far.  A freshly
    constructed one has none. *)
Definition THttpResponseHeader := list (string * string).
Definition fresh_header : THttpResponseHeader := [].

Record TSession := mkSession {
  session_id : string;
  session_data : list (string * string)
}.

(** A default-constructed TSession. *)
Definition empty_session : TSession := mkSession EmptyString [].

(** Modelled from the spec: the constant Tf::InternalServerError, which is
    declared outside this file; it is the status of the generic "internal
    server error" response, HTTP status 500. *)
Definition InternalServerError : Z := 500.

(** What a call of TActionContext::execute does to its caller. *)
Inductive Outcome :=
| Returned
| ThrewClientError (statusCode : Z)
| ThrewStdException (what : string).

(** ** The trace *)

Inductive Event :=
| EvCounterInc
| EvCounterDec
| EvThreadCount (c : Z)
| EvTimerStart
| EvElapsed (ms : Z)
| EvMsleep (ms : Z)
| EvAppProcessEvents
| EvAppSettingsValue (default : string) (value : string)
| EvNewHttpSocket
| EvSetSocketDescriptor (sd : Z) (ok : bool)
| EvEmitError (code : Z)
| EvTfClose (sd : Z)
| EvSetCurrentDatabaseContext (bound : bool)
| EvCanReadRequest (b : bool)
| EvIdleTime (t : Z)
| EvState (st : SocketState)
| EvWaitForReadyRead (msecs : Z) (ready : bool)
| EvAbort
| EvRead (reqs : list THttpRequest)
| EvExecute (req : THttpRequest) (sid : Z) (o : Outcome)
| EvWriteResponse (statusCode : Z) (hdr : THttpResponseHeader)
| EvCloseHttpSocket
| EvProcessEvents (flags : ProcessEventsFlag) (more : bool)
| EvSearchEndpoint (hdr : THttpRequestHeader) (found : bool)
| EvDuplicateSocket (sd : Z) (dup : Z)
| EvNewWebSocket (sd : Z) (peer : string) (hdr : THttpRequestHeader)
| EvConnectDeleteLater
| EvMoveToThread
| EvFindSession (id : string) (session : TSession)
| EvStartWorkerForOpening (session : TSession)
| EvRelease
| EvDeleteLater.

Definition Trace := list Event.

(** ** The surroundings *)

Record World := mkWorld {
  w_delay : nat -> nat;
  w_others : nat -> Z;
  w_setSocketDescriptor : nat -> bool;
  w_error : nat -> Z;
  w_socketId : Z;
  w_socketDescriptor : Z;
  w_peerAddress : string;
  w_canReadRequest : nat -> bool;
  w_idleTime : nat -> Z;
  w_state : nat -> SocketState;
  w_waitForReadyRead : nat -> bool;
  w_read : nat -> list THttpRequest;
  w_execute : nat -> THttpRequest -> Outcome;
  w_processEvents : nat -> bool;
  w_searchEndpoint : nat -> THttpRequestHeader -> bool;
  w_duplicateSocket : nat -> Z;
  w_sessionName : string;
  w_findSession : nat -> string -> TSession
}.

(** ** The state *)

(** The anonymous namespace at the top of the file. *)
Record Globals := mkGlobals {
  threadCounter : Z;
  keepAliveTimeout : Z
}.

Definition initial_globals : Globals := mkGlobals 0 (-1).

(** The members of a TActionThread that the file touches. *)
Record TActionThread := mkThread {
  socketDesc : Z;
  maxThreads : Z;
  httpSocket : bool
}.

Record State := mkState {
  glob : Globals;
  self : TActionThread;
  tick : nat;
  clock : Z
}.

Definition set_threadCounter (v : Z) (s : State) : State :=
  mkState (mkGlobals v (keepAliveTimeout (glob s))) (self s) (tick s) (clock s).

Definition set_socketDesc (v : Z) (s : State) : State :=
  mkState (glob s)
          (mkThread v (maxThreads (self s)) (httpSocket (self s)))
          (tick s) (clock s).

Definition set_httpSocket (v : bool) (s : State) : State :=
  mkState (glob s)
          (mkThread (socketDesc (self s)) (maxThreads (self s)) v)
          (tick s) (clock s).

(** ** The monad *)

Inductive Label := L_receive_end | L_socket_cleanup | L_socket_error.

Inductive Exn :=
| ClientErrorException (statusCode : Z)
| StdException (what : string).

Inductive Res (A : Type) :=
| Normal (a : A)
| Goto (l : Label)
| Throw (e : Exn)
| Running.

Arguments Normal {A} a.
Arguments Goto {A} l.
Arguments Throw {A} e.
Arguments Running {A}.

Definition M (A : Type) := State -> Res A * State * Trace.

Definition ret {A} (a : A) : M A := fun s => (Normal a, s, []).

Definition bind {A B} (m : M A) (f : A -> M B) : M B := fun s =>
  match m s with
  | (Normal a, s1, t1) =>
      match f a s1 with (r, s2, t2) => (r, s2, t1 ++ t2) end
  | (Goto l, s1, t1) => (Goto l, s1, t1)
  | (Throw e, s1, t1) => (Throw e, s1, t1)
  | (Running, s1, t1) => (Running, s1, t1)
  end.

Declare Scope worker_scope.
Delimit Scope worker_scope with worker.
Notation "x <- m ; k" := (bind m (fun x => k))
  (at level 61, m at next level, right associativity) : worker_scope.
Notation "m ;; k" := (bind m (fun _ => k))
  (at level 61, right associativity) : worker_scope.
Local Open Scope worker_scope.

Definition goto {A} (l : Label) : M A := fun s => (Goto l, s, []).
Definition throw {A} (e : Exn) : M A := fun s => (Throw e, s, []).
Definition running {A} : M A := fun s => (Running, s, []).
Definition get {A} (f : State -> A) : M A := fun s => (Normal (f s), s, []).
Definition modify (f : State -> State) : M unit := fun s => (Normal tt, f s, []).

Definition result {A} (x : Res A * State * Trace) : Res A := fst (fst x).
Definition final {A} (x : Res A * State * Trace) : State := snd (fst x).
Definition events {A} (x : Res A * State * Trace) : Trace := snd x.

Section Worker.

Variable w : World.

(** One interaction with the surroundings takes one tick and some time. *)
Definition advance (extra : Z) (s : State) : State :=
  mkState (glob s) (self s) (S (tick s))
          (clock s + extra + Z.of_nat (w_delay w (tick s))).

Definition ask {A} (f : nat -> A) (ev : A -> Event) : M A := fun s =>
  let a := f (tick s) in (Normal a, advance 0 s, [ev a]).

Definition tell (ev : Event) : M unit := fun s =>
  (Normal tt, advance 0 s, [ev]).

(** *** The registry *)

(** The counter is shared: between two steps of this thread the other
    workers raise it when they enter run() and lower it when they leave.
    [threadCounter (glob s)] is the value the counter had when the state
    was set up, with what this thread has done to it since; [w_others w n]
    is what the other workers have added to it, or taken from it, by the
    n-th interaction.  That may be negative: workers that were inside
    run() at the start may have left.  No bound is put on it, so every
    schedule of the other workers is covered. *)
Definition live_count (s : State) (n : nat) : Z :=
  threadCounter (glob s) + w_others w n.

(** threadCounter.load() *)
Definition threadCount : M Z := fun s =>
  let c := live_count s (tick s) in
  (Normal c, advance 0 s, [EvThreadCount c]).

Definition timer_start : M Z := fun s =>
  (Normal (clock s), advance 0 s, [EvTimerStart]).

Definition timer_elapsed (start : Z) : M Z := fun s =>
  let e := clock s - start in (Normal e, advance 0 s, [EvElapsed e]).

Definition msleep (ms : Z) : M unit := fun s =>
  (Normal tt, advance ms s, [EvMsleep ms]).

Fixpoint waitForAllDone_loop (msec start : Z) (fuel : nat) : M Z :=
  match fuel with
  | O => running
  | S fuel' =>
      cnt <- threadCount ;
      if cnt >? 0 then
        e <- timer_elapsed start ;
        if e >? msec then ret cnt
        else
          msleep 5 ;;
          tell EvAppProcessEvents ;;
          waitForAllDone_loop msec start fuel'
      else ret cnt
  end.

Definition waitForAllDone (msec : Z) (fuel : nat) : M bool :=
  start <- timer_start ;
  cnt <- waitForAllDone_loop msec start fuel ;
  ret (cnt =? 0).

(** *** The socket *)

Definition canReadRequest : M bool := ask (w_canReadRequest w) EvCanReadRequest.
Definition idleTime : M Z := ask (w_idleTime w) EvIdleTime.
Definition socket_state : M SocketState := ask (w_state w) EvState.
Definition waitForReadyRead (msecs : Z) : M bool :=
  ask (w_waitForReadyRead w) (EvWaitForReadyRead msecs).
Definition socket_read : M (list THttpRequest) := ask (w_read w) EvRead.
Definition processEvents (flags : ProcessEventsFlag) : M bool :=
  ask (w_processEvents w) (EvProcessEvents flags).

(** The polling loop of readRequest.  [break] and a false loop condition
    both leave it normally. *)
Fixpoint readRequest_loop (fuel : nat) : M unit :=
  match fuel with
  | O => running
  | S fuel' =>
      can <- canReadRequest ;
      if can then ret tt
      else
        t <- get (fun s => keepAliveTimeout (glob s)) ;
        timed_out <- (if t >? 0
                      then (idle <- idleTime ; ret (idle >=? t))
                      else ret false) ;
        if timed_out then ret tt
        else
          st <- socket_state ;
          if negb (is_connected st) then ret tt
          else
            waitForReadyRead 200 ;;
            readRequest_loop fuel'
  end.

Definition readRequest (fuel : nat) : M (list THttpRequest) :=
  readRequest_loop fuel ;;
  can <- canReadRequest ;
  if negb can then tell EvAbort ;; ret []
  else socket_read.

(** *** The upgrade handoff *)

Definition handshakeForWebSocket (hdr : THttpRequestHeader) : M bool :=
  found <- ask (fun n => w_searchEndpoint w n hdr) (EvSearchEndpoint hdr) ;
  if negb found then ret false
  else
    sd <- ask (w_duplicateSocket w) (EvDuplicateSocket (w_socketDescriptor w)) ;
    tell (EvNewWebSocket sd (w_peerAddress w) hdr) ;;
    tell EvConnectDeleteLater ;;
    tell EvMoveToThread ;;
    let sessionId := cookie hdr (w_sessionName w) in
    session <- (if negb (String.eqb sessionId EmptyString)
                then ask (fun n => w_findSession w n sessionId)
                         (EvFindSession sessionId)
                else ret empty_session) ;
    tell (EvStartWorkerForOpening session) ;;
    ret true.

(** *** Dispatch *)

Definition execute (req : THttpRequest) : M unit :=
  o <- ask (fun n => w_execute w n req) (EvExecute req (w_socketId w)) ;
  match o with
  | Returned => ret tt
  | ThrewClientError c => throw (ClientErrorException c)
  | ThrewStdException what => throw (StdException what)
  end.

(** for (auto &req : reqs) execute(req, socketId) *)
Fixpoint execute_all (reqs : list THttpRequest) : M unit :=
  match reqs with
  | [] => ret tt
  | req :: rest => execute req ;; execute_all rest
  end.

(** TActionContext::writeResponse(statusCode, header), seen at the call. *)
Definition writeResponse (statusCode : Z) (hdr : THttpResponseHeader) : M unit :=
  tell (EvWriteResponse statusCode hdr).

(** *** The keep-alive wait *)

(** while (eventLoop.processEvents(flags)) { } *)
Fixpoint processEvents_loop (flags : ProcessEventsFlag) (fuel : nat) : M unit :=
  match fuel with
  | O => running
  | S fuel' =>
      more <- processEvents flags ;
      if more then processEvents_loop flags fuel' else ret tt
  end.

(** while (!waitForReadyRead(5)) { ... }.  The socket error that the
    loop looks at when the socket is no longer connected only chooses
    what is logged. *)
Fixpoint keepalive_wait (budget fuel : nat) : M unit :=
  match fuel with
  | O => running
  | S fuel' =>
      ready <- waitForReadyRead 5 ;
      if ready then ret tt
      else
        st <- socket_state ;
        if negb (is_connected st) then goto L_receive_end
        else
          idle <- idleTime ;
          t <- get (fun s => keepAliveTimeout (glob s)) ;
          if idle >=? t then goto L_receive_end
          else
            processEvents_loop ExcludeSocketNotifiers budget ;;
            keepalive_wait budget fuel'
  end.

(** *** The body of the try block: for (;;) { ... } *)

Definition wants_upgrade (req : THttpRequest) : bool :=
  contains (toLower (rawHeader (header req) "Connection")) "upgrade".

Definition wants_websocket (req : THttpRequest) : bool :=
  String.eqb (toLower (rawHeader (header req) "Upgrade")) "websocket".

Fixpoint for_loop (budget fuel : nat) : M unit :=
  match fuel with
  | O => running
  | S fuel' =>
      reqs <- readRequest budget ;
      match reqs with
      | [] => ret tt
      | req0 :: _ =>
          if wants_upgrade req0 then
            if wants_websocket req0 then
              ok <- handshakeForWebSocket (header req0) ;
              if negb ok then goto L_socket_error
              else goto L_socket_cleanup
            else goto L_socket_cleanup
          else
            execute_all reqs ;;
            t <- get (fun s => keepAliveTimeout (glob s)) ;
            if t =? 0 then ret tt
            else
              c <- threadCount ;
              m <- get (fun s => maxThreads (self s)) ;
              if (c >=? m) && (m >? 0) then ret tt
              else
                keepalive_wait budget budget ;;
                for_loop budget fuel'
      end
  end.

(** *** The three labels; each one falls through into the next *)

Definition socket_error : M unit :=
  modify (set_socketDesc 0) ;;
  tell EvRelease ;;
  tell (EvSetCurrentDatabaseContext false) ;;
  tell EvDeleteLater ;;
  modify (set_httpSocket false).

Definition socket_cleanup (fuel : nat) : M unit :=
  processEvents_loop AllEvents fuel ;;
  socket_error.

Definition closeHttpSocket : M unit := tell EvCloseHttpSocket.

Definition receive_end (fuel : nat) : M unit :=
  closeHttpSocket ;;
  socket_cleanup fuel.

(** try { body } catch (ClientErrorException &) { h1 } catch (std::exception &) { h2 } *)
Definition try_catch (body : M unit)
           (h1 : Z -> M unit) (h2 : string -> M unit) : M unit := fun s =>
  match body s with
  | (Throw (ClientErrorException c), s1, t1) =>
      match h1 c s1 with (r, s2, t2) => (r, s2, t1 ++ t2) end
  | (Throw (StdException what), s1, t1) =>
      match h2 what s1 with (r, s2, t2) => (r, s2, t1 ++ t2) end
  | other => other
  end.

(** Where control goes once the code before the labels is done: straight
    on into receive_end, or to the label a goto named. *)
Definition then_labels (fuel : nat) (body : M unit) : M unit := fun s =>
  match body s with
  | (Normal _, s1, t1) | (Goto L_receive_end, s1, t1) =>
      match receive_end fuel s1 with (r, s2, t2) => (r, s2, t1 ++ t2) end
  | (Goto L_socket_cleanup, s1, t1) =>
      match socket_cleanup fuel s1 with (r, s2, t2) => (r, s2, t1 ++ t2) end
  | (Goto L_socket_error, s1, t1) =>
      match socket_error s1 with (r, s2, t2) => (r, s2, t1 ++ t2) end
  | other => other
  end.

(** The local Counter object: its constructor runs first, its destructor
    when the scope is left, whichever way. *)
Definition with_Counter (body : M unit) : M unit := fun s =>
  let s0 := set_threadCounter (threadCounter (glob s) + 1) s in
  match body s0 with
  | (Running, s1, t1) => (Running, s1, EvCounterInc :: t1)
  | (r, s1, t1) =>
      (r, set_threadCounter (threadCounter (glob s1) - 1) s1,
       EvCounterInc :: t1 ++ [EvCounterDec])
  end.

(** try { for (;;) { ... } } catch ... catch ... : each handler builds a
    fresh THttpResponseHeader and writes the response with it. *)
Definition try_block (fuel : nat) : M unit :=
  try_catch (for_loop fuel fuel)
            (fun c => writeResponse c fresh_header)
            (fun _ => writeResponse InternalServerError fresh_header).

(** run() from the binding of the socket up to the labels. *)
Definition before_labels (fuel : nat) : M unit :=
  sd <- get (fun s => socketDesc (self s)) ;
  ok <- ask (w_setSocketDescriptor w) (EvSetSocketDescriptor sd) ;
  if negb ok then
    err <- ask (w_error w) EvEmitError ;
    tell (EvTfClose sd) ;;
    goto L_socket_error
  else
    modify (set_socketDesc 0) ;;
    tell (EvSetCurrentDatabaseContext true) ;;
    try_block fuel.

Definition run (fuel : nat) : M unit :=
  with_Counter (
    tell EvNewHttpSocket ;;
    modify (set_httpSocket true) ;;
    then_labels fuel (before_labels fuel)).

End Worker.

(** ** Construction *)

Section Construction.

(** QVariant::toInt on the configured text. *)
Variable toInt : string -> Z.

(** Modelled from the spec: Tf::appSettings()->value(key, default), which
    is defined outside this file; a single read of the configured value,
    with the default when the key is not set. *)
Definition appSettings_value (configured : option string) (default : string) : string :=
  match configured with
  | Some v => v
  | None => default
  end.

Definition TActionThread_new (configured : option string) (socket maxThr : Z)
           (g : Globals) : TActionThread * Globals * Trace :=
  let obj := mkThread socket maxThr false in
  if keepAliveTimeout g <? 0 then
    let v := appSettings_value configured "10" in
    let timeout := toInt v in
    (obj, mkGlobals (threadCounter g) (Z.max timeout 0), [EvAppSettingsValue "10" v])
  else (obj, g, []).

(** Constructing one worker after the other, each for its own accepted
    socket; the configuration may have changed in between. *)
Fixpoint construct_all (reqs : list (option string * Z * Z)) (g : Globals)
  : list TActionThread * Globals * Trace :=
  match reqs with
  | [] => ([], g, [])
  | (cfg, sd, mx) :: rest =>
      match TActionThread_new cfg sd mx g with
      | (obj, g1, t1) =>
          match construct_all rest g1 with
          | (objs, g2, t2) => (obj :: objs, g2, t1 ++ t2)
          end
      end
  end.

End Construction.

(** [stops r0 r]: a computation that ended with [r0], which is not a normal
    completion, makes the computation around it end with [r]. *)
Definition stops {A B} (r0 : Res A) (r : Res B) : Prop :=
  match r0, r with
  | Goto l, Goto l' => l = l'
  | Throw e, Throw e' => e = e'
  | Running, Running => True
  | _, _ => False
  end.

(** Nothing inside run() writes the globals or the bound on the number of
    workers; only the Counter does. *)
Definition frame (s s' : State) : Prop :=
  glob s' = glob s /\ maxThreads (self s') = maxThreads (self s).

(** * Shapes of traces *)

(** [occ tr x post]: the event [x] occurs in [tr], and [post] is what
    follows that occurrence. *)
Definition occ (tr : Trace) (x : Event) (post : Trace) : Prop :=
  exists pre, tr = pre ++ x :: post.

Definition all (p : Event -> bool) (tr : Trace) : Prop :=
  Forall (fun e => p e = true) tr.

Definition is_poll (e : Event) : bool :=
  match e with
  | EvCanReadRequest _ | EvIdleTime _ | EvState _ => true
  | EvWaitForReadyRead ms _ => ms =? 200
  | _ => false
  end.

Definition is_keepalive (e : Event) : bool :=
  match e with
  | EvIdleTime _ | EvState _ | EvProcessEvents ExcludeSocketNotifiers _ => true
  | EvWaitForReadyRead ms _ => ms =? 5
  | _ => false
  end.

Definition is_execute (e : Event) : bool :=
  match e with EvExecute _ _ _ => true | _ => false end.

Definition is_read (e : Event) : bool :=
  match e with EvRead _ => true | _ => false end.

Definition is_handoff_ev (e : Event) : bool :=
  match e with
  | EvDuplicateSocket _ _ | EvNewWebSocket _ _ _ | EvConnectDeleteLater
  | EvMoveToThread | EvFindSession _ _ | EvStartWorkerForOpening _ => true
  | _ => false
  end.

(** What socket_error does, as seen from outside. *)
Definition cleanup : Trace :=
  [EvRelease; EvSetCurrentDatabaseContext false; EvDeleteLater].

Definition execs_ok (sid : Z) (reqs : list THttpRequest) : Trace :=
  map (fun r => EvExecute r sid Returned) reqs.

Definition outcome_exn (o : Outcome) : option Exn :=
  match o with
  | Returned => None
  | ThrewClientError c => Some (ClientErrorException c)
  | ThrewStdException what => Some (StdException what)
  end.

(** The trace of readRequest. *)
Inductive read_trace : Res (list THttpRequest) -> Trace -> Prop :=
| rt_running polls :
    all is_poll polls -> read_trace Running polls
| rt_abort polls :
    all is_poll polls ->
    read_trace (Normal []) (polls ++ [EvCanReadRequest false; EvAbort])
| rt_read polls reqs :
    all is_poll polls ->
    read_trace (Normal reqs) (polls ++ [EvCanReadRequest true; EvRead reqs]).

(** The trace of the dispatch loop over one batch. *)
Inductive dispatch_trace (sid : Z) (reqs : list THttpRequest)
  : Res unit -> Trace -> Prop :=
| dt_all :
    dispatch_trace sid reqs (Normal tt) (execs_ok sid reqs)
| dt_fault done req rest o e :
    reqs = done ++ req :: rest ->
    outcome_exn o = Some e ->
    dispatch_trace sid reqs (Throw e)
                   (execs_ok sid done ++ [EvExecute req sid o]).

(** The trace of while (eventLoop.processEvents(flags)) { }. *)
Inductive drain_trace (flags : ProcessEventsFlag) : Res unit -> Trace -> Prop :=
| dr_running n :
    drain_trace flags Running (repeat (EvProcessEvents flags true) n)
| dr_done n :
    drain_trace flags (Normal tt)
                (repeat (EvProcessEvents flags true) n ++ [EvProcessEvents flags false]).

(** The trace of the keep-alive wait. *)
Definition keepalive_trace (r : Res unit) (ka : Trace) : Prop :=
  (exists ready rest, ka = EvWaitForReadyRead 5 ready :: rest /\ all is_keepalive rest)
  /\ (r = Normal tt \/ r = Goto L_receive_end \/ r = Running).

(** What handshakeForWebSocket does once the endpoint is found. *)
Definition handoff_trace (hdr : THttpRequestHeader) (ho : Trace) : Prop :=
  exists sd dup peer session,
    (ho = [EvDuplicateSocket sd dup; EvNewWebSocket dup peer hdr;
           EvConnectDeleteLater; EvMoveToThread;
           EvStartWorkerForOpening session]
     /\ session = empty_session)
    \/ (exists id,
        ho = [EvDuplicateSocket sd dup; EvNewWebSocket dup peer hdr;
              EvConnectDeleteLater; EvMoveToThread;
              EvFindSession id session; EvStartWorkerForOpening session]).

(** What one turn of the for loop does with the batch it has read.
    [None]: the loop goes round again. *)
Inductive served (t m sid : Z) (reqs : list THttpRequest)
  : option (Res unit) -> Trace -> Prop :=
| sv_empty :
    reqs = [] ->
    served t m sid reqs (Some (Normal tt)) []
| sv_other_upgrade req0 rest :
    reqs = req0 :: rest ->
    wants_upgrade req0 = true -> wants_websocket req0 = false ->
    served t m sid reqs (Some (Goto L_socket_cleanup)) []
| sv_ws_nomatch req0 rest :
    reqs = req0 :: rest ->
    wants_upgrade req0 = true -> wants_websocket req0 = true ->
    served t m sid reqs (Some (Goto L_socket_error))
           [EvSearchEndpoint (header req0) false]
| sv_ws_match req0 rest ho :
    reqs = req0 :: rest ->
    wants_upgrade req0 = true -> wants_websocket req0 = true ->
    handoff_trace (header req0) ho ->
    served t m sid reqs (Some (Goto L_socket_cleanup))
           (EvSearchEndpoint (header req0) true :: ho)
| sv_fault req0 rest e ex :
    reqs = req0 :: rest ->
    wants_upgrade req0 = false ->
    dispatch_trace sid reqs (Throw e) ex ->
    served t m sid reqs (Some (Throw e)) ex
| sv_no_keepalive req0 rest :
    reqs = req0 :: rest ->
    wants_upgrade req0 = false ->
    t = 0 ->
    served t m sid reqs (Some (Normal tt)) (execs_ok sid reqs)
| sv_shed req0 rest c :
    reqs = req0 :: rest ->
    wants_upgrade req0 = false ->
    t <> 0 -> m <= c -> 0 < m ->
    served t m sid reqs (Some (Normal tt))
           (execs_ok sid reqs ++ [EvThreadCount c])
| sv_wait req0 rest c r ka :
    reqs = req0 :: rest ->
    wants_upgrade req0 = false ->
    t <> 0 -> ~ (m <= c /\ 0 < m) ->
    keepalive_trace r ka -> r <> Normal tt ->
    served t m sid reqs (Some r)
           (execs_ok sid reqs ++ EvThreadCount c :: ka)
| sv_again req0 rest c ka :
    reqs = req0 :: rest ->
    wants_upgrade req0 = false ->
    t <> 0 -> ~ (m <= c /\ 0 < m) ->
    keepalive_trace (Normal tt) ka ->
    served t m sid reqs None
           (execs_ok sid reqs ++ EvThreadCount c :: ka).

(** One turn of the for loop. *)
Inductive iter_trace (t m sid : Z) : option (Res unit) -> Trace -> Prop :=
| it_reading polls :
    all is_poll polls ->
    iter_trace t m sid (Some Running) polls
| it_abort polls :
    all is_poll polls ->
    iter_trace t m sid (Some (Normal tt))
               (polls ++ [EvCanReadRequest false; EvAbort])
| it_served polls reqs o sv :
    all is_poll polls ->
    served t m sid reqs o sv ->
    iter_trace t m sid o
               (polls ++ EvCanReadRequest true :: EvRead reqs :: sv).

(** The for loop: turns that go round again, then a last one. *)
Inductive loop_trace (t m sid : Z) : Res unit -> Trace -> Prop :=
| lt_out_of_budget :
    loop_trace t m sid Running []
| lt_last r tr :
    iter_trace t m sid (Some r) tr ->
    loop_trace t m sid r tr
| lt_more r tr1 tr2 :
    iter_trace t m sid None tr1 ->
    loop_trace t m sid r tr2 ->
    loop_trace t m sid r (tr1 ++ tr2).

(** What follows the try block, by the way it was left.  [fin] tells
    whether the end of run() was reached. *)
Inductive closing_trace : bool -> Trace -> Prop :=
| cl_running d :
    drain_trace AllEvents Running d -> closing_trace false d
| cl_done d :
    drain_trace AllEvents (Normal tt) d -> closing_trace true (d ++ cleanup).

(** How the try block as a whole ends, given how its for loop ended, and
    what the handler that ran put on the trace. *)
Definition caught (rl r : Res unit) (h : Trace) : Prop :=
  match rl with
  | Throw (ClientErrorException c) =>
      r = Normal tt /\ h = [EvWriteResponse c fresh_header]
  | Throw (StdException _) =>
      r = Normal tt /\ h = [EvWriteResponse InternalServerError fresh_header]
  | _ => r = rl /\ h = []
  end.

Definition after_loop (r : Res unit) (fin : bool) (tl : Trace) : Prop :=
  match r with
  | Running => fin = false /\ tl = []
  | Normal _ | Goto L_receive_end =>
      exists d, tl = EvCloseHttpSocket :: d /\ closing_trace fin d
  | Goto L_socket_cleanup => closing_trace fin tl
  | Goto L_socket_error => fin = true /\ tl = cleanup
  | Throw (ClientErrorException c) =>
      exists d, tl = EvWriteResponse c fresh_header :: EvCloseHttpSocket :: d
                /\ closing_trace fin d
  | Throw (StdException _) =>
      exists d, tl = EvWriteResponse InternalServerError fresh_header
                       :: EvCloseHttpSocket :: d
                /\ closing_trace fin d
  end.

(** What run() does between the construction and the destruction of its
    Counter. *)
Inductive body_trace (t m sid : Z) : bool -> Trace -> Prop :=
| bt_acquisition_failed sd err :
    body_trace t m sid true
               ([EvNewHttpSocket; EvSetSocketDescriptor sd false;
                 EvEmitError err; EvTfClose sd] ++ cleanup)
| bt_served sd r lp fin tl :
    loop_trace t m sid r lp ->
    after_loop r fin tl ->
    body_trace t m sid fin
               (EvNewHttpSocket :: EvSetSocketDescriptor sd true
                  :: EvSetCurrentDatabaseContext true :: lp ++ tl).

(** The events that belong to the handling of one batch. *)
Definition is_block (e : Event) : bool :=
  match e with
  | EvRead _ | EvExecute _ _ _ | EvThreadCount _ | EvSearchEndpoint _ _ => true
  | _ => false
  end.

(** The events of the cleanup common to every way out of run(). *)
Definition is_teardown (e : Event) : bool :=
  match e with
  | EvProcessEvents AllEvents _ | EvRelease
  | EvSetCurrentDatabaseContext false | EvDeleteLater | EvCounterDec => true
  | _ => false
  end.

Definition is_tail (e : Event) : bool :=
  match e with
  | EvWriteResponse _ _ | EvCloseHttpSocket => true
  | _ => is_teardown e
  end.

Definition is_counter (e : Event) : bool :=
  match e with EvCounterInc | EvCounterDec => true | _ => false end.

Definition counter_dec (fin : bool) : Trace :=
  if fin then [EvCounterDec] else [].

(** What is left of a run after a turn of the for loop that ended with [o]. *)
Inductive rest_of_run (t m sid : Z) : option (Res unit) -> Trace -> Prop :=
| ror_last r fin tl :
    after_loop r fin tl ->
    rest_of_run t m sid (Some r) (tl ++ counter_dec fin)
| ror_more r lp fin tl :
    loop_trace t m sid r lp ->
    after_loop r fin tl ->
    rest_of_run t m sid None (lp ++ tl ++ counter_dec fin).

Inductive run_trace (t m sid : Z) : Res unit -> Trace -> Prop :=
| run_unfinished b :
    body_trace t m sid false b ->
    run_trace t m sid Running (EvCounterInc :: b)
| run_finished b :
    body_trace t m sid true b ->
    run_trace t m sid (Normal tt) (EvCounterInc :: b ++ [EvCounterDec]).

(** ** More tests on events, and measures of traces *)

Definition closes (post : Trace) : Prop :=
  exists d, post = EvCloseHttpSocket :: d /\ all is_teardown d.

Definition no_keepalive_ev (e : Event) : bool :=
  match e with
  | EvWaitForReadyRead ms _ => negb (ms =? 5)
  | EvThreadCount _ => false
  | _ => true
  end.

Definition not_read (e : Event) : bool := negb (is_read e).
Definition not_execute (e : Event) : bool := negb (is_execute e).
Definition not_counter (e : Event) : bool := negb (is_counter e).

(** The part of a trace before the next batch is read. *)
Fixpoint until_read (tr : Trace) : Trace :=
  match tr with
  | [] => []
  | e :: rest => if is_read e then [] else e :: until_read rest
  end.

(** The value of the counter after the events of [tr], from [c]. *)
Fixpoint counter_after (c : Z) (tr : Trace) : Z :=
  match tr with
  | [] => c
  | EvCounterInc :: rest => counter_after (c + 1) rest
  | EvCounterDec :: rest => counter_after (c - 1) rest
  | _ :: rest => counter_after c rest
  end.

(** [p] is what a worker has done so far.  It is inside run() when it has
    done the first thing run() does and not yet the last. *)
Definition inside_run (p : Trace) : bool :=
  match p with
  | [] => false
  | _ :: _ =>
      match last p EvCounterInc with
      | EvCounterDec => false
      | _ => true
      end
  end.

(** [tr] is a way in which workers that have done [ps] so far, one entry
    per worker, may have taken turns. *)
Inductive interleaving : list Trace -> Trace -> Prop :=
| il_nil ps :
    Forall (fun p => p = []) ps -> interleaving ps []
| il_cons ps1 e p ps2 tr :
    interleaving (ps1 ++ p :: ps2) tr ->
    interleaving (ps1 ++ (e :: p) :: ps2) (e :: tr).

Definition sumZ (l : list Z) : Z := fold_right Z.add 0 l.

(** The time that the interactions of [tr] take when the first of them is
    the n-th interaction with the surroundings: the delay of each, and the
    length of each sleep. *)
Fixpoint time_of (w : World) (n : nat) (tr : Trace) : Z :=
  match tr with
  | [] => 0
  | e :: rest =>
      Z.of_nat (w_delay w n)
      + match e with EvMsleep ms => ms | _ => 0 end
      + time_of w (S n) rest
  end.

(** The polls of waitForAllDone(msec), and what it answers. *)
Inductive wait_trace (msec : Z) : bool -> Trace -> Prop :=
| wt_drained c :
    c <= 0 ->
    wait_trace msec (c =? 0) [EvThreadCount c]
| wt_timed_out c e :
    0 < c -> msec < e ->
    wait_trace msec false [EvThreadCount c; EvElapsed e]
| wt_round c e b rest :
    0 < c -> e <= msec ->
    wait_trace msec b rest ->
    wait_trace msec b
               (EvThreadCount c :: EvElapsed e :: EvMsleep 5
                  :: EvAppProcessEvents :: rest).

(** ** Three statements of the specification, in its own words *)




(** An upgrade to websocket for which no endpoint is found is treated as no
    upgrade: the worker goes on to the close cleanup, in which the event
    queue is drained, and not to the error cleanup. *)
Definition no_endpoint_then_close_cleanup (w : World) (fuel : nat) (s : State) : Prop :=
  forall hdr post,
    occ (events (run w fuel s)) (EvSearchEndpoint hdr false) post ->
    exists more, In (EvProcessEvents AllEvents more) post.

(** An upgrade to something else than websocket is not dispatched; the event
    queue is drained and then the socket is closed. *)
Definition other_upgrade_then_closed (w : World) (fuel : nat) (s : State) : Prop :=
  forall req0 rest post,
    occ (events (run w fuel s)) (EvRead (req0 :: rest)) post ->
    contains (toLower (rawHeader (header req0) "Connection")) "upgrade" = true ->
    toLower (rawHeader (header req0) "Upgrade") <> "websocket" ->
    all not_execute post
    /\ exists d1 more d2,
        post = d1 ++ EvProcessEvents AllEvents more :: d2
        /\ In EvCloseHttpSocket d2.

(** ** Scenarios *)

Definition plain_header : THttpRequestHeader :=
  mkHeader (fun _ => EmptyString) (fun _ => EmptyString).

Definition upgrade_header (target : string) : THttpRequestHeader :=
  mkHeader (fun k => if String.eqb k "Connection" then "keep-alive, Upgrade"
                     else if String.eqb k "Upgrade" then target
                     else EmptyString)
           (fun _ => EmptyString).

Definition request (name : string) : THttpRequest := mkRequest plain_header name.

Definition upgrade_request (target : string) : THttpRequest :=
  mkRequest (upgrade_header target) "upgrade".

(** A socket with descriptor 9 and id 7 that binds, on which a request can
    be read at once or never, whose reads all give [batch], and that stays
    connected and never becomes ready again; a dispatcher that does [exec];
    the other workers have put [others] on the counter. *)
Definition scenario (readable : bool) (batch : list THttpRequest)
           (exec : THttpRequest -> Outcome) (found : bool) (others : Z) : World :=
  mkWorld (fun _ => 0%nat) (fun _ => others) (fun _ => true) (fun _ => 1)
          7 9 "192.0.2.1"
          (fun _ => readable) (fun _ => 0) (fun _ => ConnectedState)
          (fun _ => false) (fun _ => batch) (fun _ => exec)
          (fun _ => false) (fun _ _ => found) (fun _ => 11)
          "TFSESSION" (fun _ _ => empty_session).

(** A worker made for descriptor 5, in a process whose counter is 0. *)
Definition worker_state (t m : Z) : State :=
  mkState (mkGlobals 0 t) (mkThread 5 m false) 0 0.

Definition fails_on (name : string) (o : Outcome) (req : THttpRequest) : Outcome :=
  if String.eqb (body req) name then o else Returned.

(** A reading of decimal text, for the examples of construction. *)
Fixpoint digits (acc : Z) (s : string) : option Z :=
  match s with
  | EmptyString => Some acc
  | String c r =>
      let n := nat_of_ascii c in
      if ((48 <=? n) && (n <=? 57))%nat
      then digits (10 * acc + Z.of_nat (n - 48)) r
      else None
  end.

Definition decimal (s : string) : Z :=
  match s with
  | EmptyString => 0
  | String "-" r =>
      match r with
      | EmptyString => 0
      | _ => match digits 0 r with Some v => - v | None => 0 end
      end
  | _ => match digits 0 s with Some v => v | None => 0 end
  end.

Definition w_client_fault : World :=
  scenario true [request "a"] (fun _ => ThrewClientError 400) false 0.

Definition w_served : World :=
  scenario true [request "a"; request "b"] (fun _ => Returned) false 0.

Definition w_saturated : World :=
  scenario true [request "a"; request "b"] (fun _ => Returned) false 1.

Definition w_no_endpoint : World :=
  scenario true [upgrade_request "WebSocket"] (fun _ => Returned) false 0.

Definition w_other_upgrade : World :=
  scenario true [upgrade_request "h2c"] (fun _ => Returned) true 0.

Definition w_second_fails : World :=
  scenario true [request "a"; request "b"; request "c"]
           (fails_on "b" (ThrewStdException "boom")) false 0.

Definition w_silent : World :=
  scenario false [] (fun _ => Returned) false 0.

Definition w_endpoint : World :=
  scenario true [upgrade_request "WebSocket"] (fun _ => Returned) true 0.

(** A descriptor that the socket cannot be bound to. *)
Definition w_unbound : World :=
  mkWorld (fun _ => 0%nat) (fun _ => 0) (fun _ => false) (fun _ => 1)
          7 9 "192.0.2.1"
          (fun _ => true) (fun _ => 0) (fun _ => ConnectedState)
          (fun _ => false) (fun _ => []) (fun _ _ => Returned)
          (fun _ => false) (fun _ _ => false) (fun _ => 11)
          "TFSESSION" (fun _ _ => empty_session).

(** A peer that goes away before it has sent a request. *)
Definition w_peer_gone : World :=
  mkWorld (fun _ => 0%nat) (fun _ => 0) (fun _ => true) (fun _ => 1)
          7 9 "192.0.2.1"
          (fun _ => false) (fun _ => 0) (fun _ => UnconnectedState)
          (fun _ => false) (fun _ => []) (fun _ _ => Returned)
          (fun _ => false) (fun _ _ => false) (fun _ => 11)
          "TFSESSION" (fun _ _ => empty_session).

(** A worker that was inside run() when the state was set up has left. *)
Definition w_other_left : World :=
  scenario true [request "a"] (fun _ => Returned) false (-1).

(** One worker is inside run() and leaves it before the fifth interaction. *)
Definition w_draining : World :=
  mkWorld (fun _ => 0%nat) (fun n => if (n <? 5)%nat then 1 else 0)
          (fun _ => true) (fun _ => 1)
          7 9 "192.0.2.1"
          (fun _ => true) (fun _ => 0) (fun _ => ConnectedState)
          (fun _ => false) (fun _ => []) (fun _ _ => Returned)
          (fun _ => false) (fun _ _ => false) (fun _ => 11)
          "TFSESSION" (fun _ _ => empty_session).

(** A connection that is kept alive and then idles for 10 seconds. *)
Definition w_idles : World :=
  mkWorld (fun _ => 0%nat) (fun _ => 0) (fun _ => true) (fun _ => 1)
          7 9 "192.0.2.1"
          (fun _ => true) (fun _ => 10) (fun _ => ConnectedState)
          (fun _ => false) (fun _ => [request "a"]) (fun _ _ => Returned)
          (fun _ => false) (fun _ _ => false) (fun _ => 11)
          "TFSESSION" (fun _ _ => empty_session).

(** ** The rest of the class *)

(** The conversion (int)socket of a qintptr: its low 32 bits, signed. *)
Definition to_int (z : Z) : Z := (z + 2 ^ 31) mod 2 ^ 32 - 2 ^ 31.

Section Lifetime.

Variable w : World.

(** TActionThread::~TActionThread *)
Definition TActionThread_delete : M unit :=
  sock <- get (fun s => httpSocket (self s)) ;
  (if sock then tell w EvDeleteLater else ret tt) ;;
  sd <- get (fun s => socketDesc (self s)) ;
  if sd >? 0 then tell w (EvTfClose sd) else ret tt.

(** TActionThread::setSocketDescriptor; its warning is log output. *)
Definition TActionThread_setSocketDescriptor (socket : Z) : M unit :=
  sd <- get (fun s => socketDesc (self s)) ;
  (if sd >? 0 then tell w (EvTfClose sd) else ret tt) ;;
  modify (set_socketDesc (to_int socket)).

(** setSocketDescriptor called once for each descriptor of a list. *)
Fixpoint setSocketDescriptor_each (sockets : list Z) : M unit :=
  match sockets with
  | [] => ret tt
  | socket :: rest =>
      TActionThread_setSocketDescriptor socket ;;
      setSocketDescriptor_each rest
  end.

End Lifetime.

Section Response.

(** What stands for the QIODevice of the body. *)
Variable Body : Type.

(** THttpHeader::setRawHeader and THttpSocket::write, which are defined
    outside this file. *)
Variable setRawHeader : string -> string -> THttpResponseHeader -> THttpResponseHeader.
Variable socket_write : THttpResponseHeader -> Body -> Z.

(** TActionThread::writeResponse(header, body), called while run() holds the
    socket: what the header has become, and what is returned. *)
Definition TActionThread_writeResponse (g : Globals)
           (hdr : THttpResponseHeader) (body : Body) : THttpResponseHeader * Z :=
  let hdr' := if keepAliveTimeout g >? 0
              then setRawHeader "Connection" "Keep-Alive" hdr
              else hdr in
  (hdr', socket_write hdr' body).

End Response.

(** ** Further tests on events *)


(** Not an event of socket_error, nor the allocation of the socket. *)
Definition not_cleanup (e : Event) : bool :=
  match e with
  | EvNewHttpSocket | EvRelease | EvDeleteLater
  | EvSetCurrentDatabaseContext false => false
  | _ => true
  end.

(** Not an event of the binding of the socket to the descriptor. *)
Definition not_binding (e : Event) : bool :=
  match e with
  | EvSetSocketDescriptor _ _ | EvEmitError _ | EvTfClose _ => false
  | _ => true
  end.


Definition is_msleep (e : Event) : bool :=
  match e with EvMsleep _ => true | _ => false end.

(** How often a trace sleeps. *)
Definition sleeps (tr : Trace) : nat := List.length (filter is_msleep tr).

(** How the keep-alive wait can end, by its result. *)
Definition keepalive_exit (t : Z) (r : Res unit) (tr : Trace) : Prop :=
  match r with
  | Normal _ => exists pre, tr = pre ++ [EvWaitForReadyRead 5 true]
  | Goto l =>
      l = L_receive_end
      /\ ((exists pre st,
              tr = pre ++ [EvWaitForReadyRead 5 false; EvState st]
              /\ st <> ConnectedState)
          \/ (exists pre i,
                 tr = pre ++ [EvWaitForReadyRead 5 false;
                              EvState ConnectedState; EvIdleTime i]
                 /\ t <= i))
  | Throw _ => False
  | Running => True
  end.

(** Neither a batch read nor a call of the dispatcher. *)
Definition no_dispatch_ev (e : Event) : bool :=
  match e with
  | EvRead _ | EvExecute _ _ _ => false
  | _ => true
  end.

(** [in_batch_order sid cur tr]: with [cur] the requests that are left of
    the batch read last, every call of the dispatcher in [tr] is made for
    the socket [sid] and for the first request that is left. *)
Fixpoint in_batch_order (sid : Z) (cur : list THttpRequest) (tr : Trace) : Prop :=
  match tr with
  | [] => True
  | EvRead reqs :: rest => in_batch_order sid reqs rest
  | EvExecute req sid' _ :: rest =>
      match cur with
      | [] => False
      | first :: cur' =>
          req = first /\ sid' = sid /\ in_batch_order sid cur' rest
      end
  | _ :: rest => in_batch_order sid cur rest
  end.

Definition not_close (e : Event) : bool :=
  match e with EvCloseHttpSocket => false | _ => true end.

Definition not_abort (e : Event) : bool :=
  match e with EvAbort => false | _ => true end.

(** ** Two more scenes *)

(** A peer that stays connected, sends nothing, and has been idle for 10
    seconds. *)
Definition w_quiet_peer : World :=
  mkWorld (fun _ => 0%nat) (fun _ => 0) (fun _ => true) (fun _ => 1)
          7 9 "192.0.2.1"
          (fun _ => false) (fun _ => 10) (fun _ => ConnectedState)
          (fun _ => false) (fun _ => []) (fun _ _ => Returned)
          (fun _ => false) (fun _ _ => false) (fun _ => 11)
          "TFSESSION" (fun _ _ => empty_session).

(** A response header as the list of its lines, the newest first, and a
    write that reports how many lines it has written. *)
Definition add_line (k v : string) (hdr : THttpResponseHeader)
  : THttpResponseHeader := (k, v) :: hdr.

Definition lines_written (hdr : THttpResponseHeader) (_ : string) : Z :=
  Z.of_nat (List.length hdr).

(** * The monad, and what each part of the worker leaves in the trace *)

Lemma bind_inv A B (m : M A) (f : A -> M B) s r s' tr :
  bind m f s = (r, s', tr) ->
  (exists a s1 t1 t2,
      m s = (Normal a, s1, t1) /\ f a s1 = (r, s', t2) /\ tr = t1 ++ t2)
  \/ (exists r0, m s = (r0, s', tr) /\ stops r0 r).
Proof.
  unfold bind. destruct (m s) as [[[a | l | e | ] s1] t1].
  - destruct (f a s1) as [[r2 s2] t2] eqn:E. intros H. inversion H; subst.
    left. exists a, s1, t1, t2. auto.
  - intros H. inversion H; subst. right. exists (Goto l). simpl. auto.
  - intros H. inversion H; subst. right. exists (Throw e). simpl. auto.
  - intros H. inversion H; subst. right. exists Running. simpl. auto.
Qed.

Lemma frame_refl s : frame s s.
Proof. split; reflexivity. Qed.

Lemma frame_trans s1 s2 s3 : frame s1 s2 -> frame s2 s3 -> frame s1 s3.
Proof. unfold frame. intros [? ?] [? ?]. split; congruence. Qed.

Lemma frame_advance w extra s : frame s (advance w extra s).
Proof. split; reflexivity. Qed.

Lemma frame_set_socketDesc v s : frame s (set_socketDesc v s).
Proof. split; reflexivity. Qed.

Lemma frame_set_httpSocket v s : frame s (set_httpSocket v s).
Proof. split; reflexivity. Qed.

Create HintDb worker.

#[local] Hint Resolve frame_refl frame_advance frame_set_socketDesc
  frame_set_httpSocket : worker.

(** A call of a primitive: compute it. *)
Ltac prim E :=
  cbv [ask tell get modify ret goto throw running threadCount timer_start
       timer_elapsed msleep canReadRequest idleTime socket_state
       waitForReadyRead socket_read processEvents writeResponse
       closeHttpSocket] in E;
  inversion E; subst; clear E; simpl stops in *; try contradiction;
  cbn [app] in *.

(** [bind_prim H]: the computation in [H] starts with a primitive; run it
    and leave what follows in [H].  [bind_call H as E]: it starts with a
    call; [E] is the call, [H] what follows when the call returned. *)
Tactic Notation "bind_call" hyp(H) "as" ident(E) :=
  apply bind_inv in H;
  destruct H as [(?a & ?s & ?t & ?t' & E & H & ->) | (?r & E & ?St)].

Ltac bind_prim H :=
  let E := fresh "E" in
  bind_call H as E; prim E.

Ltac case_if H :=
  match type of H with
  | context [if ?c then _ else _] => destruct c eqn:?; cbv beta iota in H
  end.

Ltac frame_tac := unfold frame in *; simpl in *; intuition congruence.
Ltac frame_lia :=
  unfold frame in *; simpl in *;
  repeat match goal with H : _ /\ _ |- _ => destruct H end; lia.
Ltac split3 := split; [| split].
Ltac norm_trace :=
  repeat first [rewrite <- app_assoc | rewrite app_nil_r
               | rewrite <- app_comm_cons];
  cbn [app].

Lemma app_reassoc (a b c d : Trace) x :
  a ++ b ++ x :: c ++ d = (a ++ b ++ x :: c) ++ d.
Proof. rewrite <- !app_assoc. reflexivity. Qed.

Lemma all_nil p : all p [].
Proof. constructor. Qed.

Lemma all_cons p e tr : p e = true -> all p tr -> all p (e :: tr).
Proof. intros. constructor; assumption. Qed.

Lemma all_app p a b : all p a -> all p b -> all p (a ++ b).
Proof. intros. apply Forall_app. split; assumption. Qed.

Lemma all_repeat p e n : p e = true -> all p (repeat e n).
Proof. intros H. induction n; simpl; constructor; auto. Qed.

#[local] Hint Resolve all_nil all_cons all_app all_repeat : worker.

Section Parts.

Variable w : World.

Lemma processEvents_loop_spec flags fuel : forall s r s' tr,
  processEvents_loop w flags fuel s = (r, s', tr) ->
  drain_trace flags r tr /\ frame s s'.
Proof.
  induction fuel as [| fuel IH]; intros s r s' tr H; simpl in H.
  - prim H. split; [apply (dr_running flags 0) | frame_tac].
  - bind_prim H.
    destruct (w_processEvents w (tick s)).
    + apply IH in H. destruct H as [D F]. split; [| frame_tac].
      inversion D; subst.
      * apply (dr_running flags (S n)).
      * apply (dr_done flags (S n)).
    + prim H. split; [apply (dr_done flags 0) | frame_tac].
Qed.

Lemma readRequest_loop_spec fuel : forall s r s' tr,
  readRequest_loop w fuel s = (r, s', tr) ->
  all is_poll tr /\ (r = Normal tt \/ r = Running) /\ frame s s'.
Proof.
  induction fuel as [| fuel IH]; intros s r s' tr H; simpl in H.
  - prim H. split3; auto with worker.
  - bind_prim H.
    destruct (w_canReadRequest w (tick s)).
    { prim H. split3; auto with worker. }
    bind_prim H.
    bind_call H as E.
    2:{ destruct (keepAliveTimeout (glob s) >? 0).
        - bind_prim E. prim E.
        - prim E. }
    assert (Hidle : all is_poll t /\ frame (advance w 0 s) s0).
    { destruct (keepAliveTimeout (glob s) >? 0).
      - bind_prim E. prim E. auto with worker.
      - prim E. auto with worker. }
    destruct Hidle as [Hidle Fidle].
    destruct a.
    { prim H. split3; [| auto | frame_tac].
      rewrite ?app_nil_r. auto with worker. }
    bind_prim H.
    destruct (is_connected (w_state w (tick s0))); simpl in H.
    2:{ prim H. split3; [auto 6 with worker | auto | frame_tac]. }
    bind_prim H.
    apply IH in H. destruct H as (P & R & F).
    split3; [auto 8 with worker | auto | frame_tac].
Qed.

Lemma readRequest_spec fuel s r s' tr :
  readRequest w fuel s = (r, s', tr) ->
  read_trace r tr /\ frame s s'.
Proof.
  unfold readRequest. intros H.
  bind_call H as E.
  2:{ apply readRequest_loop_spec in E. destruct E as (P & [R | R] & F);
      subst r0; simpl in St; try contradiction.
      destruct r; try contradiction. split; [constructor; exact P | exact F]. }
  apply readRequest_loop_spec in E. destruct E as (P & _ & F).
  bind_prim H.
  destruct (w_canReadRequest w (tick s0)); simpl in H.
  - prim H. split; [constructor; exact P | frame_tac].
  - bind_prim H. prim H. split; [| frame_tac].
    apply (rt_abort P).
Qed.

Lemma execute_all_spec reqs : forall s r s' tr,
  execute_all w reqs s = (r, s', tr) ->
  dispatch_trace (w_socketId w) reqs r tr /\ frame s s'.
Proof.
  induction reqs as [| req rest IH]; intros s r s' tr H; simpl in H.
  - prim H. split; [apply dt_all | frame_tac].
  - unfold execute in H. bind_call H as E.
    + bind_prim E.
      destruct (w_execute w (tick s) req) eqn:O; prim E.
      apply IH in H. destruct H as [D F]. split; [| frame_tac].
      inversion D; subst.
      * apply (dt_all (w_socketId w) (req :: rest)).
      * apply (@dt_fault (w_socketId w) (req :: done ++ req0 :: rest0)
                         (req :: done) req0 rest0 o e); auto.
    + bind_prim E.
      destruct (w_execute w (tick s) req) eqn:O; prim E;
        destruct r; simpl in St; try contradiction; subst e;
        (split; [| frame_tac]).
      * apply (@dt_fault (w_socketId w) (req :: rest) [] req rest
                         (ThrewClientError statusCode)); auto.
      * apply (@dt_fault (w_socketId w) (req :: rest) [] req rest
                         (ThrewStdException what)); auto.
Qed.

Lemma handshakeForWebSocket_spec hdr s r s' tr :
  handshakeForWebSocket w hdr s = (r, s', tr) ->
  ((r = Normal false /\ tr = [EvSearchEndpoint hdr false])
   \/ (r = Normal true
       /\ exists ho, tr = EvSearchEndpoint hdr true :: ho /\ handoff_trace hdr ho))
  /\ frame s s'.
Proof.
  unfold handshakeForWebSocket. intros H.
  bind_prim H.
  destruct (w_searchEndpoint w (tick s) hdr); simpl in H.
  2:{ prim H. split; [left; auto | frame_tac]. }
  do 4 bind_prim H.
  bind_call H as E.
  - bind_prim H. prim H.
    destruct (String.eqb (cookie hdr (w_sessionName w)) EmptyString); simpl in E; prim E.
    + split; [right | frame_tac]. split; [reflexivity |].
      eexists. split; [reflexivity |].
      do 4 eexists. left. split; reflexivity.
    + split; [right | frame_tac]. split; [reflexivity |].
      eexists. split; [reflexivity |].
      do 4 eexists. right. eexists. reflexivity.
  - destruct (String.eqb (cookie hdr (w_sessionName w)) EmptyString); simpl in E; prim E.
Qed.

Lemma keepalive_wait_all budget fuel : forall s r s' tr,
  keepalive_wait w budget fuel s = (r, s', tr) ->
  all is_keepalive tr
  /\ (r = Normal tt \/ r = Goto L_receive_end \/ r = Running)
  /\ frame s s'.
Proof.
  induction fuel as [| fuel IH]; intros s r s' tr H; simpl in H.
  - prim H. split3; auto with worker.
  - bind_prim H. case_if H.
    { prim H. split3; auto with worker. }
    bind_prim H. case_if H.
    { prim H. split3; [auto 6 with worker | auto | frame_tac]. }
    do 2 bind_prim H. case_if H.
    { prim H. split3; [auto 6 with worker | auto | frame_tac]. }
    bind_call H as E.
    + apply processEvents_loop_spec in E. destruct E as [D F].
      apply IH in H. destruct H as (P & R & F').
      split3; [| auto | frame_tac].
      repeat (apply all_cons; [reflexivity |]).
      apply all_app; [| exact P].
      inversion D; subst. auto with worker.
    + apply processEvents_loop_spec in E. destruct E as [D F].
      inversion D; subst; simpl in St; try contradiction.
      destruct r; try contradiction.
      split3; [| auto | frame_tac].
      repeat (apply all_cons; [reflexivity |]). simpl.
      auto with worker.
Qed.

Lemma keepalive_wait_spec budget fuel s r s' tr :
  (0 < fuel)%nat ->
  keepalive_wait w budget fuel s = (r, s', tr) ->
  keepalive_trace r tr /\ frame s s'.
Proof.
  intros Hf H. pose proof (keepalive_wait_all _ _ _ H) as (P & R & F).
  split; [| exact F]. split; [| exact R].
  destruct fuel as [| fuel]; [lia |]. simpl in H.
  bind_prim H. inversion P; subst.
  do 2 eexists. split; [reflexivity | assumption].
Qed.

Lemma for_loop_sound budget fuel : forall s r s' tr,
  (0 < budget)%nat ->
  for_loop w budget fuel s = (r, s', tr) ->
  loop_trace (keepAliveTimeout (glob s)) (maxThreads (self s)) (w_socketId w) r tr
  /\ frame s s'.
Proof.
  induction fuel as [| fuel IH]; intros s r s' tr Hb H; simpl in H.
  { prim H. split; [constructor | frame_tac]. }
  bind_call H as E; apply readRequest_spec in E; destruct E as [RT F].
  2:{ inversion RT; subst; simpl in St; try contradiction.
      destruct r; try contradiction.
      split; [| exact F]. apply lt_last, it_reading. assumption. }
  assert (Ht : keepAliveTimeout (glob s0) = keepAliveTimeout (glob s))
    by frame_tac.
  assert (Hm : maxThreads (self s0) = maxThreads (self s)) by frame_tac.
  inversion RT as [| polls P | polls reqs P]; subst.
  { prim H. rewrite ?app_nil_r. split; [| exact F].
    apply lt_last, it_abort. exact P. }
  clear RT. rewrite <- app_assoc. cbn [app].
  assert (G : forall o sv,
             served (keepAliveTimeout (glob s)) (maxThreads (self s))
                    (w_socketId w) a o sv ->
             iter_trace (keepAliveTimeout (glob s)) (maxThreads (self s))
                        (w_socketId w) o
                        (polls ++ EvCanReadRequest true :: EvRead a :: sv)).
  { intros o sv SV. apply it_served; assumption. }
  destruct a as [| req0 rest].
  { prim H. split; [| exact F]. apply lt_last, G, sv_empty. reflexivity. }
  case_if H.
  { case_if H.
    - bind_call H as E; apply handshakeForWebSocket_spec in E;
        destruct E as [[[R T] | [R (ho & T & HO)]] F'];
        try (subst r0; simpl in St; contradiction);
        injection R as ->; subst; simpl in H.
      + prim H. split; [| frame_tac].
        apply lt_last, G. eapply sv_ws_nomatch; eauto.
      + prim H. rewrite ?app_nil_r. split; [| frame_tac].
        apply lt_last, G. eapply sv_ws_match; eauto.
    - prim H. split; [| frame_tac].
      apply lt_last, G. eapply sv_other_upgrade; eauto. }
  bind_call H as E; apply execute_all_spec in E; destruct E as [D F'].
  2:{ inversion D; subst; simpl in St; try contradiction.
      destruct r; try contradiction. subst e0.
      split; [| frame_tac]. apply lt_last, G. eapply sv_fault; eauto. }
  inversion D; subst.
  bind_prim H. case_if H.
  { prim H. rewrite ?app_nil_r. split; [| frame_tac].
    apply lt_last, G. eapply sv_no_keepalive; eauto.
    apply Z.eqb_eq in Heqb0. frame_tac. }
  assert (Hnz : keepAliveTimeout (glob s) <> 0).
  { apply Z.eqb_neq in Heqb0. frame_tac. }
  do 2 bind_prim H. case_if H.
  { prim H. split; [| frame_tac].
    apply andb_prop in Heqb1. destruct Heqb1 as [Hc Hp].
    apply lt_last, G. eapply sv_shed; eauto; frame_lia. }
  apply andb_false_iff in Heqb1.
  bind_call H as E; apply keepalive_wait_spec in E; auto;
    destruct E as [KA F''].
  2:{ split; [| frame_tac]. apply lt_last, G.
      assert (r <> Normal tt /\ r0 = r) as [Hr ->].
      { destruct KA as [_ [-> | [-> | ->]]]; simpl in St; try contradiction;
          destruct r; try contradiction; split; congruence. }
      eapply sv_wait; eauto. intros [? ?]. frame_lia. }
  apply IH in H; auto. destruct H as [LT F3]. split; [| frame_tac].
  destruct a.
  match goal with
  | |- loop_trace _ _ _ _ (?p ++ ?c1 :: ?c2 :: ?ex ++ ?tc :: ?ka ++ ?more) =>
      replace (p ++ c1 :: c2 :: ex ++ tc :: ka ++ more)
        with ((p ++ c1 :: c2 :: ex ++ tc :: ka) ++ more)
        by (rewrite <- !app_assoc; cbn [app]; rewrite <- !app_assoc; reflexivity)
  end.
  apply lt_more.
  - apply G. eapply sv_again; eauto. intros [? ?]. frame_lia.
  - match type of LT with
    | loop_trace (keepAliveTimeout (glob ?x)) _ _ _ _ =>
        replace (keepAliveTimeout (glob s)) with (keepAliveTimeout (glob x))
          by frame_tac;
        replace (maxThreads (self s)) with (maxThreads (self x)) by frame_tac
    end.
    exact LT.
Qed.

Lemma socket_error_spec s :
  exists s', socket_error w s = (Normal tt, s', cleanup) /\ frame s s'.
Proof. eexists. split; [reflexivity | frame_tac]. Qed.

Lemma socket_cleanup_spec fuel s r s' tr :
  socket_cleanup w fuel s = (r, s', tr) ->
  exists fin, closing_trace fin tr
              /\ r = (if fin then Normal tt else Running)
              /\ frame s s'.
Proof.
  unfold socket_cleanup. intros H.
  bind_call H as E; apply processEvents_loop_spec in E; destruct E as [D F].
  - destruct (socket_error_spec s0) as (s1 & E & F'). rewrite E in H.
    inversion H; subst. exists true. split3; [| reflexivity | frame_tac].
    destruct a. apply cl_done. exact D.
  - inversion D; subst; simpl in St; try contradiction.
    destruct r; try contradiction.
    exists false. split3; [| reflexivity | exact F].
    apply cl_running. exact D.
Qed.

Lemma receive_end_spec fuel s r s' tr :
  receive_end w fuel s = (r, s', tr) ->
  exists fin d, tr = EvCloseHttpSocket :: d
                /\ closing_trace fin d
                /\ r = (if fin then Normal tt else Running)
                /\ frame s s'.
Proof.
  unfold receive_end. intros H. bind_prim H.
  apply socket_cleanup_spec in H. destruct H as (fin & C & R & F).
  exists fin, t'. split; [reflexivity |]. split3; [exact C | exact R | frame_tac].
Qed.

Lemma try_block_spec fuel s r s' tr :
  try_block w fuel s = (r, s', tr) ->
  exists rl lp h,
    loop_trace (keepAliveTimeout (glob s)) (maxThreads (self s)) (w_socketId w) rl lp
    /\ tr = lp ++ h /\ caught rl r h /\ frame s s'.
Proof.
  unfold try_block, try_catch. intros H.
  destruct (for_loop w fuel fuel s) as [[rl s1] lp] eqn:E.
  assert (L : loop_trace (keepAliveTimeout (glob s)) (maxThreads (self s))
                         (w_socketId w) rl lp /\ frame s s1).
  { destruct fuel as [| fuel].
    - simpl in E. prim E. split; [constructor | frame_tac].
    - apply for_loop_sound in E; [exact E | lia]. }
  destruct L as [L F]. exists rl, lp.
  destruct rl as [[] | l | [c | what] | ].
  - inversion H; subst. exists []. rewrite app_nil_r. simpl. auto.
  - inversion H; subst. exists []. rewrite app_nil_r. simpl. auto.
  - prim H. eexists. split3; [exact L | reflexivity |].
    split; [simpl; auto | frame_tac].
  - prim H. eexists. split3; [exact L | reflexivity |].
    split; [simpl; auto | frame_tac].
  - inversion H; subst. exists []. rewrite app_nil_r. simpl. auto.
Qed.

Lemma labelled_spec fuel s r s' tr :
  then_labels w fuel (before_labels w fuel) s = (r, s', tr) ->
  exists fin,
    body_trace (keepAliveTimeout (glob s)) (maxThreads (self s))
               (w_socketId w) fin (EvNewHttpSocket :: tr)
    /\ r = (if fin then Normal tt else Running)
    /\ frame s s'.
Proof.
  unfold then_labels. intros B.
  destruct (before_labels w fuel s) as [[r1 s1] t1] eqn:E.
  unfold before_labels in E. do 2 bind_prim E. case_if E.
  - (* the socket could not be bound *)
    do 2 bind_prim E. prim E.
    match type of B with
    | match socket_error w ?x with _ => _ end = _ =>
        destruct (socket_error_spec x) as (s2 & E2 & F2); rewrite E2 in B
    end.
    inversion B; subst. exists true. split3; [| reflexivity | frame_tac].
    apply negb_true_iff in Heqb. rewrite Heqb.
    apply bt_acquisition_failed.
  - do 2 bind_prim E. apply try_block_spec in E.
    destruct E as (rl & lp & h & L & -> & C & F).
    simpl in L. apply negb_false_iff in Heqb. rewrite Heqb in *.
    destruct rl as [[] | [ | | ] | [c | what] | ]; simpl in C;
      destruct C as [-> ->]; rewrite ?app_nil_r in B.
    + destruct (receive_end w fuel s1) as [[r2 s2] t2] eqn:E2.
      apply receive_end_spec in E2.
      destruct E2 as (fin & d & -> & C & -> & F2).
      inversion B; subst. exists fin. split3; [| reflexivity | frame_tac].
      norm_trace. eapply bt_served; [exact L | simpl; eauto].
    + destruct (receive_end w fuel s1) as [[r2 s2] t2] eqn:E2.
      apply receive_end_spec in E2.
      destruct E2 as (fin & d & -> & C & -> & F2).
      inversion B; subst. exists fin. split3; [| reflexivity | frame_tac].
      norm_trace. eapply bt_served; [exact L | simpl; eauto].
    + destruct (socket_cleanup w fuel s1) as [[r2 s2] t2] eqn:E2.
      apply socket_cleanup_spec in E2.
      destruct E2 as (fin & C & -> & F2).
      inversion B; subst. exists fin. split3; [| reflexivity | frame_tac].
      norm_trace. eapply bt_served; [exact L | simpl; eauto].
    + destruct (socket_error_spec s1) as (s2 & E2 & F2). rewrite E2 in B.
      inversion B; subst. exists true. split3; [| reflexivity | frame_tac].
      norm_trace. eapply bt_served; [exact L | simpl; eauto].
    + destruct (receive_end w fuel s1) as [[r2 s2] t2] eqn:E2.
      apply receive_end_spec in E2.
      destruct E2 as (fin & d & -> & C & -> & F2).
      inversion B; subst. exists fin. split3; [| reflexivity | frame_tac].
      norm_trace. eapply bt_served; [exact L | simpl; eauto].
    + destruct (receive_end w fuel s1) as [[r2 s2] t2] eqn:E2.
      apply receive_end_spec in E2.
      destruct E2 as (fin & d & -> & C & -> & F2).
      inversion B; subst. exists fin. split3; [| reflexivity | frame_tac].
      norm_trace. eapply bt_served; [exact L | simpl; eauto].
    + inversion B; subst. exists false. split3; [| reflexivity | frame_tac].
      rewrite <- (app_nil_r lp).
      eapply bt_served; [exact L | simpl; eauto].
Qed.

Lemma run_sound fuel s r s' tr :
  run w fuel s = (r, s', tr) ->
  run_trace (keepAliveTimeout (glob s)) (maxThreads (self s)) (w_socketId w) r tr
  /\ keepAliveTimeout (glob s') = keepAliveTimeout (glob s)
  /\ threadCounter (glob s') =
     threadCounter (glob s) + (match r with Running => 1 | _ => 0 end).
Proof.
  unfold run, with_Counter. intros H.
  set (s0 := set_threadCounter (threadCounter (glob s) + 1) s) in *.
  match type of H with
  | match ?body s0 with _ => _ end = _ =>
      destruct (body s0) as [[rb sb] tb] eqn:B
  end.
  do 2 bind_prim B. apply labelled_spec in B.
  destruct B as (fin & BT & -> & F). simpl in BT.
  subst s0. destruct F as [F _]. simpl in F.
  destruct fin; inversion H; subst; simpl; rewrite F; simpl.
  - split3; [apply (run_finished BT) | reflexivity | lia].
  - split3; [apply (run_unfinished BT) | reflexivity | lia].
Qed.

End Parts.

(** * Where an event sits in a run *)

Lemma occ_nil x post : occ [] x post -> False.
Proof. intros [pre H]. destruct pre; discriminate. Qed.

Lemma occ_cons e tr x post :
  occ (e :: tr) x post -> (e = x /\ post = tr) \/ occ tr x post.
Proof.
  intros [[| e' pre] H]; simpl in H; inversion H; subst.
  - left. auto.
  - right. exists pre. reflexivity.
Qed.

Lemma occ_app a b x post :
  occ (a ++ b) x post ->
  (exists p, occ a x p /\ post = p ++ b) \/ occ b x post.
Proof.
  revert post. induction a as [| e a IH]; intros post H; simpl in H.
  - right. exact H.
  - apply occ_cons in H. destruct H as [[-> ->] | H].
    + left. exists a. split; [exists []; reflexivity | reflexivity].
    + apply IH in H. destruct H as [(p & [pre ->] & ->) | H].
      * left. exists p. split; [exists (e :: pre); reflexivity | reflexivity].
      * right. exact H.
Qed.

Lemma occ_In tr x post : occ tr x post -> In x tr.
Proof. intros [pre ->]. apply in_elt. Qed.

Lemma occ_all p tr x post : all p tr -> occ tr x post -> p x = true.
Proof.
  intros A H. apply occ_In in H. unfold all in A.
  rewrite Forall_forall in A. auto.
Qed.

Lemma all_In p tr x : all p tr -> In x tr -> p x = true.
Proof. unfold all. rewrite Forall_forall. auto. Qed.

Lemma all_weaken (p q : Event -> bool) tr :
  (forall e, p e = true -> q e = true) -> all p tr -> all q tr.
Proof. intros I A. unfold all in *. eapply Forall_impl; [| exact A]. auto. Qed.

Lemma all_execs_ok sid reqs : all is_execute (execs_ok sid reqs).
Proof. induction reqs; simpl; constructor; auto. Qed.

Lemma occ_execs_ok sid reqs x post :
  occ (execs_ok sid reqs) x post ->
  exists done req rest,
    reqs = done ++ req :: rest /\ x = EvExecute req sid Returned
    /\ post = execs_ok sid rest.
Proof.
  intros [pre H]. unfold execs_ok in H.
  apply map_eq_app in H. destruct H as (done & l2 & -> & <- & H).
  apply map_eq_cons in H. destruct H as (req & rest & -> & <- & <-).
  exists done, req, rest. auto.
Qed.

(** Decompose every hypothesis that puts an event in a list built with
    [::] and [++]. *)
Ltac occ_cases :=
  repeat match goal with
  | H : occ [] _ _ |- _ => destruct (occ_nil H)
  | H : occ (_ :: _) _ _ |- _ =>
      apply occ_cons in H; destruct H as [[? ?] | H]
  | H : occ (_ ++ _) _ _ |- _ =>
      apply occ_app in H; destruct H as [(? & H & ?) | H]
  end.

(** An event that a part of the trace cannot contain. *)
Ltac not_there :=
  match goal with
  | A : all ?p ?tr, H : occ ?tr ?x _ |- _ =>
      let K := fresh in
      pose proof (occ_all A H) as K; subst;
      first [is_var x; destruct x | idtac]; simpl in *; congruence
  end.

Lemma all_cleanup : all is_teardown cleanup.
Proof. repeat constructor. Qed.

Lemma all_drain flags r d :
  drain_trace flags r d ->
  all (fun e => match e with
                | EvProcessEvents f _ =>
                    match f, flags with
                    | AllEvents, AllEvents
                    | ExcludeSocketNotifiers, ExcludeSocketNotifiers => true
                    | _, _ => false
                    end
                | _ => false
                end) d.
Proof.
  intros D. inversion D; subst.
  - apply all_repeat. destruct flags; reflexivity.
  - apply all_app; [apply all_repeat | repeat constructor];
      destruct flags; reflexivity.
Qed.

Lemma all_closing fin d : closing_trace fin d -> all is_teardown d.
Proof.
  intros C. inversion C as [d' D | d' D]; subst.
  - apply all_drain in D. eapply all_weaken; [| exact D].
    intros [] ; try discriminate. destruct flags; auto.
  - apply all_app; [| apply all_cleanup].
    apply all_drain in D. eapply all_weaken; [| exact D].
    intros [] ; try discriminate. destruct flags; auto.
Qed.

Lemma all_counter_dec fin : all is_teardown (counter_dec fin).
Proof. destruct fin; repeat constructor. Qed.

Lemma teardown_is_tail e : is_teardown e = true -> is_tail e = true.
Proof. destruct e; simpl; auto. Qed.

Lemma all_after_loop r fin tl : after_loop r fin tl -> all is_tail tl.
Proof.
  unfold after_loop. intros A.
  destruct r as [[] | [ | | ] | [c | what] | ].
  - destruct A as (d & -> & C). apply all_cons; [reflexivity |].
    eapply all_weaken; [apply teardown_is_tail | eapply all_closing; eauto].
  - destruct A as (d & -> & C). apply all_cons; [reflexivity |].
    eapply all_weaken; [apply teardown_is_tail | eapply all_closing; eauto].
  - eapply all_weaken; [apply teardown_is_tail | eapply all_closing; eauto].
  - destruct A as [_ ->].
    eapply all_weaken; [apply teardown_is_tail | apply all_cleanup].
  - destruct A as (d & -> & C). do 2 (apply all_cons; [reflexivity |]).
    eapply all_weaken; [apply teardown_is_tail | eapply all_closing; eauto].
  - destruct A as (d & -> & C). do 2 (apply all_cons; [reflexivity |]).
    eapply all_weaken; [apply teardown_is_tail | eapply all_closing; eauto].
  - destruct A as [_ ->]. constructor.
Qed.

Section Decomposition.

Variables t m sid : Z.

Lemma iter_block_occ o it x p :
  iter_trace t m sid o it -> occ it x p -> is_block x = true ->
  exists reqs sv, served t m sid reqs o sv /\ occ (EvRead reqs :: sv) x p.
Proof.
  intros I H B. inversion I as [polls P | polls P | polls reqs o' sv P SV];
    subst.
  - not_there.
  - occ_cases; try not_there; subst; discriminate.
  - apply occ_app in H. destruct H as [(q & H & ->) | H]; [not_there |].
    apply occ_cons in H. destruct H as [[<- _] | H]; [discriminate |].
    eauto.
Qed.

Lemma loop_block_occ r lp : loop_trace t m sid r lp ->
  forall fin tl x post,
    after_loop r fin tl ->
    occ (lp ++ tl ++ counter_dec fin) x post -> is_block x = true ->
    exists reqs o sv p later,
      served t m sid reqs o sv /\ occ (EvRead reqs :: sv) x p
      /\ post = p ++ later /\ rest_of_run t m sid o later.
Proof.
  assert (T : forall r fin tl x post,
             after_loop r fin tl -> occ (tl ++ counter_dec fin) x post ->
             is_block x = true -> False).
  { intros r' fin tl x post A H B.
    apply all_after_loop in A. pose proof (all_counter_dec fin) as A'.
    apply occ_app in H. destruct H as [(q & H & _) | H].
    - pose proof (occ_all A H). destruct x; discriminate.
    - pose proof (occ_all A' H). destruct x; discriminate. }
  induction 1 as [| r it I | r it lp I L IH]; intros fin tl x post A H B.
  - simpl in H. destruct (T _ _ _ _ _ A H B).
  - apply occ_app in H. destruct H as [(q & H & ->) | H].
    + destruct (iter_block_occ I H B) as (reqs & sv & SV & O).
      exists reqs, (Some r), sv, q, (tl ++ counter_dec fin).
      split3; [exact SV | exact O |]. split; [reflexivity |].
      apply ror_last. exact A.
    + destruct (T _ _ _ _ _ A H B).
  - rewrite <- app_assoc in H.
    apply occ_app in H. destruct H as [(q & H & ->) | H].
    + destruct (iter_block_occ I H B) as (reqs & sv & SV & O).
      exists reqs, None, sv, q, (lp ++ tl ++ counter_dec fin).
      split3; [exact SV | exact O |]. split; [reflexivity |].
      eapply ror_more; eauto.
    + eapply IH; eauto.
Qed.

Lemma run_block_occ r tr x post :
  run_trace t m sid r tr -> occ tr x post -> is_block x = true ->
  exists reqs o sv p later,
    served t m sid reqs o sv /\ occ (EvRead reqs :: sv) x p
    /\ post = p ++ later /\ rest_of_run t m sid o later.
Proof.
  intros R H B.
  assert (G : forall fin b,
             body_trace t m sid fin b ->
             occ (EvCounterInc :: b ++ counter_dec fin) x post ->
             exists reqs o sv p later,
               served t m sid reqs o sv /\ occ (EvRead reqs :: sv) x p
               /\ post = p ++ later /\ rest_of_run t m sid o later).
  { clear R H. intros fin b BT H.
    inversion BT as [sd err | sd rl lp fin' tl L A]; subst.
    - pose proof all_cleanup. pose proof (all_counter_dec true).
      occ_cases; subst; try discriminate; not_there.
    - apply occ_cons in H. destruct H as [[<- _] | H]; [discriminate |].
      cbn [app] in H.
      do 3 (apply occ_cons in H; destruct H as [[<- _] | H];
            [discriminate |]).
      rewrite <- app_assoc in H.
      eapply loop_block_occ; eauto. }
  inversion R as [b BT | b BT]; subst.
  - apply (G false b BT). unfold counter_dec. rewrite app_nil_r. exact H.
  - apply (G true b BT). exact H.
Qed.

End Decomposition.

(** * What the worker does with a batch *)

Lemma keepalive_trace_all r ka : keepalive_trace r ka -> all is_keepalive ka.
Proof.
  intros [(b & rest & -> & A) _]. apply all_cons; [reflexivity | exact A].
Qed.

Lemma all_handoff hdr ho : handoff_trace hdr ho -> all is_handoff_ev ho.
Proof.
  intros (sd & dup & peer & session & [[-> _] | (id & ->)]);
    repeat constructor.
Qed.

(** Take a [served] hypothesis apart, down to the lists it is made of. *)
Ltac served_cases SV :=
  inversion SV; subst;
  repeat match goal with
  | K : keepalive_trace _ _ |- _ =>
      let A := fresh "KA" in
      pose proof (keepalive_trace_all K) as A;
      destruct K as [(? & ? & -> & ?) ?]
  | K : handoff_trace _ _ |- _ =>
      let A := fresh "HO" in
      pose proof (all_handoff K) as A; revert K
  | K : dispatch_trace _ _ (Throw _) _ |- _ => inversion K; subst; clear K
  end; intros.

(** An event that is not a returned call of the dispatcher. *)
Ltac not_returned :=
  match goal with
  | H : occ (execs_ok _ _) _ _ |- _ =>
      apply occ_execs_ok in H; destruct H as (? & ? & ? & ? & ? & ?);
      subst; try discriminate; try congruence
  end.

Section Batch.

Variables t m sid : Z.


Lemma served_nomatch_occ reqs o sv hdr p :
  served t m sid reqs o sv ->
  occ (EvRead reqs :: sv) (EvSearchEndpoint hdr false) p ->
  p = [] /\ o = Some (Goto L_socket_error).
Proof.
  intros SV H. served_cases SV; occ_cases;
    try discriminate; try not_returned; try not_there.
  subst. split; reflexivity.
Qed.

Lemma served_match_occ reqs o sv hdr p :
  served t m sid reqs o sv ->
  occ (EvRead reqs :: sv) (EvSearchEndpoint hdr true) p ->
  handoff_trace hdr p /\ o = Some (Goto L_socket_cleanup).
Proof.
  intros SV H. served_cases SV; occ_cases;
    try discriminate; try not_returned; try not_there.
  match goal with K : _ = EvSearchEndpoint _ _ |- _ => inversion K; subst end.
  split; [assumption | reflexivity].
Qed.


Lemma served_read_occ reqs o sv reqs' p :
  served t m sid reqs o sv ->
  occ (EvRead reqs :: sv) (EvRead reqs') p ->
  reqs' = reqs /\ p = sv.
Proof.
  intros SV H. apply occ_cons in H. destruct H as [[E ->] | H].
  - inversion E. auto.
  - exfalso. served_cases SV; occ_cases;
      try discriminate; try not_returned; try not_there.
Qed.

End Batch.

(** What is left of the run once the for loop has been left with [r]. *)
Lemma rest_of_run_last t m sid r later :
  rest_of_run t m sid (Some r) later ->
  exists fin tl, after_loop r fin tl /\ later = tl ++ counter_dec fin.
Proof. intros R. inversion R; subst. eauto. Qed.

Lemma closes_then_teardown fin d :
  closing_trace fin d -> all is_teardown (d ++ counter_dec fin).
Proof.
  intros C. apply all_app; [eapply all_closing; eauto | apply all_counter_dec].
Qed.

Lemma run_result_cases w fuel s :
  result (run w fuel s) = Normal tt \/ result (run w fuel s) = Running.
Proof.
  destruct (run w fuel s) as [[r s'] tr] eqn:E. apply run_sound in E.
  destruct E as [R _]. inversion R; subst; simpl; auto.
Qed.

(** What run() leaves in the trace, in terms of the state it started in. *)
Lemma run_events_trace w fuel s :
  run_trace (keepAliveTimeout (glob s)) (maxThreads (self s)) (w_socketId w)
            (result (run w fuel s)) (events (run w fuel s)).
Proof.
  destruct (run w fuel s) as [[r s'] tr] eqn:E. apply run_sound in E.
  destruct E as [R _]. exact R.
Qed.

(** ** C1 *)


(** ** C4 *)

(** C4, as the code has it.  handshakeForWebSocket answers what the endpoint
    lookup answered.  When the lookup finds no endpoint, run() jumps to
    socket_error: only the common cleanup follows, the socket is not closed
    and the event queue is not drained.  When the lookup finds one, the
    handoff is carried out and cannot fail, and run() goes on at
    socket_cleanup: the event queue is drained, then the common cleanup. *)
Theorem C4_endpoint_lookup_decides (w : World) (fuel : nat) (s : State) :
  (forall hdr s0,
      result (handshakeForWebSocket w hdr s0)
      = Normal (w_searchEndpoint w (tick s0) hdr))
  /\ forall hdr found post,
      occ (events (run w fuel s)) (EvSearchEndpoint hdr found) post ->
      if found
      then exists ho fin d,
          handoff_trace hdr ho /\ closing_trace fin d
          /\ post = ho ++ d ++ counter_dec fin
      else post = cleanup ++ [EvCounterDec].
Proof.
  split.
  - intros hdr s0. unfold handshakeForWebSocket, result, bind, ask, tell, ret.
    simpl. destruct (w_searchEndpoint w (tick s0) hdr); simpl;
      [destruct (String.eqb (cookie hdr (w_sessionName w)) EmptyString) |];
      reflexivity.
  - intros hdr found post H.
    destruct (run_block_occ (run_events_trace w fuel s) H eq_refl)
      as (reqs & oo & sv & p & later & SV & O & -> & R).
    destruct found.
    + destruct (served_match_occ SV O) as (HO & ->).
      apply rest_of_run_last in R. destruct R as (fin & tl & A & ->).
      simpl in A. exists p, fin, tl. auto.
    + destruct (served_nomatch_occ SV O) as (-> & ->).
      apply rest_of_run_last in R. destruct R as (fin & tl & A & ->).
      simpl in A. destruct A as [-> ->]. reflexivity.
Qed.

(** ** After a batch has been dispatched *)

Lemma execs_ok_app sid a b :
  execs_ok sid (a ++ b) = execs_ok sid a ++ execs_ok sid b.
Proof. apply map_app. Qed.

Lemma teardown_starts_not_with_execute req sid o later :
  all is_teardown (EvExecute req sid o :: later) -> False.
Proof. intros A. inversion A; subst. discriminate. Qed.

Lemma rest_after_normal t m sid later :
  rest_of_run t m sid (Some (Normal tt)) later -> closes later.
Proof.
  intros R. apply rest_of_run_last in R. destruct R as (fin & tl & A & ->).
  simpl in A. destruct A as (d & -> & C).
  exists (d ++ counter_dec fin). split; [reflexivity |].
  apply closes_then_teardown. exact C.
Qed.

Section Decision.

Variables t m sid : Z.

(** What follows the dispatch of a whole batch, every call of which
    returned. *)
Lemma after_dispatch reqs o sv later post :
  served t m sid reqs o sv ->
  rest_of_run t m sid o later ->
  sv ++ later = execs_ok sid reqs ++ post ->
  (closes post /\ (reqs = [] \/ t = 0))
  \/ (t <> 0 /\ exists c rest, post = EvThreadCount c :: rest).
Proof.
  intros SV R E. served_cases SV; cbn [app] in E.
  - left. simpl in E. subst. split; [| auto].
    eapply rest_after_normal; eauto.
  - exfalso. apply rest_of_run_last in R.
    destruct R as (fin & tl & A & ->). simpl in A.
    apply closes_then_teardown in A. rewrite E in A. simpl in A.
    eapply teardown_starts_not_with_execute; eauto.
  - discriminate.
  - discriminate.
  - exfalso.
    match goal with K : _ :: _ = _ ++ _ :: _ |- _ => rewrite K in E end.
    rewrite execs_ok_app, <- !app_assoc in E.
    apply app_inv_head in E. simpl in E. inversion E; subst.
    discriminate.
  - left. apply app_inv_head in E. subst. split; [| auto].
    eapply rest_after_normal; eauto.
  - right. rewrite <- app_assoc in E. apply app_inv_head in E.
    split; [assumption |]. subst. cbn [app]. eauto.
  - right. rewrite <- app_assoc in E. apply app_inv_head in E.
    split; [assumption |]. subst. cbn [app]. eauto.
  - right. rewrite <- app_assoc in E. apply app_inv_head in E.
    split; [assumption |]. subst. cbn [app]. eauto.
Qed.

End Decision.

Lemma run_after_dispatch w fuel s reqs post :
  occ (events (run w fuel s)) (EvRead reqs)
      (execs_ok (w_socketId w) reqs ++ post) ->
  (closes post /\ (reqs = [] \/ keepAliveTimeout (glob s) = 0))
  \/ (keepAliveTimeout (glob s) <> 0
      /\ exists c rest, post = EvThreadCount c :: rest).
Proof.
  intros H.
  destruct (run_block_occ (run_events_trace w fuel s) H eq_refl)
    as (reqs' & oo & sv & p & later & SV & O & E & R).
  destruct (served_read_occ SV O) as [<- ->].
  eapply after_dispatch; eauto.
Qed.


(** ** C5 *)


(** ** Without keep-alive *)

(** [alphabet]: the events of a trace built from parts with known events
    all pass a test. *)
Ltac pointwise :=
  let e := fresh "e" in
  let H := fresh "H" in
  intros e H; destruct e; simpl in *;
  try discriminate; try reflexivity;
  try match goal with
      | K : (_ =? _) = true |- _ => apply Z.eqb_eq in K; subst; reflexivity
      end;
  try match goal with
      | f : ProcessEventsFlag |- _ => destruct f; simpl in *; congruence
      end;
  try match goal with
      | b : bool |- _ => destruct b; simpl in *; congruence
      end.

Ltac alphabet :=
  repeat first [apply all_nil | apply all_app
               | apply all_cons; [reflexivity |]];
  try (eapply all_weaken; [| eassumption]; pointwise);
  try (eapply all_weaken; [| apply all_execs_ok]; pointwise);
  try (eapply all_weaken; [| apply all_cleanup]; pointwise);
  try (eapply all_weaken; [| apply all_counter_dec]; pointwise).

Section NoKeepAlive.

Variables m sid : Z.

Lemma served_t0 reqs o sv :
  served 0 m sid reqs o sv ->
  all no_keepalive_ev sv /\ exists r, o = Some r.
Proof.
  intros SV. served_cases SV; try congruence;
    (split; [alphabet | eauto]).
Qed.

Lemma iter_t0 o it :
  iter_trace 0 m sid o it ->
  all no_keepalive_ev it /\ exists r, o = Some r.
Proof.
  intros I. inversion I as [polls P | polls P | polls reqs o' sv P SV];
    subst.
  - split; [alphabet | eauto].
  - split; [alphabet | eauto].
  - apply served_t0 in SV. destruct SV as [A E].
    split; [alphabet | exact E].
Qed.

Lemma loop_t0 r lp :
  loop_trace 0 m sid r lp -> all no_keepalive_ev lp.
Proof.
  induction 1 as [| r it I | r it lp I L IH].
  - constructor.
  - apply iter_t0 in I. tauto.
  - apply iter_t0 in I. destruct I as [_ [r' E]]. discriminate.
Qed.

Lemma run_t0 r tr :
  run_trace 0 m sid r tr -> all no_keepalive_ev tr.
Proof.
  assert (B : forall fin b, body_trace 0 m sid fin b -> all no_keepalive_ev b).
  { intros fin b BT. inversion BT as [sd err | sd rl lp fin' tl L A]; subst.
    - alphabet.
    - apply loop_t0 in L. apply all_after_loop in A. alphabet. }
  intros R. inversion R as [b BT | b BT]; subst.
  - apply all_cons; [reflexivity | eapply B; eauto].
  - apply all_cons; [reflexivity |].
    apply all_app; [eapply B; eauto | repeat constructor].
Qed.

End NoKeepAlive.

Lemma served_no_read t m sid reqs o sv :
  served t m sid reqs o sv -> all not_read sv.
Proof. intros SV. served_cases SV; alphabet. Qed.

Lemma rest_after_last_no_read t m sid r later :
  rest_of_run t m sid (Some r) later -> all not_read later.
Proof.
  intros R. apply rest_of_run_last in R. destruct R as (fin & tl & A & ->).
  apply all_after_loop in A. alphabet.
Qed.

(** ** C2 *)

(** C2.  With a keep-alive timeout of 0, run() never waits for a further
    request on the connection; once a batch has been dispatched, every call
    having returned, the next thing the worker does is to close the socket,
    and only the common cleanup follows; and no second batch is read. *)
Theorem C2_timeout_zero_closes_after_one_batch
        (w : World) (fuel : nat) (s : State) :
  keepAliveTimeout (glob s) = 0 ->
  (forall ready, ~ In (EvWaitForReadyRead 5 ready) (events (run w fuel s)))
  /\ (forall reqs post,
         occ (events (run w fuel s)) (EvRead reqs)
             (execs_ok (w_socketId w) reqs ++ post) ->
         exists d, post = EvCloseHttpSocket :: d /\ all is_teardown d)
  /\ (forall reqs post,
         occ (events (run w fuel s)) (EvRead reqs) post ->
         forall reqs', ~ In (EvRead reqs') post).
Proof.
  intros T. pose proof (run_events_trace w fuel s) as R. rewrite T in R.
  split3.
  - intros ready I. apply run_t0 in R.
    pose proof (all_In _ R I) as K. discriminate.
  - intros reqs post H. apply run_after_dispatch in H.
    destruct H as [[C _] | [N _]]; [exact C | contradiction].
  - intros reqs post H reqs' I.
    destruct (run_block_occ R H eq_refl)
      as (reqs0 & oo & sv & p & later & SV & O & -> & RR).
    destruct (served_read_occ SV O) as [<- ->].
    pose proof (served_no_read SV) as A1.
    destruct (served_t0 SV) as [_ [r ->]].
    apply rest_after_last_no_read in RR.
    apply in_app_or in I. destruct I as [I | I].
    + pose proof (all_In _ A1 I). discriminate.
    + pose proof (all_In _ RR I). discriminate.
Qed.

(** ** The order of dispatch *)

Lemma until_read_app a b :
  all not_read a -> until_read (a ++ b) = a ++ until_read b.
Proof.
  induction 1 as [| e a He A IH]; simpl; [reflexivity |].
  unfold not_read in He. destruct (is_read e); [discriminate |].
  rewrite IH. reflexivity.
Qed.

Lemma all_until_read p tr : all p tr -> all p (until_read tr).
Proof.
  induction 1 as [| e a He A IH]; simpl; [constructor |].
  destruct (is_read e); constructor; assumption.
Qed.

Section Order.

Variables t m sid : Z.

Lemma iter_quiet o it k :
  iter_trace t m sid o it ->
  all not_execute (until_read k) ->
  all not_execute (until_read (it ++ k)).
Proof.
  intros I K. inversion I as [polls P | polls P | polls reqs o' sv P SV];
    subst.
  - rewrite until_read_app by alphabet. alphabet.
  - rewrite until_read_app by alphabet. alphabet.
  - rewrite <- app_assoc. rewrite until_read_app by alphabet.
    simpl. alphabet.
Qed.

Lemma tail_quiet r fin tl :
  after_loop r fin tl ->
  all not_execute (until_read (tl ++ counter_dec fin)).
Proof.
  intros A. apply all_after_loop in A. apply all_until_read. alphabet.
Qed.

Lemma loop_quiet r lp : loop_trace t m sid r lp ->
  forall fin tl, after_loop r fin tl ->
  all not_execute (until_read (lp ++ tl ++ counter_dec fin)).
Proof.
  induction 1 as [| r it I | r it lp I L IH]; intros fin tl A.
  - simpl. eapply tail_quiet; eauto.
  - eapply iter_quiet; eauto. eapply tail_quiet; eauto.
  - rewrite <- app_assoc. eapply iter_quiet; eauto.
Qed.

Lemma rest_quiet o later :
  rest_of_run t m sid o later -> all not_execute (until_read later).
Proof.
  intros R. inversion R; subst.
  - eapply tail_quiet; eauto.
  - eapply loop_quiet; eauto.
Qed.

Lemma rest_after_fault e later :
  rest_of_run t m sid (Some (Throw e)) later -> all not_execute later.
Proof.
  intros R. apply rest_of_run_last in R. destruct R as (fin & tl & A & ->).
  apply all_after_loop in A. alphabet.
Qed.

End Order.

(** ** C6 *)

(** C6.  Take a batch that run() has read and whose first request asks for
    no upgrade.  Either the calls of the dispatcher that follow are exactly
    one per request of the batch, in the order of the batch, each of which
    returned, and no other call is made before the next batch is read; or
    the calls that follow are one per request of an initial part of the
    batch, in order, each of which returned, then a call for the next
    request, which threw, and no call of the dispatcher at all after it. *)
Theorem C6_dispatch_in_read_order (w : World) (fuel : nat) (s : State) :
  forall reqs post,
    occ (events (run w fuel s)) (EvRead reqs) post ->
    match reqs with
    | req0 :: _ => wants_upgrade req0 = false
    | [] => True
    end ->
    (exists after,
        post = execs_ok (w_socketId w) reqs ++ after
        /\ all not_execute (until_read after))
    \/ (exists done req remaining o after,
           reqs = done ++ req :: remaining
           /\ o <> Returned
           /\ post = execs_ok (w_socketId w) done
                       ++ EvExecute req (w_socketId w) o :: after
           /\ all not_execute after).
Proof.
  intros reqs post H U.
  destruct (run_block_occ (run_events_trace w fuel s) H eq_refl)
    as (reqs0 & oo & sv & p & later & SV & O & -> & R).
  destruct (served_read_occ SV O) as [<- ->].
  pose proof (rest_quiet R) as Q.
  inversion SV; subst; try congruence.
  - left. exists later. auto.
  - right.
    match goal with K : dispatch_trace _ _ _ _ |- _ => inversion K; subst end.
    apply rest_after_fault in R.
    exists done, req, rest0, o, later. split3; [assumption | | split].
    + intros ->. discriminate.
    + rewrite <- app_assoc. reflexivity.
    + exact R.
  - left. exists later. auto.
  - left. exists (EvThreadCount c :: later).
    split; [rewrite <- app_assoc; reflexivity |]. simpl. alphabet.
  - left.
    match goal with K : keepalive_trace _ _ |- _ =>
      pose proof (keepalive_trace_all K) as KA end.
    exists (EvThreadCount c :: ka ++ later).
    split; [rewrite <- app_assoc; reflexivity |]. simpl.
    rewrite until_read_app by alphabet. alphabet.
  - left.
    match goal with K : keepalive_trace _ _ |- _ =>
      pose proof (keepalive_trace_all K) as KA end.
    exists (EvThreadCount c :: ka ++ later).
    split; [rewrite <- app_assoc; reflexivity |]. simpl.
    rewrite until_read_app by alphabet. alphabet.
Qed.

(** ** C7 *)

(** C7, as the code has it.  Take a batch whose first request has a
    Connection header that contains "upgrade", whatever the case of its
    letters, and an Upgrade header other than "websocket".  The worker calls
    the dispatcher for none of its requests and does not close the socket:
    it drains the event queue, and when that is done it runs the common
    cleanup, which releases the context and schedules the socket object for
    deletion, and leaves run(). *)
Theorem C7_other_upgrade_is_drained_not_closed
        (w : World) (fuel : nat) (s : State) :
  forall req0 rest post,
    occ (events (run w fuel s)) (EvRead (req0 :: rest)) post ->
    contains (toLower (rawHeader (header req0) "Connection")) "upgrade" = true ->
    toLower (rawHeader (header req0) "Upgrade") <> "websocket" ->
    exists n,
      post = repeat (EvProcessEvents AllEvents true) n
      \/ post = repeat (EvProcessEvents AllEvents true) n
                  ++ [EvProcessEvents AllEvents false; EvRelease;
                      EvSetCurrentDatabaseContext false; EvDeleteLater;
                      EvCounterDec].
Proof.
  intros req0 rest post H U W.
  assert (W' : wants_websocket req0 = false).
  { unfold wants_websocket. apply String.eqb_neq. exact W. }
  fold (wants_upgrade req0) in U.
  destruct (run_block_occ (run_events_trace w fuel s) H eq_refl)
    as (reqs0 & oo & sv & p & later & SV & O & -> & R).
  destruct (served_read_occ SV O) as [<- ->].
  inversion SV; subst;
    try match goal with K : _ :: _ = _ :: _ |- _ => inversion K; subst end;
    try congruence.
  apply rest_of_run_last in R. destruct R as (fin & tl & A & ->).
  simpl in A. inversion A as [d D | d D]; subst; inversion D; subst.
  - exists n. left. simpl. rewrite app_nil_r. reflexivity.
  - exists n. right. simpl. rewrite <- !app_assoc. reflexivity.
Qed.

(** ** The worker counter *)

Lemma counter_after_add c d tr :
  counter_after (c + d) tr = c + counter_after d tr.
Proof.
  revert d. induction tr as [| e tr IH]; intros d; simpl; [reflexivity |].
  destruct e; try apply IH.
  - replace (c + d + 1) with (c + (d + 1)) by lia. apply IH.
  - replace (c + d - 1) with (c + (d - 1)) by lia. apply IH.
Qed.

Lemma counter_after_shift c tr : counter_after c tr = c + counter_after 0 tr.
Proof. rewrite <- counter_after_add. f_equal. lia. Qed.

Lemma counter_after_cons e p :
  counter_after 0 (e :: p) = counter_after 0 [e] + counter_after 0 p.
Proof.
  destruct e; simpl; try lia.
  - apply (counter_after_add 1 0).
  - apply (counter_after_add (-1) 0).
Qed.

Lemma counter_after_app c a b :
  counter_after c (a ++ b) = counter_after (counter_after c a) b.
Proof.
  revert c. induction a as [| e a IH]; intros c; simpl; [reflexivity |].
  destruct e; apply IH.
Qed.

Lemma counter_after_quiet c tr : all not_counter tr -> counter_after c tr = c.
Proof.
  induction 1 as [| e tr He A IH]; simpl; [reflexivity |].
  destruct e; try discriminate; exact IH.
Qed.

Lemma sumZ_app a b : sumZ (a ++ b) = sumZ a + sumZ b.
Proof. induction a; simpl; lia. Qed.

Lemma interleaving_counter ps tr :
  interleaving ps tr ->
  counter_after 0 tr = sumZ (map (counter_after 0) ps).
Proof.
  induction 1 as [ps E | ps1 e p ps2 tr I IH].
  - simpl. induction E as [| p ps -> _ IH]; simpl; [reflexivity | lia].
  - rewrite counter_after_cons, IH.
    rewrite !map_app, !sumZ_app. cbn [map sumZ fold_right].
    rewrite (counter_after_cons e p). lia.
Qed.

Lemma last_quiet q :
  all not_counter q ->
  match last (EvCounterInc :: q) EvCounterInc with
  | EvCounterDec => False
  | _ => True
  end.
Proof.
  intros A. destruct q as [| e q]; [exact I |].
  assert (N : e :: q <> []) by discriminate.
  change (last (EvCounterInc :: e :: q) EvCounterInc)
    with (last (e :: q) EvCounterInc).
  destruct (exists_last N) as (q' & e' & E). rewrite E, last_last.
  assert (K : In e' (e :: q)).
  { rewrite E. apply in_or_app. right. left. reflexivity. }
  pose proof (all_In _ A K) as K'. destruct e'; try exact I. discriminate.
Qed.

Section OneWorker.

Variables t m sid : Z.

Lemma served_no_counter reqs o sv :
  served t m sid reqs o sv -> all not_counter sv.
Proof. intros SV. served_cases SV; alphabet. Qed.

Lemma loop_no_counter r lp : loop_trace t m sid r lp -> all not_counter lp.
Proof.
  assert (I : forall o it, iter_trace t m sid o it -> all not_counter it).
  { intros o it I. inversion I as [polls P | polls P | polls reqs o' sv P SV];
      subst; try (apply served_no_counter in SV); alphabet. }
  induction 1; [constructor | eauto |]. apply all_app; eauto.
Qed.

Lemma closing_no_counter fin d : closing_trace fin d -> all not_counter d.
Proof.
  intros C. inversion C as [d' D | d' D]; subst; apply all_drain in D;
    alphabet.
Qed.

Lemma after_loop_no_counter r fin tl :
  after_loop r fin tl -> all not_counter tl.
Proof.
  unfold after_loop. intros A.
  destruct r as [[] | [ | | ] | [c | what] | ];
    repeat match goal with
    | K : exists _, _ |- _ => destruct K
    | K : _ /\ _ |- _ => destruct K
    end; subst;
    try match goal with
    | K : closing_trace _ _ |- _ => apply closing_no_counter in K
    end; alphabet.
Qed.

Lemma body_no_counter fin b : body_trace t m sid fin b -> all not_counter b.
Proof.
  intros BT. inversion BT as [sd err | sd rl lp fin' tl L A]; subst.
  - alphabet.
  - apply loop_no_counter in L. apply after_loop_no_counter in A. alphabet.
Qed.

End OneWorker.

Lemma run_counter_shape w fuel s :
  exists mid fin,
    events (run w fuel s) = EvCounterInc :: mid ++ counter_dec fin
    /\ all not_counter mid
    /\ result (run w fuel s) = (if fin then Normal tt else Running)
    /\ threadCounter (glob (final (run w fuel s)))
       = threadCounter (glob s) + (if fin then 0 else 1).
Proof.
  destruct (run w fuel s) as [[r s'] tr] eqn:E. apply run_sound in E.
  destruct E as (R & _ & C). simpl.
  inversion R as [b BT | b BT]; subst.
  - exists b, false. simpl. rewrite app_nil_r.
    split3; [reflexivity | eapply body_no_counter; eauto | auto].
  - exists b, true. simpl.
    split3; [reflexivity | eapply body_no_counter; eauto | auto].
Qed.

Lemma inside_run_exited e q : inside_run (e :: q ++ [EvCounterDec]) = false.
Proof.
  unfold inside_run. rewrite app_comm_cons, last_last. reflexivity.
Qed.

Lemma inside_run_quiet q :
  all not_counter q -> inside_run (EvCounterInc :: q) = true.
Proof.
  intros A. unfold inside_run. pose proof (last_quiet A) as K.
  destruct (last (EvCounterInc :: q) EvCounterInc); try reflexivity.
  contradiction.
Qed.

(** A worker that has got as far as [p] has changed the counter by one if
    it is inside run(), and not at all otherwise. *)
Lemma prefix_counter w fuel s p rest :
  events (run w fuel s) = p ++ rest ->
  counter_after 0 p = if inside_run p then 1 else 0.
Proof.
  destruct (run_counter_shape w fuel s) as (mid & fin & -> & A & _).
  intros E. destruct p as [| e q]; [reflexivity |].
  simpl in E. inversion E as [[He Hq]]. subst e.
  change (counter_after 0 (EvCounterInc :: q)) with (counter_after (0 + 1) q).
  symmetry in Hq. apply app_eq_app in Hq.
  destruct Hq as (l & [[-> Hl] | [-> Hl]]).
  - (* the end of mid has been passed *)
    destruct l as [| e l].
    + rewrite app_nil_r. rewrite counter_after_quiet by exact A.
      rewrite inside_run_quiet by exact A. reflexivity.
    + destruct fin; simpl in Hl; [| discriminate].
      inversion Hl as [[He Hl']]. subst e.
      destruct l; [| discriminate].
      rewrite counter_after_app, (counter_after_quiet _ A).
      rewrite inside_run_exited. reflexivity.
  - (* still inside mid *)
    assert (Aq : all not_counter q).
    { unfold all in *. apply Forall_app in A. tauto. }
    rewrite counter_after_quiet by exact Aq.
    rewrite inside_run_quiet by exact Aq. reflexivity.
Qed.

(** ** C3 *)

(** C3.  Every execution of run() increments the worker counter as the
    first thing it does and, when it leaves run(), decrements it as the last
    thing it does, and touches it at no other time, whichever way run() is
    left; until it has left run() the counter stays incremented.  So, when
    any number of workers take turns, at any instant the counter has grown
    by the number of workers that are inside run(). *)
Theorem C3_counter_counts_live_workers :
  (forall w fuel s,
      exists mid fin,
        events (run w fuel s) = EvCounterInc :: mid ++ counter_dec fin
        /\ all not_counter mid
        /\ result (run w fuel s) = (if fin then Normal tt else Running)
        /\ threadCounter (glob (final (run w fuel s)))
           = threadCounter (glob s) + (if fin then 0 else 1))
  /\ forall (workers : list (World * nat * State)) (ps : list Trace)
            (tr : Trace) (c0 : Z),
      Forall2 (fun a p => exists rest,
                   events (run (fst (fst a)) (snd (fst a)) (snd a)) = p ++ rest)
              workers ps ->
      interleaving ps tr ->
      counter_after c0 tr = c0 + Z.of_nat (List.length (filter inside_run ps)).
Proof.
  split; [apply run_counter_shape |].
  intros workers ps tr c0 F I.
  rewrite counter_after_shift, (interleaving_counter I). f_equal.
  clear I. induction F as [| a p workers ps [rest E] F IH]; [reflexivity |].
  simpl map. simpl sumZ. rewrite IH, (prefix_counter _ _ _ _ _ E).
  simpl filter. destruct (inside_run p); cbn [List.length]; lia.
Qed.

(** ** Waiting for the workers to finish *)

Section Waiting.

Variable w : World.
Variable msec : Z.

Lemma waitForAllDone_loop_step start f s :
  waitForAllDone_loop w msec start (S f) s =
  let c := live_count w s (tick s) in
  if c >? 0 then
    let s1 := advance w 0 s in
    let e := clock s1 - start in
    if e >? msec
    then (Normal c, advance w 0 s1, [EvThreadCount c; EvElapsed e])
    else
      match waitForAllDone_loop w msec start f
              (advance w 0 (advance w 5 (advance w 0 s1))) with
      | (r, s', tr) =>
          (r, s', EvThreadCount c :: EvElapsed e :: EvMsleep 5
                    :: EvAppProcessEvents :: tr)
      end
  else (Normal c, advance w 0 s, [EvThreadCount c]).
Proof.
  cbn [waitForAllDone_loop]. unfold bind at 1. unfold threadCount at 1.
  cbv zeta.
  destruct (live_count w s (tick s) >? 0); [| reflexivity].
  unfold bind at 1. unfold timer_elapsed at 1. cbv zeta.
  destruct (clock (advance w 0 s) - start >? msec); [reflexivity |].
  unfold bind at 1. unfold msleep at 1.
  unfold bind at 1. unfold tell at 1.
  destruct (waitForAllDone_loop w msec start f _) as [[r s'] tr].
  reflexivity.
Qed.

Lemma waitForAllDone_loop_spec start f : forall s c s' tr,
  waitForAllDone_loop w msec start f s = (Normal c, s', tr) ->
  wait_trace msec (c =? 0) tr.
Proof.
  induction f as [| f IH]; intros s c s' tr H; [discriminate |].
  rewrite waitForAllDone_loop_step in H. cbv zeta in H.
  destruct (_ >? 0) eqn:Hc in H.
  - destruct (_ >? msec) eqn:He in H.
    + inversion H; subst. unfold advance in *; simpl in *.
      replace (_ =? 0) with false by (symmetry; apply Z.eqb_neq; lia).
      apply wt_timed_out; lia.
    + destruct (waitForAllDone_loop w msec start f _) as [[r1 s1] t1] eqn:E.
      inversion H; subst. apply IH in E. unfold advance in *; simpl in *.
      apply wt_round; [lia | lia | exact E].
  - inversion H; subst. apply wt_drained. lia.
Qed.

Lemma waitForAllDone_loop_returns start f : forall s,
  msec - (clock s - start) < 5 * Z.of_nat f ->
  exists c s' tr,
    waitForAllDone_loop w msec start (S f) s = (Normal c, s', tr).
Proof.
  induction f as [| f IH]; intros s Hm;
    rewrite waitForAllDone_loop_step; cbv zeta.
  - destruct (_ >? 0); [| eauto].
    destruct (_ >? msec) eqn:He; [eauto |].
    exfalso. unfold advance in He. cbn [clock] in He.
    rewrite Z.gtb_ltb in He. apply Z.ltb_ge in He. lia.
  - destruct (_ >? 0); [| eauto].
    destruct (_ >? msec) eqn:He; [eauto |].
    destruct (IH (advance w 0 (advance w 5 (advance w 0 (advance w 0 s)))))
      as (c & s' & tr & E).
    { unfold advance in *. cbn [clock] in *. lia. }
    rewrite E. eauto.
Qed.

Lemma wait_trace_true b tr :
  wait_trace msec b tr -> (b = true <-> In (EvThreadCount 0) tr).
Proof.
  induction 1 as [c Hc | c e Hc He | c e b rest Hc He W IH].
  - split.
    + intros E. apply Z.eqb_eq in E. subst. left. reflexivity.
    + intros [E | []]. inversion E. reflexivity.
  - split; [discriminate |].
    intros [E | [E | []]]; inversion E. lia.
  - rewrite IH. split.
    + intros I. do 4 right. exact I.
    + intros [E | [E | [E | [E | I]]]]; try discriminate; [| exact I].
      inversion E. lia.
Qed.

Lemma wait_trace_false tr :
  wait_trace msec false tr ->
  (exists pre c, tr = pre ++ [EvThreadCount c] /\ c < 0)
  \/ (exists pre c e, tr = pre ++ [EvThreadCount c; EvElapsed e]
                      /\ 0 < c /\ msec < e).
Proof.
  remember false as b eqn:Eb.
  induction 1 as [c Hc | c e Hc He | c e b rest Hc He W IH].
  - left. exists [], c. split; [reflexivity |].
    apply Z.eqb_neq in Eb. lia.
  - right. exists [], c, e. auto.
  - destruct (IH Eb) as [(pre & c' & -> & K) | (pre & c' & e' & -> & K)].
    + left. eexists (_ :: _ :: _ :: _ :: pre), c'. split; [reflexivity | exact K].
    + right. eexists (_ :: _ :: _ :: _ :: pre), c', e'.
      split; [reflexivity | exact K].
Qed.

Lemma wait_trace_last b tr :
  wait_trace msec b tr ->
  exists pre c,
    b = (c =? 0)
    /\ ((c <= 0 /\ tr = pre ++ [EvThreadCount c])
        \/ (0 < c /\ exists e, msec < e
                               /\ tr = pre ++ [EvThreadCount c; EvElapsed e])).
Proof.
  induction 1 as [c Hc | c e Hc He | c e b rest Hc He W IH].
  - exists [], c. split; [reflexivity |]. left. auto.
  - exists [], c. split; [symmetry; apply Z.eqb_neq; lia |]. right. eauto.
  - destruct IH as (pre & c' & Eb & [[K ->] | (K & e' & K' & ->)]).
    + eexists (_ :: _ :: _ :: _ :: pre), c'. split; [exact Eb |]. left.
      split; [exact K | reflexivity].
    + eexists (_ :: _ :: _ :: _ :: pre), c'. split; [exact Eb |]. right.
      split; [exact K |]. exists e'. split; [exact K' | reflexivity].
Qed.

Lemma split_first (e x : Event) tr pre post :
  e :: tr = pre ++ x :: post ->
  (pre = [] /\ e = x /\ tr = post)
  \/ (exists pre', pre = e :: pre' /\ tr = pre' ++ x :: post).
Proof.
  destruct pre as [| p pre]; simpl; intros H; inversion H; subst; eauto.
Qed.

(** Every interaction that the loop records it has made: the state has
    moved on by one interaction and by the time it took for each event, a
    count that is recorded is the count at that instant, an elapsed time
    that is recorded is the time that has passed since [start]. *)
Lemma waitForAllDone_loop_real start f : forall s r s' tr,
  waitForAllDone_loop w msec start f s = (r, s', tr) ->
  tick s' = (tick s + List.length tr)%nat
  /\ clock s' = clock s + time_of w (tick s) tr
  /\ (forall pre c post,
         tr = pre ++ EvThreadCount c :: post ->
         c = live_count w s (tick s + List.length pre))
  /\ (forall pre e post,
         tr = pre ++ EvElapsed e :: post ->
         e = clock s + time_of w (tick s) pre - start).
Proof.
  induction f as [| f IH]; intros s r s' tr H.
  { inversion H; subst. simpl. split; [lia |]. split; [lia |].
    split; intros pre x post K; destruct pre; discriminate. }
  rewrite waitForAllDone_loop_step in H. cbv zeta in H.
  destruct (_ >? 0) in H.
  - destruct (_ >? msec) in H.
    + inversion H; subst. unfold advance. simpl.
      split; [lia |]. split; [lia |]. split; intros pre x post K.
      * apply split_first in K. destruct K as [(-> & K & _) | (pre' & -> & K)].
        -- inversion K. simpl. rewrite Nat.add_0_r. reflexivity.
        -- apply split_first in K.
           destruct K as [(_ & K & _) | (pre2 & _ & K)]; [discriminate |].
           destruct pre2; discriminate.
      * apply split_first in K. destruct K as [(_ & K & _) | (pre' & -> & K)];
          [discriminate |].
        apply split_first in K. destruct K as [(-> & K & _) | (pre2 & _ & K)].
        -- inversion K. simpl. lia.
        -- destruct pre2; discriminate.
    + destruct (waitForAllDone_loop w msec start f _) as [[r1 s1] t1] eqn:E.
      inversion H; subst. apply IH in E. clear IH H.
      unfold advance in E. cbn [tick clock glob] in E.
      destruct E as (E1 & E2 & E3 & E4).
      split; [simpl; lia |]. split; [simpl; lia |].
      split; intros pre x post K.
      * apply split_first in K. destruct K as [(-> & K & _) | (p1 & -> & K)].
        { inversion K. simpl. rewrite Nat.add_0_r. reflexivity. }
        apply split_first in K. destruct K as [(_ & K & _) | (p2 & -> & K)];
          [discriminate |].
        apply split_first in K. destruct K as [(_ & K & _) | (p3 & -> & K)];
          [discriminate |].
        apply split_first in K. destruct K as [(_ & K & _) | (p4 & -> & K)];
          [discriminate |].
        apply E3 in K. rewrite K. unfold live_count. cbn [glob List.length].
        do 2 f_equal. lia.
      * apply split_first in K. destruct K as [(_ & K & _) | (p1 & -> & K)];
          [discriminate |].
        apply split_first in K. destruct K as [(-> & K & _) | (p2 & -> & K)].
        { inversion K. unfold advance. simpl. lia. }
        apply split_first in K. destruct K as [(_ & K & _) | (p3 & -> & K)];
          [discriminate |].
        apply split_first in K. destruct K as [(_ & K & _) | (p4 & -> & K)];
          [discriminate |].
        apply E4 in K. rewrite K at 1. simpl. lia.
  - inversion H; subst. unfold advance. simpl.
    split; [lia |]. split; [lia |]. split; intros pre x post K.
    + apply split_first in K. destruct K as [(-> & K & _) | (pre' & _ & K)].
      * inversion K. simpl. rewrite Nat.add_0_r. reflexivity.
      * destruct pre'; discriminate.
    + apply split_first in K. destruct K as [(_ & K & _) | (pre' & _ & K)];
        [discriminate | destruct pre'; discriminate].
Qed.

End Waiting.

(** ** C9 *)

(** C9.  A call of waitForAllDone(msec) that has returned started its timer
    and then polled the worker count: after every poll that read a positive
    count with no more than msec elapsed it slept 5 ms, let the application
    process its events and polled again; it stopped at the first poll that
    read no positive count, or that read a positive count with more than
    msec elapsed; and it answered true exactly when a poll read zero.  When
    the count is never negative and the answer is false, the last poll found
    more than msec elapsed.  What the call reads is what is there: every
    count it reads is the value of the counter at the instant of that poll,
    every elapsed time is the time that has passed since the timer was
    started, every sleep and every other interaction has taken its time.
    So the answer is whether the counter was zero at the instant of the
    last poll, and an answer of false with a positive count means that more
    than msec had really passed.  The call does return.  When the counter
    is zero at the first poll, the call answers true without having
    slept. *)
Theorem C9_waitForAllDone_polls_until_drained_or_timeout
        (w : World) (msec : Z) (s : State) :
  (forall fuel b s' tr,
      waitForAllDone w msec fuel s = (Normal b, s', tr) ->
      (exists polls, tr = EvTimerStart :: polls /\ wait_trace msec b polls)
      /\ (b = true <-> In (EvThreadCount 0) tr)
      /\ ((forall n, 0 <= live_count w s n) -> b = false ->
          exists pre c e, tr = pre ++ [EvThreadCount c; EvElapsed e]
                          /\ 0 < c /\ msec < e)
      /\ exists pre c,
          c = live_count w s (tick s + List.length pre)
          /\ b = (c =? 0)
          /\ ((c <= 0 /\ tr = pre ++ [EvThreadCount c])
              \/ (0 < c
                  /\ msec < time_of w (tick s) (pre ++ [EvThreadCount c])
                  /\ tr = pre ++ [EvThreadCount c;
                                  EvElapsed (time_of w (tick s)
                                               (pre ++ [EvThreadCount c]))])))
  /\ (forall fuel r s' tr,
         waitForAllDone w msec fuel s = (r, s', tr) ->
         tick s' = (tick s + List.length tr)%nat
         /\ clock s' = clock s + time_of w (tick s) tr
         /\ (forall pre c post,
                tr = pre ++ EvThreadCount c :: post ->
                c = live_count w s (tick s + List.length pre))
         /\ (forall pre e post,
                tr = pre ++ EvElapsed e :: post ->
                e = time_of w (tick s) pre))
  /\ (exists fuel b s' tr, waitForAllDone w msec fuel s = (Normal b, s', tr))
  /\ (live_count w s (S (tick s)) = 0 ->
      forall fuel, (0 < fuel)%nat ->
      result (waitForAllDone w msec fuel s) = Normal true
      /\ events (waitForAllDone w msec fuel s)
         = [EvTimerStart; EvThreadCount 0]).
Proof.
  assert (D : forall fuel r s' tr,
             waitForAllDone w msec fuel s = (r, s', tr) ->
             tick s' = (tick s + List.length tr)%nat
             /\ clock s' = clock s + time_of w (tick s) tr
             /\ (forall pre c post,
                    tr = pre ++ EvThreadCount c :: post ->
                    c = live_count w s (tick s + List.length pre))
             /\ (forall pre e post,
                    tr = pre ++ EvElapsed e :: post ->
                    e = time_of w (tick s) pre)).
  { intros fuel r s' tr H. unfold waitForAllDone in H. bind_prim H.
    assert (G : forall r0 s0 t0,
               waitForAllDone_loop w msec (clock s) fuel (advance w 0 s)
               = (r0, s0, t0) ->
               tick s0 = (tick s + List.length (EvTimerStart :: t0))%nat
               /\ clock s0 = clock s + time_of w (tick s) (EvTimerStart :: t0)
               /\ (forall pre c post,
                      EvTimerStart :: t0 = pre ++ EvThreadCount c :: post ->
                      c = live_count w s (tick s + List.length pre))
               /\ (forall pre e post,
                      EvTimerStart :: t0 = pre ++ EvElapsed e :: post ->
                      e = time_of w (tick s) pre)).
    { intros r0 s0 t0 E. apply waitForAllDone_loop_real in E.
      unfold advance in E. cbn [tick clock glob] in E.
      destruct E as (E1 & E2 & E3 & E4).
      split; [simpl; lia |]. split; [simpl; lia |].
      split; intros pre x post K; apply split_first in K;
        destruct K as [(_ & K & _) | (p1 & -> & K)]; try discriminate.
      - apply E3 in K. rewrite K. unfold live_count. cbn [glob List.length].
        do 2 f_equal. lia.
      - apply E4 in K. rewrite K at 1. simpl. lia. }
    bind_call H as E.
    - prim H. rewrite app_nil_r. apply (G _ _ _ E).
    - apply (G _ _ _ E). }
  split; [| split; [exact D |]]; [| split].
  - intros fuel b s' tr H. pose proof (D _ _ _ _ H) as (_ & _ & D3 & D4).
    unfold waitForAllDone in H.
    bind_prim H. bind_call H as E.
    2:{ destruct r; simpl in St; contradiction || discriminate. }
    prim H. rewrite app_nil_r in *.
    match type of E with
    | _ = (Normal ?c, _, ?tr1) =>
        assert (W : wait_trace msec (c =? 0) tr1)
          by (eapply waitForAllDone_loop_spec; eauto)
    end.
    split; [eauto |]. split; [| split].
    + rewrite (wait_trace_true W). split; [intros I; right; exact I |].
      intros [K | I]; [discriminate | exact I].
    + intros Hpos Hb. rewrite Hb in W.
      destruct (wait_trace_false W) as [(pre & c & -> & K) | (pre & c & e & -> & K)].
      * exfalso.
        specialize (D3 (EvTimerStart :: pre) c [] eq_refl).
        specialize (Hpos (tick s + List.length (EvTimerStart :: pre))%nat).
        lia.
      * exists (EvTimerStart :: pre), c, e. split; [reflexivity | exact K].
    + destruct (wait_trace_last W)
        as (pre & c & Eb & [[K ->] | (K & e & K' & ->)]).
      * exists (EvTimerStart :: pre), c.
        split; [apply (D3 (EvTimerStart :: pre) c []); reflexivity |].
        split; [exact Eb |]. left. auto.
      * exists (EvTimerStart :: pre), c.
        split; [apply (D3 (EvTimerStart :: pre) c [EvElapsed e]); reflexivity |].
        split; [exact Eb |]. right.
        assert (Ee : e = time_of w (tick s)
                               ((EvTimerStart :: pre) ++ [EvThreadCount c])).
        { apply (D4 ((EvTimerStart :: pre) ++ [EvThreadCount c]) e []).
          rewrite <- app_assoc. reflexivity. }
        rewrite <- Ee. auto.
  - set (f := Z.to_nat (Z.max 0 (msec + 1))).
    destruct (waitForAllDone_loop_returns w msec (clock s) f (advance w 0 s))
      as (c & s' & tr & E).
    { unfold advance, f. cbn [clock]. lia. }
    exists (S f), (c =? 0), s', (EvTimerStart :: tr).
    unfold waitForAllDone, bind, timer_start, ret.
    rewrite E. rewrite app_nil_r. reflexivity.
  - intros Hz fuel Hf. destruct fuel as [| f]; [lia |].
    unfold waitForAllDone, bind, timer_start, ret, result, events.
    rewrite waitForAllDone_loop_step. cbv zeta.
    change (tick (advance w 0 s)) with (S (tick s)).
    change (live_count w (advance w 0 s) (S (tick s)))
      with (live_count w s (S (tick s))).
    rewrite Hz. simpl. auto.
Qed.

(** ** Reading without an idle limit *)

Section ReadingWithoutLimit.

Variable w : World.

Lemma readRequest_loop_step0 f s :
  keepAliveTimeout (glob s) = 0 ->
  readRequest_loop w (S f) s =
  if w_canReadRequest w (tick s)
  then (Normal tt, advance w 0 s, [EvCanReadRequest true])
  else
    let st := w_state w (S (tick s)) in
    if is_connected st then
      match readRequest_loop w f
              (advance w 0 (advance w 0 (advance w 0 s))) with
      | (r, s', tr) =>
          (r, s',
           EvCanReadRequest false :: EvState st
             :: EvWaitForReadyRead 200 (w_waitForReadyRead w (S (S (tick s))))
             :: tr)
      end
    else (Normal tt, advance w 0 (advance w 0 s),
          [EvCanReadRequest false; EvState st]).
Proof.
  intros T. cbn [readRequest_loop]. unfold bind at 1.
  unfold canReadRequest at 1, ask at 1. cbv zeta.
  destruct (w_canReadRequest w (tick s)); [reflexivity |].
  unfold bind at 1, get at 1. cbn [glob advance]. rewrite T.
  change (0 >? 0) with false. unfold bind at 1, ret at 1.
  unfold bind at 1, socket_state at 1, ask at 1. cbn [tick advance].
  destruct (is_connected (w_state w (S (tick s)))); cbn [negb];
    [| reflexivity].
  unfold bind at 1, waitForReadyRead at 1, ask at 1. cbn [tick advance].
  destruct (readRequest_loop w f _) as [[r s'] tr]. reflexivity.
Qed.

Lemma readRequest_loop_no_idle f : forall s i,
  keepAliveTimeout (glob s) = 0 ->
  ~ In (EvIdleTime i) (events (readRequest_loop w f s)).
Proof.
  induction f as [| f IH]; intros s i T; [intros [] |].
  rewrite readRequest_loop_step0 by exact T. cbv zeta.
  destruct (w_canReadRequest w (tick s)).
  { intros [K | []]. discriminate. }
  destruct (is_connected _).
  - specialize (IH (advance w 0 (advance w 0 (advance w 0 s))) i T).
    destruct (readRequest_loop w f _) as [[r s'] tr]. simpl in *.
    intros [K | [K | [K | K]]]; try discriminate. auto.
  - intros [K | [K | []]]; discriminate.
Qed.

Lemma readRequest_loop_exit f : forall s s' tr,
  keepAliveTimeout (glob s) = 0 ->
  readRequest_loop w f s = (Normal tt, s', tr) ->
  (exists pre, tr = pre ++ [EvCanReadRequest true])
  \/ (exists pre st, tr = pre ++ [EvCanReadRequest false; EvState st]
                     /\ st <> ConnectedState).
Proof.
  induction f as [| f IH]; intros s s' tr T H; [discriminate |].
  rewrite readRequest_loop_step0 in H by exact T. cbv zeta in H.
  destruct (w_canReadRequest w (tick s)).
  { inversion H; subst. left. exists []. reflexivity. }
  destruct (is_connected _) eqn:C.
  - destruct (readRequest_loop w f _) as [[r1 s1] t1] eqn:E.
    inversion H; subst. apply IH in E; [| exact T].
    destruct E as [(pre & ->) | (pre & st & -> & N)].
    + left. eexists (_ :: _ :: _ :: pre). reflexivity.
    + right. eexists (_ :: _ :: _ :: pre), st. split; [reflexivity | exact N].
  - inversion H; subst. right. exists [], (w_state w (S (tick s))).
    split; [reflexivity |]. intros K. rewrite K in C. discriminate.
Qed.

Lemma readRequest_loop_never_idle_aborts f : forall s,
  keepAliveTimeout (glob s) = 0 ->
  (forall n, w_canReadRequest w n = false) ->
  (forall n, w_state w n = ConnectedState) ->
  result (readRequest_loop w f s) = Running.
Proof.
  induction f as [| f IH]; intros s T NC CS; [reflexivity |].
  rewrite readRequest_loop_step0 by exact T. cbv zeta.
  rewrite NC, CS. cbn [is_connected].
  specialize (IH (advance w 0 (advance w 0 (advance w 0 s))) T NC CS).
  destruct (readRequest_loop w f _) as [[r s'] tr]. exact IH.
Qed.

End ReadingWithoutLimit.

(** ** C10 *)

(** C10.  With a keep-alive timeout of 0 the polling loop of readRequest
    never asks the socket for its idle time; when it ends, the last thing it
    saw was either that a request can be read, or that the socket is not in
    the connected state; and as long as no request can be read and the
    socket stays connected, it does not end. *)
Theorem C10_no_idle_abort_when_timeout_zero
        (w : World) (fuel : nat) (s : State) :
  keepAliveTimeout (glob s) = 0 ->
  (forall i, ~ In (EvIdleTime i) (events (readRequest_loop w fuel s)))
  /\ (forall s' tr,
         readRequest_loop w fuel s = (Normal tt, s', tr) ->
         (exists pre, tr = pre ++ [EvCanReadRequest true])
         \/ (exists pre st, tr = pre ++ [EvCanReadRequest false; EvState st]
                            /\ st <> ConnectedState))
  /\ ((forall n, w_canReadRequest w n = false) ->
      (forall n, w_state w n = ConnectedState) ->
      result (readRequest_loop w fuel s) = Running).
Proof.
  intros T. split3.
  - intros i. apply readRequest_loop_no_idle. exact T.
  - intros s' tr. apply readRequest_loop_exit. exact T.
  - apply readRequest_loop_never_idle_aborts. exact T.
Qed.

(** ** C8 *)

Section Resolution.

Variable toInt : string -> Z.

Lemma TActionThread_new_resolved cfg sd mx g :
  0 <= keepAliveTimeout g ->
  TActionThread_new toInt cfg sd mx g = (mkThread sd mx false, g, []).
Proof.
  intros H. unfold TActionThread_new.
  destruct (Z.ltb_spec (keepAliveTimeout g) 0); [lia | reflexivity].
Qed.

Lemma construct_all_resolved reqs : forall g,
  0 <= keepAliveTimeout g ->
  snd (construct_all toInt reqs g) = []
  /\ snd (fst (construct_all toInt reqs g)) = g.
Proof.
  induction reqs as [| [[cfg sd] mx] rest IH]; intros g H; simpl; [auto |].
  rewrite TActionThread_new_resolved by exact H.
  destruct (IH g H) as [E1 E2].
  destruct (construct_all toInt rest g) as [[objs g2] t2]. simpl in *.
  subst. auto.
Qed.

End Resolution.

(** C8.  The configured keep-alive timeout is read, with "10" as the
    default, by the first worker that is constructed, and by no other: of
    any number of constructions, one after the other from the start of the
    process, only the first leaves a read in the trace; the timeout cached
    from then on is the integer value of the text read, or 0 when that is
    negative, and so is not negative; and a construction that finds a
    resolved timeout reads nothing and changes nothing. *)
Theorem C8_timeout_resolved_once (toInt : string -> Z) :
  appSettings_value None "10" = "10"
  /\ (forall cfg sd mx rest,
         let v := appSettings_value cfg "10" in
         let x := construct_all toInt ((cfg, sd, mx) :: rest) initial_globals in
         snd x = [EvAppSettingsValue "10" v]
         /\ keepAliveTimeout (snd (fst x)) = Z.max (toInt v) 0
         /\ 0 <= keepAliveTimeout (snd (fst x)))
  /\ (forall cfg sd mx g,
         0 <= keepAliveTimeout g ->
         TActionThread_new toInt cfg sd mx g = (mkThread sd mx false, g, [])).
Proof.
  split3; [reflexivity | |].
  - intros cfg sd mx rest v x. subst x. simpl.
    set (g1 := mkGlobals 0 (Z.max (toInt v) 0)).
    assert (H : 0 <= keepAliveTimeout g1) by (simpl; lia).
    destruct (construct_all_resolved toInt rest g1 H) as [E1 E2].
    unfold v in *. fold g1.
    destruct (construct_all toInt rest g1) as [[objs g2] t2]. simpl in *.
    subst. simpl. split3; [reflexivity | reflexivity | lia].
  - intros. apply TActionThread_new_resolved. assumption.
Qed.

(** * The worker on examples *)

(** The ways out of run(). *)

Example run_normal_close :
  run w_served 3 (worker_state 0 0)
  = (Normal tt,
     mkState (mkGlobals 0 0) (mkThread 0 0 false) 13 0,
     [EvCounterInc; EvNewHttpSocket; EvSetSocketDescriptor 5 true;
      EvSetCurrentDatabaseContext true;
      EvCanReadRequest true; EvCanReadRequest true;
      EvRead [request "a"; request "b"];
      EvExecute (request "a") 7 Returned; EvExecute (request "b") 7 Returned;
      EvCloseHttpSocket; EvProcessEvents AllEvents false;
      EvRelease; EvSetCurrentDatabaseContext false; EvDeleteLater;
      EvCounterDec]).
Proof. reflexivity. Qed.

Example run_acquisition_failure :
  events (run w_unbound 3 (worker_state 10 0))
  = [EvCounterInc; EvNewHttpSocket; EvSetSocketDescriptor 5 false;
     EvEmitError 1; EvTfClose 5;
     EvRelease; EvSetCurrentDatabaseContext false; EvDeleteLater;
     EvCounterDec].
Proof. reflexivity. Qed.

Example run_peer_gone :
  events (run w_peer_gone 3 (worker_state 10 0))
  = [EvCounterInc; EvNewHttpSocket; EvSetSocketDescriptor 5 true;
     EvSetCurrentDatabaseContext true;
     EvCanReadRequest false; EvIdleTime 0; EvState UnconnectedState;
     EvCanReadRequest false; EvAbort;
     EvCloseHttpSocket; EvProcessEvents AllEvents false;
     EvRelease; EvSetCurrentDatabaseContext false; EvDeleteLater;
     EvCounterDec].
Proof. reflexivity. Qed.

Example run_upgrade_handed_off :
  events (run w_endpoint 3 (worker_state 10 0))
  = [EvCounterInc; EvNewHttpSocket; EvSetSocketDescriptor 5 true;
     EvSetCurrentDatabaseContext true;
     EvCanReadRequest true; EvCanReadRequest true;
     EvRead [upgrade_request "WebSocket"];
     EvSearchEndpoint (upgrade_header "WebSocket") true;
     EvDuplicateSocket 9 11;
     EvNewWebSocket 11 "192.0.2.1" (upgrade_header "WebSocket");
     EvConnectDeleteLater; EvMoveToThread;
     EvStartWorkerForOpening empty_session;
     EvProcessEvents AllEvents false;
     EvRelease; EvSetCurrentDatabaseContext false; EvDeleteLater;
     EvCounterDec].
Proof. reflexivity. Qed.

Example run_upgrade_without_endpoint :
  events (run w_no_endpoint 3 (worker_state 10 0))
  = [EvCounterInc; EvNewHttpSocket; EvSetSocketDescriptor 5 true;
     EvSetCurrentDatabaseContext true;
     EvCanReadRequest true; EvCanReadRequest true;
     EvRead [upgrade_request "WebSocket"];
     EvSearchEndpoint (upgrade_header "WebSocket") false;
     EvRelease; EvSetCurrentDatabaseContext false; EvDeleteLater;
     EvCounterDec].
Proof. reflexivity. Qed.

Example run_caught_fault :
  events (run w_second_fails 3 (worker_state 10 0))
  = [EvCounterInc; EvNewHttpSocket; EvSetSocketDescriptor 5 true;
     EvSetCurrentDatabaseContext true;
     EvCanReadRequest true; EvCanReadRequest true;
     EvRead [request "a"; request "b"; request "c"];
     EvExecute (request "a") 7 Returned;
     EvExecute (request "b") 7 (ThrewStdException "boom");
     EvWriteResponse 500 [];
     EvCloseHttpSocket; EvProcessEvents AllEvents false;
     EvRelease; EvSetCurrentDatabaseContext false; EvDeleteLater;
     EvCounterDec].
Proof. reflexivity. Qed.

Example run_keepalive_expires :
  events (run w_idles 3 (worker_state 10 0))
  = [EvCounterInc; EvNewHttpSocket; EvSetSocketDescriptor 5 true;
     EvSetCurrentDatabaseContext true;
     EvCanReadRequest true; EvCanReadRequest true;
     EvRead [request "a"];
     EvExecute (request "a") 7 Returned;
     EvThreadCount 1;
     EvWaitForReadyRead 5 false; EvState ConnectedState; EvIdleTime 10;
     EvCloseHttpSocket; EvProcessEvents AllEvents false;
     EvRelease; EvSetCurrentDatabaseContext false; EvDeleteLater;
     EvCounterDec].
Proof. reflexivity. Qed.

Example upgrade_is_found_in_any_case :
  wants_upgrade (upgrade_request "WebSocket") = true
  /\ wants_websocket (upgrade_request "WebSocket") = true
  /\ wants_websocket (upgrade_request "h2c") = false
  /\ wants_upgrade (request "a") = false.
Proof. repeat split. Qed.

Example first_construction_reads_the_default :
  construct_all decimal [(None, 5, 0); (Some "30", 6, 0)] initial_globals
  = ([mkThread 5 0 false; mkThread 6 0 false],
     mkGlobals 0 10,
     [EvAppSettingsValue "10" "10"]).
Proof. reflexivity. Qed.

Example negative_timeout_is_clamped :
  snd (fst (construct_all decimal [(Some "-5", 5, 0)] initial_globals))
  = mkGlobals 0 0.
Proof. reflexivity. Qed.

Example waitForAllDone_times_out :
  result (waitForAllDone w_saturated 12 9 (worker_state 0 0)) = Normal false
  /\ events (waitForAllDone w_saturated 12 9 (worker_state 0 0))
     = [EvTimerStart;
        EvThreadCount 1; EvElapsed 0; EvMsleep 5; EvAppProcessEvents;
        EvThreadCount 1; EvElapsed 5; EvMsleep 5; EvAppProcessEvents;
        EvThreadCount 1; EvElapsed 10; EvMsleep 5; EvAppProcessEvents;
        EvThreadCount 1; EvElapsed 15].
Proof. split; reflexivity. Qed.

(** * The claims on examples *)



Lemma C2_timeout_zero_witness :
  keepAliveTimeout (glob (worker_state 0 0)) = 0
  /\ exists d,
      skipn 9 (events (run w_served 3 (worker_state 0 0)))
      = EvCloseHttpSocket :: d
      /\ all is_teardown d.
Proof.
  split; [reflexivity |].
  apply (proj1 (proj2 (C2_timeout_zero_closes_after_one_batch
                         w_served 3 (worker_state 0 0) eq_refl))
               [request "a"; request "b"]).
  exists (firstn 6 (events (run w_served 3 (worker_state 0 0)))).
  reflexivity.
Defined.

Lemma C3_counter_witness :
  counter_after 0 [EvCounterInc; EvCounterInc; EvNewHttpSocket]
  = 0 + Z.of_nat (List.length
                    (filter inside_run
                            [[EvCounterInc; EvNewHttpSocket]; [EvCounterInc]])).
Proof.
  apply (proj2 C3_counter_counts_live_workers
               [(w_served, 3%nat, worker_state 10 0);
                (w_client_fault, 3%nat, worker_state 10 0)]).
  - constructor.
    + exists (skipn 2 (events (run w_served 3 (worker_state 10 0)))).
      reflexivity.
    + constructor; [| constructor].
      exists (skipn 1 (events (run w_client_fault 3 (worker_state 10 0)))).
      reflexivity.
  - apply (il_cons [] EvCounterInc [EvNewHttpSocket] [[EvCounterInc]]).
    apply (il_cons [[EvNewHttpSocket]] EvCounterInc [] []).
    apply (il_cons [] EvNewHttpSocket [] [[]]).
    apply il_nil. repeat constructor.
Defined.

(** Where the specification and the code part: an upgrade to websocket for
    which no endpoint is found.  The worker runs the common cleanup at once:
    the event queue is not drained and the socket is not closed. *)
Lemma C4_counterexample :
  ~ no_endpoint_then_close_cleanup w_no_endpoint 3 (worker_state 10 0).
Proof.
  intros H.
  destruct (H (upgrade_header "WebSocket")
              (skipn 8 (events (run w_no_endpoint 3 (worker_state 10 0)))))
    as (more & I).
  - exists (firstn 7 (events (run w_no_endpoint 3 (worker_state 10 0)))).
    reflexivity.
  - simpl in I. repeat (destruct I as [I | I]; [discriminate |]). exact I.
Qed.

Lemma C4_endpoint_lookup_witness :
  skipn 8 (events (run w_no_endpoint 3 (worker_state 10 0)))
  = cleanup ++ [EvCounterDec].
Proof.
  apply (proj2 (C4_endpoint_lookup_decides w_no_endpoint 3 (worker_state 10 0))
               (upgrade_header "WebSocket") false).
  exists (firstn 7 (events (run w_no_endpoint 3 (worker_state 10 0)))).
  reflexivity.
Defined.


Lemma C6_dispatch_order_witness :
  (exists after,
      skipn 7 (events (run w_second_fails 3 (worker_state 10 0)))
      = execs_ok 7 [request "a"; request "b"; request "c"] ++ after
      /\ all not_execute (until_read after))
  \/ (exists done req remaining o after,
         [request "a"; request "b"; request "c"] = done ++ req :: remaining
         /\ o <> Returned
         /\ skipn 7 (events (run w_second_fails 3 (worker_state 10 0)))
            = execs_ok 7 done ++ EvExecute req 7 o :: after
         /\ all not_execute after).
Proof.
  apply (@C6_dispatch_in_read_order w_second_fails 3 (worker_state 10 0)
                                    [request "a"; request "b"; request "c"]).
  - exists (firstn 6 (events (run w_second_fails 3 (worker_state 10 0)))).
    reflexivity.
  - reflexivity.
Defined.

(** Where the specification and the code part: an upgrade to something else
    than websocket.  The event queue is drained and the common cleanup
    follows; the socket is not closed. *)
Lemma C7_counterexample :
  ~ other_upgrade_then_closed w_other_upgrade 3 (worker_state 10 0).
Proof.
  intros H.
  destruct (H (upgrade_request "h2c") []
              (skipn 7 (events (run w_other_upgrade 3 (worker_state 10 0)))))
    as (_ & d1 & more & d2 & E & I).
  - exists (firstn 6 (events (run w_other_upgrade 3 (worker_state 10 0)))).
    reflexivity.
  - reflexivity.
  - discriminate.
  - assert (K : In EvCloseHttpSocket
                   (skipn 7 (events (run w_other_upgrade 3 (worker_state 10 0))))).
    { rewrite E. apply in_or_app. right. right. exact I. }
    simpl in K. repeat (destruct K as [K | K]; [discriminate |]). exact K.
Qed.

Lemma C7_other_upgrade_witness :
  exists n,
    skipn 7 (events (run w_other_upgrade 3 (worker_state 10 0)))
    = repeat (EvProcessEvents AllEvents true) n
    \/ skipn 7 (events (run w_other_upgrade 3 (worker_state 10 0)))
       = repeat (EvProcessEvents AllEvents true) n
           ++ [EvProcessEvents AllEvents false; EvRelease;
               EvSetCurrentDatabaseContext false; EvDeleteLater; EvCounterDec].
Proof.
  apply (@C7_other_upgrade_is_drained_not_closed
           w_other_upgrade 3 (worker_state 10 0) (upgrade_request "h2c") []).
  - exists (firstn 6 (events (run w_other_upgrade 3 (worker_state 10 0)))).
    reflexivity.
  - reflexivity.
  - discriminate.
Defined.

Lemma C8_timeout_resolved_witness :
  0 <= keepAliveTimeout (mkGlobals 0 10)
  /\ TActionThread_new decimal (Some "30") 8 4 (mkGlobals 0 10)
     = (mkThread 8 4 false, mkGlobals 0 10, []).
Proof.
  split; [discriminate |].
  apply (proj2 (proj2 (C8_timeout_resolved_once decimal))).
  discriminate.
Defined.

Lemma C9_waitForAllDone_witness :
  (exists pre c,
      c = live_count w_saturated (worker_state 0 0)
                     (tick (worker_state 0 0) + List.length pre)
      /\ false = (c =? 0)
      /\ ((c <= 0
           /\ [EvTimerStart;
               EvThreadCount 1; EvElapsed 0; EvMsleep 5; EvAppProcessEvents;
               EvThreadCount 1; EvElapsed 5; EvMsleep 5; EvAppProcessEvents;
               EvThreadCount 1; EvElapsed 10; EvMsleep 5; EvAppProcessEvents;
               EvThreadCount 1; EvElapsed 15]
              = pre ++ [EvThreadCount c])
          \/ (0 < c
              /\ 12 < time_of w_saturated (tick (worker_state 0 0))
                              (pre ++ [EvThreadCount c])
              /\ [EvTimerStart;
                  EvThreadCount 1; EvElapsed 0; EvMsleep 5; EvAppProcessEvents;
                  EvThreadCount 1; EvElapsed 5; EvMsleep 5; EvAppProcessEvents;
                  EvThreadCount 1; EvElapsed 10; EvMsleep 5; EvAppProcessEvents;
                  EvThreadCount 1; EvElapsed 15]
                 = pre ++ [EvThreadCount c;
                           EvElapsed (time_of w_saturated
                                              (tick (worker_state 0 0))
                                              (pre ++ [EvThreadCount c]))])))
  /\ (exists pre c,
         c = live_count w_draining (worker_state 0 0)
                        (tick (worker_state 0 0) + List.length pre)
         /\ true = (c =? 0)
         /\ ((c <= 0
              /\ [EvTimerStart; EvThreadCount 1; EvElapsed 0; EvMsleep 5;
                  EvAppProcessEvents; EvThreadCount 0]
                 = pre ++ [EvThreadCount c])
             \/ (0 < c
                 /\ 12 < time_of w_draining (tick (worker_state 0 0))
                                 (pre ++ [EvThreadCount c])
                 /\ [EvTimerStart; EvThreadCount 1; EvElapsed 0; EvMsleep 5;
                     EvAppProcessEvents; EvThreadCount 0]
                    = pre ++ [EvThreadCount c;
                              EvElapsed (time_of w_draining
                                                 (tick (worker_state 0 0))
                                                 (pre ++ [EvThreadCount c]))])))
  /\ live_count w_served (worker_state 0 0) (S (tick (worker_state 0 0))) = 0
  /\ (result (waitForAllDone w_served 100 1 (worker_state 0 0)) = Normal true
      /\ events (waitForAllDone w_served 100 1 (worker_state 0 0))
         = [EvTimerStart; EvThreadCount 0]).
Proof.
  split; [| split; [| split; [reflexivity |]]].
  - apply (proj2 (proj2 (proj2
             (proj1 (C9_waitForAllDone_polls_until_drained_or_timeout
                       w_saturated 12 (worker_state 0 0))
                    9%nat false
                    (mkState (mkGlobals 0 0) (mkThread 5 0 false) 15 15)
                    [EvTimerStart;
                     EvThreadCount 1; EvElapsed 0; EvMsleep 5; EvAppProcessEvents;
                     EvThreadCount 1; EvElapsed 5; EvMsleep 5; EvAppProcessEvents;
                     EvThreadCount 1; EvElapsed 10; EvMsleep 5; EvAppProcessEvents;
                     EvThreadCount 1; EvElapsed 15]
                    eq_refl)))).
  - apply (proj2 (proj2 (proj2
             (proj1 (C9_waitForAllDone_polls_until_drained_or_timeout
                       w_draining 12 (worker_state 0 0))
                    9%nat true
                    (mkState (mkGlobals 0 0) (mkThread 5 0 false) 6 5)
                    [EvTimerStart; EvThreadCount 1; EvElapsed 0; EvMsleep 5;
                     EvAppProcessEvents; EvThreadCount 0]
                    eq_refl)))).
  - apply (proj2 (proj2 (proj2 (C9_waitForAllDone_polls_until_drained_or_timeout
                                  w_served 100 (worker_state 0 0))))).
    + reflexivity.
    + apply Nat.lt_0_succ.
Defined.

Lemma C10_no_idle_abort_witness :
  keepAliveTimeout (glob (worker_state 0 0)) = 0
  /\ (forall n, w_canReadRequest w_silent n = false)
  /\ (forall n, w_state w_silent n = ConnectedState)
  /\ result (readRequest_loop w_silent 50 (worker_state 0 0)) = Running.
Proof.
  split; [reflexivity |]. split; [reflexivity |]. split; [reflexivity |].
  apply (proj2 (proj2 (C10_no_idle_abort_when_timeout_zero
                         w_silent 50 (worker_state 0 0) eq_refl))).
  - reflexivity.
  - reflexivity.
Defined.

(** * The rest of the worker *)

(** ** What run() leaves behind *)

Section Leaving.

Variable w : World.

Lemma socket_error_state s r s' tr :
  socket_error w s = (r, s', tr) ->
  r = Normal tt /\ tr = cleanup
  /\ socketDesc (self s') = 0 /\ httpSocket (self s') = false
  /\ frame s s'.
Proof.
  intros H. unfold socket_error in H.
  bind_prim H. do 3 bind_prim H. prim H.
  split; [reflexivity |]. split; [reflexivity |].
  split; [reflexivity |]. split; [reflexivity | frame_tac].
Qed.

Lemma socket_cleanup_state fuel s s' tr :
  socket_cleanup w fuel s = (Normal tt, s', tr) ->
  socketDesc (self s') = 0 /\ httpSocket (self s') = false.
Proof.
  unfold socket_cleanup. intros H. bind_call H as E.
  - apply socket_error_state in H. tauto.
  - destruct r; simpl in St; contradiction || discriminate.
Qed.

Lemma receive_end_state fuel s s' tr :
  receive_end w fuel s = (Normal tt, s', tr) ->
  socketDesc (self s') = 0 /\ httpSocket (self s') = false.
Proof.
  unfold receive_end. intros H. bind_prim H.
  eapply socket_cleanup_state; eauto.
Qed.

Lemma then_labels_state fuel body s s' tr :
  then_labels w fuel body s = (Normal tt, s', tr) ->
  socketDesc (self s') = 0 /\ httpSocket (self s') = false.
Proof.
  unfold then_labels. intros H.
  destruct (body s) as [[[[] | [ | | ] | e | ] s1] t1]; try discriminate.
  - destruct (receive_end w fuel s1) as [[r2 s2] t2] eqn:E.
    inversion H; subst. eapply receive_end_state; eauto.
  - destruct (receive_end w fuel s1) as [[r2 s2] t2] eqn:E.
    inversion H; subst. eapply receive_end_state; eauto.
  - destruct (socket_cleanup w fuel s1) as [[r2 s2] t2] eqn:E.
    inversion H; subst. eapply socket_cleanup_state; eauto.
  - destruct (socket_error w s1) as [[r2 s2] t2] eqn:E.
    inversion H; subst. apply socket_error_state in E. tauto.
Qed.

Lemma run_final_state fuel s s' tr :
  run w fuel s = (Normal tt, s', tr) ->
  socketDesc (self s') = 0 /\ httpSocket (self s') = false
  /\ maxThreads (self s') = maxThreads (self s)
  /\ glob s' = glob s.
Proof.
  intros H. pose proof (run_sound _ _ _ H) as (_ & K & C).
  unfold run, with_Counter in H.
  match type of H with
  | match ?body ?s0 with _ => _ end = _ =>
      destruct (body s0) as [[rb sb] tb] eqn:B
  end.
  destruct rb as [[] | l | e | ]; try discriminate.
  inversion H; subst. clear H.
  do 2 bind_prim B.
  pose proof (then_labels_state _ _ _ B) as [S1 S2].
  apply labelled_spec in B. destruct B as (fin & _ & _ & F).
  simpl in *. split; [exact S1 |]. split; [exact S2 |].
  split; [frame_tac |].
  destruct (glob s) as [tc kat] eqn:G. destruct F as [F _]. simpl in F.
  rewrite F. simpl. f_equal; [lia | rewrite G; reflexivity].
Qed.

End Leaving.

Section CleanupOnce.

Variables t m sid : Z.

Lemma served_not_cleanup reqs o sv :
  served t m sid reqs o sv -> all not_cleanup sv.
Proof. intros SV. served_cases SV; alphabet. Qed.

Lemma loop_not_cleanup r lp : loop_trace t m sid r lp -> all not_cleanup lp.
Proof.
  assert (I : forall o it, iter_trace t m sid o it -> all not_cleanup it).
  { intros o it I. inversion I as [polls P | polls P | polls reqs o' sv P SV];
      subst; try (apply served_not_cleanup in SV); alphabet. }
  induction 1; [constructor | eauto |]. apply all_app; eauto.
Qed.

Lemma closing_split fin d :
  closing_trace fin d ->
  exists d', all not_cleanup d' /\ d = d' ++ (if fin then cleanup else []).
Proof.
  intros C. inversion C; subst;
    match goal with
    | D : drain_trace _ _ ?x |- _ => exists x; apply all_drain in D
    end; (split; [alphabet | rewrite ?app_nil_r; reflexivity]).
Qed.

Lemma after_loop_split r fin tl :
  after_loop r fin tl ->
  exists pt, all not_cleanup pt /\ tl = pt ++ (if fin then cleanup else []).
Proof.
  unfold after_loop. intros A.
  destruct r as [[] | [ | | ] | [c | what] | ];
    repeat match goal with
    | K : exists _, _ |- _ => destruct K
    | K : _ /\ _ |- _ => destruct K
    end; subst;
    try match goal with
    | K : closing_trace _ _ |- _ =>
        apply closing_split in K; destruct K as (d' & A' & ->)
    end.
  - exists (EvCloseHttpSocket :: d'). split; [alphabet | reflexivity].
  - exists (EvCloseHttpSocket :: d'). split; [alphabet | reflexivity].
  - exists d'. split; [alphabet | reflexivity].
  - exists []. split; [alphabet | reflexivity].
  - exists (EvWriteResponse c fresh_header :: EvCloseHttpSocket :: d').
    split; [alphabet | reflexivity].
  - exists (EvWriteResponse InternalServerError fresh_header
              :: EvCloseHttpSocket :: d').
    split; [alphabet | reflexivity].
  - exists []. split; [alphabet | reflexivity].
Qed.

Lemma body_split fin b :
  body_trace t m sid fin b ->
  exists pre, all not_cleanup pre
              /\ b = EvNewHttpSocket :: pre ++ (if fin then cleanup else []).
Proof.
  intros BT. inversion BT as [sd err | sd rl lp fin' tl L A]; subst.
  - exists [EvSetSocketDescriptor sd false; EvEmitError err; EvTfClose sd].
    split; [alphabet | reflexivity].
  - apply loop_not_cleanup in L. apply after_loop_split in A.
    destruct A as (pt & A & ->).
    exists (EvSetSocketDescriptor sd true :: EvSetCurrentDatabaseContext true
              :: lp ++ pt).
    split; [alphabet |]. cbn [app]. rewrite <- app_assoc. reflexivity.
Qed.

End CleanupOnce.

(** X1.  When run() has returned, the worker holds no descriptor and no
    socket object, and the globals and the bound are what they were.  It has
    allocated one socket object, as the first thing after counting itself,
    and has run the common cleanup - release, unbinding of the database
    context, deferred deletion of the socket object - once, as the last
    thing before it stopped counting itself.  As long as run() has not
    returned, none of the cleanup has happened. *)
Theorem run_cleans_up_exactly_once (w : World) (fuel : nat) (s : State) :
  (forall s' tr,
      run w fuel s = (Normal tt, s', tr) ->
      socketDesc (self s') = 0 /\ httpSocket (self s') = false
      /\ maxThreads (self s') = maxThreads (self s)
      /\ glob s' = glob s
      /\ exists pre,
          tr = EvCounterInc :: EvNewHttpSocket :: pre ++ cleanup ++ [EvCounterDec]
          /\ all not_cleanup pre)
  /\ (result (run w fuel s) = Running ->
      exists pre,
        events (run w fuel s) = EvCounterInc :: EvNewHttpSocket :: pre
        /\ all not_cleanup pre).
Proof.
  split.
  - intros s' tr H. pose proof (run_final_state _ _ _ H) as (S1 & S2 & S3 & S4).
    do 4 (split; [assumption |]).
    apply run_sound in H. destruct H as (R & _).
    inversion R as [| b BT]; subst.
    apply body_split in BT. destruct BT as (pre & A & ->).
    exists pre. split; [| exact A]. cbn [app]. rewrite <- app_assoc. reflexivity.
  - intros H. pose proof (run_events_trace w fuel s) as R. rewrite H in R.
    inversion R as [b BT |]; subst.
    apply body_split in BT. destruct BT as (pre & A & ->).
    exists pre. rewrite app_nil_r. split; [reflexivity | exact A].
Qed.

(** ** The binding of the socket *)

Lemma run_starts w fuel s :
  exists rest,
    events (run w fuel s)
    = EvCounterInc :: EvNewHttpSocket
        :: EvSetSocketDescriptor (socketDesc (self s))
                                 (w_setSocketDescriptor w (S (tick s)))
        :: rest.
Proof.
  destruct (run w fuel s) as [[r s'] tr] eqn:H. simpl.
  unfold run, with_Counter in H.
  match type of H with
  | match ?body ?s0 with _ => _ end = _ =>
      destruct (body s0) as [[rb sb] tb] eqn:B
  end.
  assert (T : exists rest,
             tb = EvNewHttpSocket
                    :: EvSetSocketDescriptor (socketDesc (self s))
                         (w_setSocketDescriptor w (S (tick s)))
                    :: rest).
  { do 2 bind_prim B. unfold then_labels in B.
    match type of B with
    | match before_labels w fuel ?x with _ => _ end = _ =>
        destruct (before_labels w fuel x) as [[r1 s1] t1] eqn:E
    end.
    unfold before_labels in E. do 2 bind_prim E. simpl in B.
    destruct r1 as [[] | [ | | ] | e | ];
      repeat match type of B with
      | match ?c with _ => _ end = _ => destruct c as [[? ?] ?]
      end; inversion B; subst; eexists; reflexivity. }
  destruct T as (rest & ->).
  destruct rb; inversion H; subst; eexists; reflexivity.
Qed.

Section Binding.

Variables t m sid : Z.

Lemma served_not_binding reqs o sv :
  served t m sid reqs o sv -> all not_binding sv.
Proof. intros SV. served_cases SV; alphabet. Qed.

Lemma loop_not_binding r lp : loop_trace t m sid r lp -> all not_binding lp.
Proof.
  assert (I : forall o it, iter_trace t m sid o it -> all not_binding it).
  { intros o it I. inversion I as [polls P | polls P | polls reqs o' sv P SV];
      subst; try (apply served_not_binding in SV); alphabet. }
  induction 1; [constructor | eauto |]. apply all_app; eauto.
Qed.

Lemma after_loop_not_binding r fin tl :
  after_loop r fin tl -> all not_binding tl.
Proof. intros A. apply all_after_loop in A. alphabet. Qed.

End Binding.

(** X2.  run() binds the socket to the descriptor the worker holds, once.
    When that succeeds, run() never closes a raw descriptor and emits no
    error.  When it fails, run() emits the socket's error, closes that
    descriptor - whatever its value -, runs the common cleanup and returns:
    nothing is read, and the database context is never bound. *)
Theorem run_closes_raw_descriptor_only_when_unbound
        (w : World) (fuel : nat) (s : State) :
  forall sd ok,
    In (EvSetSocketDescriptor sd ok) (events (run w fuel s)) ->
    sd = socketDesc (self s)
    /\ if ok
       then all not_binding (skipn 3 (events (run w fuel s)))
       else exists err,
           events (run w fuel s)
           = [EvCounterInc; EvNewHttpSocket; EvSetSocketDescriptor sd false;
              EvEmitError err; EvTfClose sd;
              EvRelease; EvSetCurrentDatabaseContext false; EvDeleteLater;
              EvCounterDec].
Proof.
  intros sd ok I.
  destruct (run_starts w fuel s) as (rest & E).
  pose proof (run_events_trace w fuel s) as R.
  assert (G : forall fin b,
             body_trace (keepAliveTimeout (glob s)) (maxThreads (self s))
                        (w_socketId w) fin b ->
             events (run w fuel s) = EvCounterInc :: b ++ counter_dec fin ->
             sd = socketDesc (self s)
             /\ if ok
                then all not_binding (skipn 3 (events (run w fuel s)))
                else exists err,
                    events (run w fuel s)
                    = [EvCounterInc; EvNewHttpSocket;
                       EvSetSocketDescriptor sd false;
                       EvEmitError err; EvTfClose sd;
                       EvRelease; EvSetCurrentDatabaseContext false;
                       EvDeleteLater; EvCounterDec]).
  { intros fin b BT Eb. rewrite Eb in *.
    inversion BT as [sd' err | sd' rl lp fin' tl L A]; subst.
    - inversion E; subst. simpl in I.
      destruct I as [I | [I | [I | I]]]; try discriminate.
      + inversion I; subst. split; [reflexivity |]. exists err. reflexivity.
      + repeat (destruct I as [I | I]; [discriminate |]). destruct I.
    - inversion E; subst.
      apply loop_not_binding in L. apply after_loop_not_binding in A.
      assert (Q : all not_binding
                      (EvSetCurrentDatabaseContext true :: lp ++ tl ++ counter_dec fin)).
      { rewrite <- app_assoc in *. alphabet. }
      simpl in I. destruct I as [I | [I | [I | I]]]; try discriminate.
      + inversion I; subst. split; [reflexivity |].
        cbn [skipn app]. rewrite <- app_assoc. exact Q.
      + rewrite <- app_assoc in I. pose proof (all_In _ Q I). discriminate. }
  inversion R as [b BT Hr Ht | b BT Hr Ht].
  - rewrite Ht. apply (G false b BT). unfold counter_dec.
    rewrite app_nil_r. symmetry. exact Ht.
  - rewrite Ht. apply (G true b BT). symmetry. exact Ht.
Qed.

(** ** A worker counts itself *)


Section OwnCount.

Variable w : World.






End OwnCount.

Section Enforced.

Variables t m sid : Z.




End Enforced.


(** ** The descriptor over the life of a worker *)

Lemma to_int_small z : - 2 ^ 31 <= z < 2 ^ 31 -> to_int z = z.
Proof. intros H. unfold to_int. rewrite Z.mod_small by lia. lia. Qed.

Lemma to_int_range z : - 2 ^ 31 <= to_int z < 2 ^ 31.
Proof.
  unfold to_int. pose proof (Z.mod_pos_bound (z + 2 ^ 31) (2 ^ 32)). lia.
Qed.

Section Descriptors.

Variable w : World.

Lemma setSocketDescriptor_step socket s :
  exists s',
    TActionThread_setSocketDescriptor w socket s
    = (Normal tt, s',
       if socketDesc (self s) >? 0 then [EvTfClose (socketDesc (self s))] else [])
    /\ socketDesc (self s') = to_int socket
    /\ httpSocket (self s') = httpSocket (self s).
Proof.
  unfold TActionThread_setSocketDescriptor, bind, get, modify, tell, ret.
  destruct (socketDesc (self s) >? 0); eexists; split; try reflexivity;
    split; reflexivity.
Qed.

Lemma delete_without_socket s :
  httpSocket (self s) = false ->
  exists s',
    TActionThread_delete w s
    = (Normal tt, s',
       if socketDesc (self s) >? 0 then [EvTfClose (socketDesc (self s))] else []).
Proof.
  intros H. unfold TActionThread_delete, bind, get, tell, ret. rewrite H.
  destruct (socketDesc (self s) >? 0); eexists; reflexivity.
Qed.

Lemma descriptors_each sockets : forall s,
  httpSocket (self s) = false ->
  exists s',
    bind (setSocketDescriptor_each w sockets) (fun _ => TActionThread_delete w) s
    = (Normal tt, s',
       map EvTfClose
           (filter (fun z => z >? 0) (socketDesc (self s) :: map to_int sockets))).
Proof.
  induction sockets as [| socket rest IH]; intros s H.
  - destruct (delete_without_socket s H) as (s' & E).
    exists s'. unfold bind. simpl setSocketDescriptor_each. unfold ret.
    rewrite E. simpl. destruct (socketDesc (self s) >? 0); reflexivity.
  - destruct (setSocketDescriptor_step socket s) as (s1 & E1 & D1 & H1).
    destruct (IH s1) as (s' & E); [congruence |].
    exists s'. simpl setSocketDescriptor_each.
    unfold bind in *. rewrite E1.
    destruct (setSocketDescriptor_each w rest s1) as [[[[] | l | e | ] s2] t2];
      try discriminate.
    destruct (TActionThread_delete w s2) as [[r3 s3] t3].
    inversion E as [[Er Es Et]]. rewrite <- app_assoc, Et, D1.
    simpl. destruct (socketDesc (self s) >? 0); reflexivity.
Qed.

End Descriptors.

(** X4.  A worker that is given descriptors by setSocketDescriptor, one
    after the other, and is then destroyed without having run, closes every
    positive descriptor that it has held - the one it was constructed with,
    and each one it was given, as converted to int - exactly once, in the
    order in which it got them, and does nothing else.  A descriptor in the
    range of int is held unchanged. *)
Theorem descriptors_are_closed_exactly_once
        (w : World) (sockets : list Z) (s : State) :
  httpSocket (self s) = false ->
  events (bind (setSocketDescriptor_each w sockets)
               (fun _ => TActionThread_delete w) s)
  = map EvTfClose
        (filter (fun z => z >? 0) (socketDesc (self s) :: map to_int sockets))
  /\ result (bind (setSocketDescriptor_each w sockets)
                  (fun _ => TActionThread_delete w) s) = Normal tt
  /\ forall z, - 2 ^ 31 <= z < 2 ^ 31 -> to_int z = z.
Proof.
  intros H. destruct (descriptors_each w sockets s H) as (s' & E).
  rewrite E. split; [reflexivity |]. split; [reflexivity |].
  apply to_int_small.
Qed.

(** X5.  Once run() has returned, the destructor has nothing left to do: it
    neither deletes the socket object again nor closes a descriptor. *)
Theorem destructor_after_run_does_nothing
        (w : World) (fuel : nat) (s s' : State) (tr : Trace) :
  run w fuel s = (Normal tt, s', tr) ->
  TActionThread_delete w s' = (Normal tt, s', []).
Proof.
  intros H. apply run_final_state in H. destruct H as (D & S & _).
  unfold TActionThread_delete, bind, get, tell, ret.
  rewrite S. cbv beta iota. rewrite D. reflexivity.
Qed.

(** ** Reading a batch *)

Section Reading.

Variable w : World.

Lemma readRequest_loop_idle fuel : forall s r s' tr i post,
  readRequest_loop w fuel s = (r, s', tr) ->
  occ tr (EvIdleTime i) post ->
  0 < keepAliveTimeout (glob s)
  /\ (keepAliveTimeout (glob s) <= i -> post = [] /\ r = Normal tt)
  /\ (i < keepAliveTimeout (glob s) -> exists st rest, post = EvState st :: rest).
Proof.
  induction fuel as [| fuel IH]; intros s r s' tr i post H O; simpl in H.
  { prim H. destruct (occ_nil O). }
  bind_prim H. apply occ_cons in O. destruct O as [[K _] | O]; [discriminate |].
  case_if H; [prim H; destruct (occ_nil O) |].
  bind_prim H. bind_call H as E.
  - (* the idle test has been made *)
    case_if E.
    + bind_prim E. prim E. apply Z.gtb_lt in Heqb0.
      apply occ_cons in O. destruct O as [[K ->] | O].
      * inversion K; subst. split; [exact Heqb0 |]. case_if H.
        -- prim H. apply Z.geb_le in Heqb1.
           split; [auto | intros; lia].
        -- rewrite Z.geb_leb in Heqb1. apply Z.leb_gt in Heqb1.
           split; [intros; lia |]. intros _.
           bind_prim H. eauto.
      * case_if H; [prim H; destruct (occ_nil O) |].
        bind_prim H. apply occ_cons in O.
        destruct O as [[K _] | O]; [discriminate |].
        case_if H; [prim H; destruct (occ_nil O) |].
        bind_prim H. apply occ_cons in O.
        destruct O as [[K _] | O]; [discriminate |].
        eapply IH in H; [| exact O]. exact H.
    + prim E. simpl in H. bind_prim H.
      apply occ_cons in O. destruct O as [[K _] | O]; [discriminate |].
      case_if H; [prim H; destruct (occ_nil O) |].
      bind_prim H. apply occ_cons in O.
      destruct O as [[K _] | O]; [discriminate |].
      eapply IH in H; [| exact O]. exact H.
  - case_if E.
    + bind_prim E. prim E.
    + prim E.
Qed.

Lemma readRequest_loop_exits fuel : forall s s' tr,
  readRequest_loop w fuel s = (Normal tt, s', tr) ->
  (exists pre, tr = pre ++ [EvCanReadRequest true])
  \/ (exists pre i, tr = pre ++ [EvCanReadRequest false; EvIdleTime i]
                    /\ 0 < keepAliveTimeout (glob s) <= i)
  \/ (exists pre st, tr = pre ++ [EvState st] /\ st <> ConnectedState).
Proof.
  induction fuel as [| fuel IH]; intros s s' tr H; simpl in H; [discriminate |].
  bind_prim H. case_if H.
  { prim H. left. exists []. reflexivity. }
  bind_prim H.
  assert (G : forall pre0 t2,
             ((exists pre, t2 = pre ++ [EvCanReadRequest true])
              \/ (exists pre i, t2 = pre ++ [EvCanReadRequest false; EvIdleTime i]
                                /\ 0 < keepAliveTimeout (glob s) <= i)
              \/ (exists pre st, t2 = pre ++ [EvState st] /\ st <> ConnectedState)) ->
             (exists pre, pre0 ++ t2 = pre ++ [EvCanReadRequest true])
             \/ (exists pre i, pre0 ++ t2 = pre ++ [EvCanReadRequest false; EvIdleTime i]
                               /\ 0 < keepAliveTimeout (glob s) <= i)
             \/ (exists pre st, pre0 ++ t2 = pre ++ [EvState st]
                                /\ st <> ConnectedState)).
  { intros pre0 t2 [(pre & ->) | [(pre & i & -> & K) | (pre & st & -> & K)]].
    - left. exists (pre0 ++ pre). rewrite app_assoc. reflexivity.
    - right. left. exists (pre0 ++ pre), i. rewrite app_assoc. auto.
    - right. right. exists (pre0 ++ pre), st. rewrite app_assoc. auto. }
  bind_call H as E.
  2:{ case_if E; [bind_prim E; prim E | prim E]. }
  case_if E.
  - bind_prim E. prim E. apply Z.gtb_lt in Heqb0. case_if H.
    + prim H. apply Z.geb_le in Heqb1. right. left.
      exists [], (w_idleTime w (S (tick s))). split; [reflexivity | lia].
    + bind_prim H. case_if H.
      * prim H. right. right.
        eexists [_; _], _. split; [reflexivity |].
        intros K. rewrite K in Heqb2. discriminate.
      * bind_prim H. apply IH in H. simpl in H.
        apply (G [_; _; _; _] _ H).
  - prim E. simpl in H. bind_prim H. case_if H.
    + prim H. right. right.
      eexists [_], _. split; [reflexivity |].
      intros K. rewrite K in Heqb1. discriminate.
    + bind_prim H. apply IH in H. simpl in H.
      apply (G [_; _; _] _ H).
Qed.

End Reading.

Section ReadingWithLimit.

Variable w : World.

Lemma readRequest_loop_step_pos f s :
  0 < keepAliveTimeout (glob s) ->
  readRequest_loop w (S f) s =
  if w_canReadRequest w (tick s)
  then (Normal tt, advance w 0 s, [EvCanReadRequest true])
  else
    let i := w_idleTime w (S (tick s)) in
    if i >=? keepAliveTimeout (glob s)
    then (Normal tt, advance w 0 (advance w 0 s),
          [EvCanReadRequest false; EvIdleTime i])
    else
      let st := w_state w (S (S (tick s))) in
      if is_connected st then
        match readRequest_loop w f
                (advance w 0 (advance w 0 (advance w 0 (advance w 0 s)))) with
        | (r, s', tr) =>
            (r, s',
             EvCanReadRequest false :: EvIdleTime i :: EvState st
               :: EvWaitForReadyRead 200
                    (w_waitForReadyRead w (S (S (S (tick s)))))
               :: tr)
        end
      else (Normal tt, advance w 0 (advance w 0 (advance w 0 s)),
            [EvCanReadRequest false; EvIdleTime i; EvState st]).
Proof.
  intros T. cbn [readRequest_loop]. unfold bind at 1.
  unfold canReadRequest at 1, ask at 1. cbv zeta.
  destruct (w_canReadRequest w (tick s)); [reflexivity |].
  unfold bind at 1, get at 1. cbn [glob advance].
  apply Z.gtb_lt in T. rewrite T.
  unfold bind at 1. unfold bind at 1, idleTime at 1, ask at 1, ret at 1.
  cbn [tick advance].
  destruct (w_idleTime w (S (tick s)) >=? keepAliveTimeout (glob s));
    [reflexivity |].
  unfold bind at 1, socket_state at 1, ask at 1. cbn [tick advance].
  destruct (is_connected (w_state w (S (S (tick s))))); cbn [negb];
    [| reflexivity].
  unfold bind at 1, waitForReadyRead at 1, ask at 1. cbn [tick advance].
  destruct (readRequest_loop w f _) as [[r s'] tr]. reflexivity.
Qed.

Lemma readRequest_loop_returns (N : nat) f : forall s,
  0 < keepAliveTimeout (glob s) ->
  (forall k, (N <= k)%nat -> keepAliveTimeout (glob s) <= w_idleTime w k) ->
  (N <= tick s + S f)%nat ->
  result (readRequest_loop w (S f) s) = Normal tt.
Proof.
  induction f as [| f IH]; intros s T I B;
    rewrite readRequest_loop_step_pos by exact T; cbv zeta;
    destruct (w_canReadRequest w (tick s)); try reflexivity;
    destruct (_ >=? _) eqn:G; try reflexivity;
    rewrite Z.geb_leb in G; apply Z.leb_gt in G.
  - specialize (I (S (tick s))). lia.
  - destruct (is_connected _); [| reflexivity].
    assert (B' : (N <= S (tick s))%nat \/ (S (tick s) < N)%nat) by lia.
    destruct B' as [B' | B']; [specialize (I _ B'); lia |].
    specialize (IH (advance w 0 (advance w 0 (advance w 0 (advance w 0 s))))).
    destruct (readRequest_loop w (S f) _) as [[r s'] tr].
    apply IH; [exact T | exact I | simpl; lia].
Qed.

Lemma readRequest_returns_with_loop fuel s :
  result (readRequest_loop w fuel s) = Normal tt ->
  exists reqs, result (readRequest w fuel s) = Normal reqs.
Proof.
  unfold readRequest, bind at 1.
  destruct (readRequest_loop w fuel s) as [[r s1] t1].
  unfold result at 1. cbn [fst]. intros ->.
  unfold bind, canReadRequest, ask, tell, ret, socket_read. simpl.
  destruct (w_canReadRequest w (tick s1)); simpl; eexists; reflexivity.
Qed.

End ReadingWithLimit.

(** X6.  readRequest leaves the globals and the bound alone, throws nothing
    and jumps nowhere.  When it returns, it has in the end either found that
    no request can be read, aborted the socket and returned an empty batch,
    or found that a request can be read and returned what the socket read;
    all it did before was polling.  It never reads after an abort, and never
    aborts after a read. *)
Theorem readRequest_aborts_or_reads (w : World) (fuel : nat) (s : State) :
  forall r s' tr,
    readRequest w fuel s = (r, s', tr) ->
    frame s s'
    /\ match r with
       | Normal reqs =>
           exists polls,
             all is_poll polls
             /\ ((reqs = [] /\ tr = polls ++ [EvCanReadRequest false; EvAbort])
                 \/ tr = polls ++ [EvCanReadRequest true; EvRead reqs])
       | Running => all is_poll tr
       | Goto _ | Throw _ => False
       end.
Proof.
  intros r s' tr H. apply readRequest_spec in H. destruct H as [RT F].
  split; [exact F |].
  inversion RT; subst; eauto.
Qed.

(** X7.  The polling loop of readRequest asks for the idle time only when
    the keep-alive timeout is positive.  An idle time that has reached the
    timeout ends the loop at once, before the state of the socket is looked
    at and without a further wait; a smaller one is followed by a look at
    the state.  When the loop ends, the last thing it saw is that a request
    can be read, or an idle time that has reached the positive timeout, or a
    socket that is not connected. *)
Theorem readRequest_loop_gives_up_when_idle
        (w : World) (fuel : nat) (s : State) :
  (forall r s' tr i post,
      readRequest_loop w fuel s = (r, s', tr) ->
      occ tr (EvIdleTime i) post ->
      0 < keepAliveTimeout (glob s)
      /\ (keepAliveTimeout (glob s) <= i -> post = [] /\ r = Normal tt)
      /\ (i < keepAliveTimeout (glob s) ->
          exists st rest, post = EvState st :: rest))
  /\ (forall s' tr,
         readRequest_loop w fuel s = (Normal tt, s', tr) ->
         (exists pre, tr = pre ++ [EvCanReadRequest true])
         \/ (exists pre i, tr = pre ++ [EvCanReadRequest false; EvIdleTime i]
                           /\ 0 < keepAliveTimeout (glob s) <= i)
         \/ (exists pre st, tr = pre ++ [EvState st] /\ st <> ConnectedState)).
Proof.
  split.
  - intros r s' tr i post. apply readRequest_loop_idle.
  - intros s' tr. apply readRequest_loop_exits.
Qed.

(** X8.  With a positive keep-alive timeout readRequest cannot wait for
    ever on a socket that stays idle: if from the N-th interaction on the
    idle time has reached the timeout, readRequest returns within N + 1
    turns of its loop. *)
Theorem readRequest_returns_on_idle_socket
        (w : World) (N : nat) (s : State) :
  0 < keepAliveTimeout (glob s) ->
  (forall k, (N <= k)%nat -> keepAliveTimeout (glob s) <= w_idleTime w k) ->
  forall fuel, (N < fuel)%nat ->
  exists reqs, result (readRequest w fuel s) = Normal reqs.
Proof.
  intros T I fuel B. apply readRequest_returns_with_loop.
  destruct fuel as [| f]; [lia |].
  apply readRequest_loop_returns with (N := N); [exact T | exact I | lia].
Qed.

Section Waiting.

Variable w : World.

Lemma is_connected_true st : is_connected st = true -> st = ConnectedState.
Proof. destruct st; simpl; intros H; try discriminate; reflexivity. Qed.

Lemma is_connected_false st : is_connected st = false -> st <> ConnectedState.
Proof. intros H K. rewrite K in H. discriminate. Qed.

Lemma keepalive_exit_app t r pre0 tr :
  keepalive_exit t r tr -> keepalive_exit t r (pre0 ++ tr).
Proof.
  destruct r as [[] | l | e |]; simpl; auto.
  - intros (pre & ->). exists (pre0 ++ pre). rewrite app_assoc. reflexivity.
  - intros (L & [(pre & st & -> & K) | (pre & i & -> & K)]); (split; [exact L |]).
    + left. exists (pre0 ++ pre), st. rewrite app_assoc. auto.
    + right. exists (pre0 ++ pre), i. rewrite app_assoc. auto.
Qed.

Lemma keepalive_wait_exits budget fuel : forall s r s' tr,
  keepalive_wait w budget fuel s = (r, s', tr) ->
  keepalive_exit (keepAliveTimeout (glob s)) r tr.
Proof.
  induction fuel as [| fuel IH]; intros s r s' tr H; simpl in H.
  { prim H. exact I. }
  bind_prim H. case_if H.
  { prim H. exists []. reflexivity. }
  bind_prim H. case_if H.
  { prim H. split; [reflexivity |]. left. eexists [], _.
    split; [reflexivity |].
    apply is_connected_false.
    destruct (is_connected _); [discriminate | reflexivity]. }
  assert (C : w_state w (S (tick s)) = ConnectedState).
  { apply is_connected_true. destruct (is_connected _); [reflexivity | discriminate]. }
  do 2 bind_prim H. case_if H.
  { prim H. split; [reflexivity |]. right. eexists [], _.
    cbn [tick advance] in *. rewrite C.
    split; [reflexivity |]. apply Z.geb_le. assumption. }
  bind_call H as E.
  - apply processEvents_loop_spec in E. destruct E as [_ F].
    apply IH in H.
    assert (G : keepAliveTimeout (glob s0) = keepAliveTimeout (glob s))
      by (clear - F; frame_tac).
    rewrite G in H.
    match goal with
    | |- keepalive_exit _ _ (?a :: ?b :: ?c :: _) =>
        apply keepalive_exit_app with (pre0 := [a; b; c] ++ t) in H
    end.
    rewrite <- app_assoc in H. exact H.
  - apply processEvents_loop_spec in E. destruct E as [D _].
    inversion D; subst; simpl in St; try contradiction.
    destruct r; try contradiction. exact I.
Qed.

End Waiting.

(** X9.  The keep-alive wait changes neither the globals nor the bound,
    throws nothing, and jumps nowhere but to receive_end.  It returns only
    right after a wait of 5 ms that found data.  It jumps to receive_end
    only right after a wait of 5 ms that found none, on a socket that is no
    longer connected, or on a connected one whose idle time has reached the
    keep-alive timeout; here the state is looked at before the idle time. *)
Theorem keepalive_wait_ends_on_data_disconnect_or_idle
        (w : World) (budget fuel : nat) (s : State) :
  forall r s' tr,
    keepalive_wait w budget fuel s = (r, s', tr) ->
    frame s s'
    /\ all is_keepalive tr
    /\ match r with
       | Normal _ => exists pre, tr = pre ++ [EvWaitForReadyRead 5 true]
       | Goto l =>
           l = L_receive_end
           /\ ((exists pre st,
                   tr = pre ++ [EvWaitForReadyRead 5 false; EvState st]
                   /\ st <> ConnectedState)
               \/ (exists pre i,
                      tr = pre ++ [EvWaitForReadyRead 5 false;
                                   EvState ConnectedState; EvIdleTime i]
                      /\ keepAliveTimeout (glob s) <= i))
       | Throw _ => False
       | Running => True
       end.
Proof.
  intros r s' tr H.
  pose proof (keepalive_wait_all _ _ _ _ H) as (A & _ & F).
  split3; [exact F | exact A |].
  apply keepalive_wait_exits in H. exact H.
Qed.

(** X10.  handshakeForWebSocket changes nothing of the worker.  A WebSocket
    it builds is built for the header it was given and the peer address of
    the HTTP socket, on a descriptor that it has got by duplicating the
    descriptor of the HTTP socket.  It asks the session store only for the
    session cookie of the header, and never with an empty id.  When it
    starts the opening worker it answers true, and the session it passes is
    the default one when the header has no session cookie, and the one the
    store has found otherwise. *)
Theorem handshake_opens_on_a_duplicate
        (w : World) (hdr : THttpRequestHeader) (s : State) :
  forall r s' tr,
    handshakeForWebSocket w hdr s = (r, s', tr) ->
    glob s' = glob s /\ self s' = self s
    /\ (forall sd peer h,
           In (EvNewWebSocket sd peer h) tr ->
           h = hdr /\ peer = w_peerAddress w
           /\ In (EvDuplicateSocket (w_socketDescriptor w) sd) tr)
    /\ (forall id session,
           In (EvFindSession id session) tr ->
           id = cookie hdr (w_sessionName w) /\ id <> EmptyString
           /\ In (EvStartWorkerForOpening session) tr)
    /\ (forall session,
           In (EvStartWorkerForOpening session) tr ->
           r = Normal true
           /\ (cookie hdr (w_sessionName w) = EmptyString ->
               session = empty_session)
           /\ (cookie hdr (w_sessionName w) <> EmptyString ->
               In (EvFindSession (cookie hdr (w_sessionName w)) session) tr)).
Proof.
  intros r s' tr H. unfold handshakeForWebSocket in H.
  bind_prim H.
  destruct (w_searchEndpoint w (tick s) hdr); simpl in H.
  2:{ prim H. repeat split; try reflexivity;
      intros; exfalso; simpl in *; intuition discriminate. }
  do 4 bind_prim H.
  destruct (String.eqb (cookie hdr (w_sessionName w)) EmptyString) eqn:C;
    simpl in H; bind_prim H; bind_prim H; prim H.
  - apply String.eqb_eq in C.
    split; [reflexivity |]. split; [reflexivity |]. split3.
    + intros sd peer h I. simpl in I.
      repeat (destruct I as [I | I]; try discriminate); try contradiction.
      inversion I; subst. simpl. auto.
    + intros id session I. simpl in I.
      repeat (destruct I as [I | I]; try discriminate); contradiction.
    + intros session I. simpl in I.
      repeat (destruct I as [I | I]; try discriminate); try contradiction.
      inversion I; subst. split3; [reflexivity | reflexivity | congruence].
  - apply String.eqb_neq in C.
    split; [reflexivity |]. split; [reflexivity |]. split3.
    + intros sd peer h I. simpl in I.
      repeat (destruct I as [I | I]; try discriminate); try contradiction.
      inversion I; subst. simpl. auto.
    + intros id session I. simpl in I.
      repeat (destruct I as [I | I]; try discriminate); try contradiction.
      inversion I; subst. split3; [reflexivity | exact C |].
      simpl. auto 10.
    + intros session I. simpl in I.
      repeat (destruct I as [I | I]; try discriminate); try contradiction.
      inversion I; subst. split3; [reflexivity | congruence |].
      intros _. simpl. auto 10.
Qed.

Section Sleeping.

Variable w : World.
Variable msec : Z.

Lemma waitForAllDone_loop_sleeps start f : forall s r s' tr,
  waitForAllDone_loop w msec start f s = (r, s', tr) ->
  start <= clock s ->
  5 * Z.of_nat (sleeps tr) <= Z.max 0 (msec - (clock s - start) + 5)
  /\ clock s + 5 * Z.of_nat (sleeps tr) <= clock s'
  /\ glob s' = glob s /\ self s' = self s.
Proof.
  induction f as [| f IH]; intros s r s' tr H B.
  { inversion H; subst. unfold sleeps. simpl. repeat split; lia. }
  rewrite waitForAllDone_loop_step in H. cbv zeta in H.
  destruct (_ >? 0) in H.
  - destruct (_ >? msec) eqn:He in H.
    + inversion H; subst. unfold sleeps, advance. simpl.
      repeat split; lia.
    + destruct (waitForAllDone_loop w msec start f _) as [[r1 s1] t1] eqn:E.
      inversion H; subst. apply IH in E.
      * rewrite Z.gtb_ltb in He. apply Z.ltb_ge in He.
        unfold sleeps, advance in *. cbn [clock glob self tick] in *.
        cbn [filter is_msleep List.length].
        destruct E as (E1 & E2 & E3 & E4).
        rewrite Nat2Z.inj_succ. split3; [lia | lia | auto].
      * unfold advance. cbn [clock]. lia.
  - inversion H; subst. unfold sleeps, advance. simpl. repeat split; lia.
Qed.

End Sleeping.

(** X11.  However a call of waitForAllDone(msec) ends, and also while it is
    still polling, it has slept 5 ms at most (msec + 5) / 5 times, and not
    at all when msec is negative; the time it has taken is at least the time
    it has slept; and it has changed neither the globals nor a worker. *)
Theorem waitForAllDone_sleeps_are_bounded (w : World) (msec : Z) (s : State) :
  forall fuel r s' tr,
    waitForAllDone w msec fuel s = (r, s', tr) ->
    5 * Z.of_nat (sleeps tr) <= Z.max 0 (msec + 5)
    /\ (msec < 0 -> sleeps tr = 0%nat)
    /\ clock s + 5 * Z.of_nat (sleeps tr) <= clock s'
    /\ glob s' = glob s /\ self s' = self s.
Proof.
  intros fuel r s' tr H. unfold waitForAllDone in H.
  bind_prim H.
  assert (G : forall r0 s0 t0,
             waitForAllDone_loop w msec (clock s) fuel (advance w 0 s)
             = (r0, s0, t0) ->
             5 * Z.of_nat (sleeps (EvTimerStart :: t0)) <= Z.max 0 (msec + 5)
             /\ (msec < 0 -> sleeps (EvTimerStart :: t0) = 0%nat)
             /\ clock s + 5 * Z.of_nat (sleeps (EvTimerStart :: t0)) <= clock s0
             /\ glob s0 = glob s /\ self s0 = self s).
  { intros r0 s0 t0 E. apply waitForAllDone_loop_sleeps in E.
    - unfold advance in E. cbn [clock glob self] in E.
      change (sleeps (EvTimerStart :: t0)) with (sleeps t0).
      destruct E as (E1 & E2 & E3 & E4).
      split; [lia |]. split; [lia |]. split; [lia | auto].
    - unfold advance. cbn [clock]. lia. }
  bind_call H as E.
  - prim H. rewrite app_nil_r. apply (G _ _ _ E).
  - apply (G _ _ _ E).
Qed.

(** X12.  writeResponse and the waits of the worker go by the same
    timeout.  With a timeout that is not positive the header is written as
    it was given.  Whenever readRequest applies the idle limit, and, the
    timeout being resolved, whenever run() waits for a further request on
    the connection, a response written by the worker announces Keep-Alive;
    and what is written is the header after that change. *)
Theorem keepalive_header_goes_with_the_waits
        (Body : Type)
        (setRawHeader : string -> string -> THttpResponseHeader
                        -> THttpResponseHeader)
        (socket_write : THttpResponseHeader -> Body -> Z)
        (w : World) (fuel : nat) (s : State)
        (hdr : THttpResponseHeader) (body : Body) :
  let announced := setRawHeader "Connection" "Keep-Alive" hdr in
  let written :=
    TActionThread_writeResponse setRawHeader socket_write (glob s) hdr body in
  (keepAliveTimeout (glob s) <= 0 -> written = (hdr, socket_write hdr body))
  /\ (forall i, In (EvIdleTime i) (events (readRequest_loop w fuel s)) ->
                written = (announced, socket_write announced body))
  /\ (0 <= keepAliveTimeout (glob s) ->
      forall ready,
        In (EvWaitForReadyRead 5 ready) (events (run w fuel s)) ->
        written = (announced, socket_write announced body)).
Proof.
  cbv zeta. unfold TActionThread_writeResponse. split3.
  - intros T. destruct (Z.gtb_spec (keepAliveTimeout (glob s)) 0); [lia |].
    reflexivity.
  - intros i I. apply in_split in I. destruct I as (pre & post & I).
    destruct (readRequest_loop w fuel s) as [[r s'] tr] eqn:E.
    simpl in I. subst tr.
    assert (O : occ (pre ++ EvIdleTime i :: post) (EvIdleTime i) post)
      by (exists pre; reflexivity).
    eapply readRequest_loop_idle in E; [| exact O]. destruct E as [T _].
    apply Z.gtb_lt in T. rewrite T. reflexivity.
  - intros T ready I.
    destruct (Z.eq_dec (keepAliveTimeout (glob s)) 0) as [Z0 | Z0].
    + exfalso. pose proof (run_events_trace w fuel s) as R.
      rewrite Z0 in R. apply run_t0 in R.
      pose proof (all_In _ R I) as K. discriminate.
    + destruct (Z.gtb_spec (keepAliveTimeout (glob s)) 0); [| lia].
      reflexivity.
Qed.

Section InOrder.

Variables t m sid : Z.

Lemma quiet_in_batch_order q : all no_dispatch_ev q ->
  forall cur tl, in_batch_order sid cur tl -> in_batch_order sid cur (q ++ tl).
Proof.
  induction 1 as [| e q E A IH]; intros cur tl H; [exact H |].
  destruct e; try discriminate; simpl; auto.
Qed.

Lemma execs_in_batch_order reqs : forall more tl,
  in_batch_order sid more tl ->
  in_batch_order sid (reqs ++ more) (execs_ok sid reqs ++ tl).
Proof.
  induction reqs as [| req reqs IH]; intros more tl H; [exact H |].
  simpl. auto.
Qed.

Lemma served_in_batch_order reqs o sv :
  served t m sid reqs o sv ->
  forall tl, (forall cur, in_batch_order sid cur tl) ->
  in_batch_order sid reqs (sv ++ tl).
Proof.
  intros SV tl F.
  assert (Q : forall q cur, all no_dispatch_ev q ->
                            in_batch_order sid cur (q ++ tl)).
  { intros q cur A. apply quiet_in_batch_order; auto. }
  assert (X : forall l q, all no_dispatch_ev q ->
                in_batch_order sid l (execs_ok sid l ++ q ++ tl)).
  { intros l q A. rewrite <- (app_nil_r l) at 1.
    apply execs_in_batch_order. apply Q. exact A. }
  served_cases SV; norm_trace.
  - apply F.
  - apply F.
  - apply (Q [_]). alphabet.
  - apply (Q (_ :: _)). alphabet.
  - match goal with K : _ :: _ = _ ++ _ :: _ |- _ => rewrite K end.
    apply execs_in_batch_order. simpl. repeat split. apply F.
  - apply (X _ []). constructor.
  - apply (X _ [_]). alphabet.
  - apply (X _ (_ :: _ :: _)). alphabet.
  - apply (X _ (_ :: _ :: _)). alphabet.
Qed.

Lemma iter_in_batch_order o it :
  iter_trace t m sid o it ->
  forall tl, (forall cur, in_batch_order sid cur tl) ->
  forall cur, in_batch_order sid cur (it ++ tl).
Proof.
  intros I tl F cur.
  inversion I as [polls P | polls P | polls reqs o' sv P SV]; subst.
  - apply quiet_in_batch_order; [alphabet | apply F].
  - rewrite <- app_assoc. apply quiet_in_batch_order; [alphabet |].
    simpl. apply F.
  - rewrite <- app_assoc. apply quiet_in_batch_order; [alphabet |].
    simpl. apply served_in_batch_order with (o := o); assumption.
Qed.

Lemma loop_in_batch_order r lp :
  loop_trace t m sid r lp ->
  forall tl, (forall cur, in_batch_order sid cur tl) ->
  forall cur, in_batch_order sid cur (lp ++ tl).
Proof.
  induction 1 as [| r it I | r it lp I L IH]; intros tl F cur.
  - apply F.
  - eapply iter_in_batch_order; eauto.
  - rewrite <- app_assoc. eapply iter_in_batch_order; eauto.
Qed.

Lemma run_in_batch_order r tr :
  run_trace t m sid r tr -> forall cur, in_batch_order sid cur tr.
Proof.
  assert (B : forall fin b,
             body_trace t m sid fin b ->
             forall cur, in_batch_order sid cur (b ++ counter_dec fin)).
  { intros fin b BT cur.
    inversion BT as [sd err | sd rl lp fin' tl L A]; subst.
    - simpl. exact I.
    - apply all_after_loop in A. simpl. rewrite <- app_assoc.
      eapply loop_in_batch_order; [exact L |].
      intros cur'. rewrite <- (app_nil_r (tl ++ counter_dec fin)).
      apply quiet_in_batch_order; [| exact I].
      pose proof (all_counter_dec fin). alphabet. }
  intros R cur. inversion R as [b BT | b BT]; subst; simpl.
  - rewrite <- (app_nil_r b). apply (B false b BT).
  - apply (B true b BT).
Qed.

Lemma in_batch_order_In tr : forall cur req sid' o,
  in_batch_order sid cur tr ->
  In (EvExecute req sid' o) tr ->
  sid' = sid
  /\ (In req cur \/ exists reqs, In (EvRead reqs) tr /\ In req reqs).
Proof.
  induction tr as [| e tr IH]; intros cur req sid' o H I; [destruct I |].
  destruct I as [-> | I].
  - simpl in H. destruct cur as [| first cur']; [destruct H |].
    destruct H as (-> & -> & _). split; [reflexivity |]. left. left. reflexivity.
  - destruct e; simpl in H;
      try (destruct (IH _ _ _ _ H I) as [E [K | (reqs & K1 & K2)]];
           (split; [exact E |]);
           [left; exact K | right; exists reqs; split; [right; exact K1 | exact K2]]).
    + destruct (IH _ _ _ _ H I) as [E [K | (reqs' & K1 & K2)]];
        (split; [exact E |]); right.
      * exists reqs. split; [left; reflexivity | exact K].
      * exists reqs'. split; [right; exact K1 | exact K2].
    + destruct cur as [| first cur']; [destruct H |].
      destruct H as (_ & _ & H).
      destruct (IH _ _ _ _ H I) as [E [K | (reqs & K1 & K2)]];
        (split; [exact E |]).
      * left. right. exact K.
      * right. exists reqs. split; [right; exact K1 | exact K2].
Qed.

End InOrder.

(** X13.  run() calls the dispatcher only for what it has read: every call
    is made with the id of the worker's socket and for the first request of
    the batch read last that has not been dispatched yet.  So no call is
    made before a batch has been read, no request is dispatched twice or
    out of turn, and every request that is dispatched is one of a batch
    that the socket has read. *)
Theorem run_dispatches_only_what_it_read (w : World) (fuel : nat) (s : State) :
  in_batch_order (w_socketId w) [] (events (run w fuel s))
  /\ forall req sid o,
      In (EvExecute req sid o) (events (run w fuel s)) ->
      sid = w_socketId w
      /\ exists reqs, In (EvRead reqs) (events (run w fuel s)) /\ In req reqs.
Proof.
  pose proof (run_in_batch_order (run_events_trace w fuel s) []) as H.
  split; [exact H |].
  intros req sid o I.
  eapply in_batch_order_In in I; [| exact H].
  destruct I as [E [[] | K]]. auto.
Qed.

Section Closing.

Variables t m sid : Z.

Lemma served_not_close reqs o sv :
  served t m sid reqs o sv -> all not_close sv /\ all not_abort sv.
Proof. intros SV. served_cases SV; split; alphabet. Qed.

Lemma iter_not_close o it : iter_trace t m sid o it -> all not_close it.
Proof.
  intros I. inversion I as [polls P | polls P | polls reqs o' sv P SV]; subst.
  - alphabet.
  - alphabet.
  - apply served_not_close in SV. destruct SV as [A _]. alphabet.
Qed.

Lemma loop_not_close r lp : loop_trace t m sid r lp -> all not_close lp.
Proof.
  induction 1 as [| r it I | r it lp I L IH].
  - constructor.
  - eapply iter_not_close; eauto.
  - apply all_app; [eapply iter_not_close; eauto | exact IH].
Qed.

Lemma iter_abort_occ o it post :
  iter_trace t m sid o it -> occ it EvAbort post ->
  post = [] /\ o = Some (Normal tt).
Proof.
  intros I H. inversion I as [polls P | polls P | polls reqs o' sv P SV]; subst.
  - not_there.
  - occ_cases; try not_there; subst; try discriminate. auto.
  - apply served_not_close in SV. destruct SV as [_ A].
    occ_cases; try not_there; subst; discriminate.
Qed.

Lemma loop_abort_occ r lp :
  loop_trace t m sid r lp ->
  forall post, occ lp EvAbort post -> post = [] /\ r = Normal tt.
Proof.
  induction 1 as [| r it I | r it lp I L IH]; intros post H.
  - destruct (occ_nil H).
  - destruct (iter_abort_occ I H) as [-> E]. inversion E. auto.
  - apply occ_app in H. destruct H as [(q & H & ->) | H].
    + destruct (iter_abort_occ I H) as [_ E]. discriminate.
    + apply IH. exact H.
Qed.

Lemma after_loop_close_occ r fin tl post :
  after_loop r fin tl ->
  occ (tl ++ counter_dec fin) EvCloseHttpSocket post ->
  all is_teardown post.
Proof.
  intros A H. pose proof (all_counter_dec fin) as D.
  unfold after_loop in A.
  destruct r as [[] | [ | | ] | [c | what] | ];
    repeat match goal with
           | K : exists _, _ |- _ => destruct K as (? & K)
           | K : _ /\ _ |- _ => destruct K as [? K]
           end; subst;
    try match goal with
        | C : closing_trace _ _ |- _ => pose proof (all_closing C)
        end;
    pose proof all_cleanup;
    occ_cases; subst; try discriminate; try not_there;
    apply all_app; assumption.
Qed.

Lemma body_close_occ fin b post :
  body_trace t m sid fin b ->
  occ (b ++ counter_dec fin) EvCloseHttpSocket post ->
  all is_teardown post.
Proof.
  intros BT H. inversion BT as [sd err | sd rl lp fin' tl L A]; subst.
  - pose proof all_cleanup. pose proof (all_counter_dec true).
    occ_cases; subst; try discriminate; not_there.
  - cbn [app] in H.
    do 3 (apply occ_cons in H; destruct H as [[K _] | H]; [discriminate |]).
    rewrite <- app_assoc in H.
    apply occ_app in H. destruct H as [(q & H & ->) | H].
    + apply loop_not_close in L. not_there.
    + eapply after_loop_close_occ; eauto.
Qed.

Lemma body_abort_occ fin b post :
  body_trace t m sid fin b ->
  occ (b ++ counter_dec fin) EvAbort post ->
  closes post.
Proof.
  intros BT H. inversion BT as [sd err | sd rl lp fin' tl L A]; subst.
  - pose proof all_cleanup. pose proof (all_counter_dec true).
    occ_cases; subst; try discriminate; not_there.
  - cbn [app] in H.
    do 3 (apply occ_cons in H; destruct H as [[K _] | H]; [discriminate |]).
    rewrite <- app_assoc in H.
    apply occ_app in H. destruct H as [(q & H & ->) | H].
    + destruct (loop_abort_occ L H) as [-> ->]. simpl in A.
      destruct A as (d & -> & C). exists (d ++ counter_dec fin).
      split; [reflexivity | apply closes_then_teardown; exact C].
    + exfalso. apply all_after_loop in A.
      pose proof (all_counter_dec fin).
      occ_cases; not_there.
Qed.

End Closing.

(** X14.  run() closes the HTTP socket at most once, and once it has closed
    it, it does nothing more with it: only the draining of the event queue
    and the common cleanup follow.  When readRequest has aborted the socket,
    the very next thing run() does is to close it. *)
Theorem run_closes_last_and_right_after_an_abort
        (w : World) (fuel : nat) (s : State) :
  (forall post,
      occ (events (run w fuel s)) EvCloseHttpSocket post ->
      all is_teardown post)
  /\ (forall post,
         occ (events (run w fuel s)) EvAbort post ->
         exists d, post = EvCloseHttpSocket :: d /\ all is_teardown d).
Proof.
  pose proof (run_events_trace w fuel s) as R.
  split; intros post H;
    inversion R as [b BT Er Et | b BT Er Et]; rewrite <- Et in H;
    apply occ_cons in H; destruct H as [[K _] | H]; try discriminate.
  - rewrite <- (app_nil_r b) in H. eapply body_close_occ with (fin := false); eauto.
  - eapply body_close_occ with (fin := true); eauto.
  - rewrite <- (app_nil_r b) in H.
    eapply body_abort_occ with (fin := false); eauto.
  - eapply body_abort_occ with (fin := true); eauto.
Qed.

(** ** The test for an upgrade *)

Lemma prefix_app (p s : string) :
  String.prefix p s = true <-> exists b, s = (p ++ b)%string.
Proof.
  revert s. induction p as [| c p IH]; intros s.
  - destruct s; simpl; (split; [intros _; eexists; reflexivity | reflexivity]).
  - destruct s as [| c' s]; simpl.
    + split; [discriminate | intros [b H]; discriminate].
    + destruct (ascii_dec c c') as [-> | N].
      * rewrite IH. split; intros [b H]; exists b; [rewrite H | inversion H];
          reflexivity.
      * split; [discriminate |]. intros [b H]. inversion H. congruence.
Qed.

Lemma contains_app (s sub : string) :
  contains s sub = true <-> exists a b, s = (a ++ sub ++ b)%string.
Proof.
  induction s as [| c s IH]; cbn [contains].
  - rewrite orb_false_r. rewrite prefix_app. split.
    + intros [b H]. exists EmptyString, b. exact H.
    + intros (a & b & H). destruct a as [| c a]; [| discriminate].
      exists b. exact H.
  - rewrite orb_true_iff, prefix_app, IH. split.
    + intros [[b H] | (a & b & H)].
      * exists EmptyString, b. exact H.
      * exists (String c a), b. simpl. rewrite H. reflexivity.
    + intros (a & b & H). destruct a as [| c' a].
      * left. exists b. exact H.
      * right. exists a, b. inversion H. reflexivity.
Qed.

Lemma toLower_app (a b : string) :
  toLower (a ++ b) = (toLower a ++ toLower b)%string.
Proof. induction a as [| c a IH]; simpl; [| rewrite IH]; reflexivity. Qed.

Lemma toLower_split (x : string) : forall h y,
  toLower h = (x ++ y)%string ->
  exists a b, h = (a ++ b)%string /\ toLower a = x /\ toLower b = y.
Proof.
  induction x as [| c x IH]; intros h y H.
  - exists EmptyString, h. auto.
  - destruct h as [| c' h]; [discriminate |]. simpl in H. inversion H.
    destruct (IH _ _ H2) as (a & b & -> & <- & <-).
    exists (String c' a), b. auto.
Qed.

(** X15.  The test that run() makes on the first request of a batch ignores
    the case of the letters and the place in the header: the request asks
    for an upgrade exactly when its Connection header has a part that reads
    "upgrade" once its capitals are made small.  The Upgrade header, by
    contrast, must read "websocket" as a whole. *)
Theorem upgrade_test_ignores_case_and_place (req : THttpRequest) :
  (wants_upgrade req = true <->
   exists a u b,
     rawHeader (header req) "Connection" = (a ++ u ++ b)%string
     /\ toLower u = "upgrade")
  /\ (wants_websocket req = true <->
      toLower (rawHeader (header req) "Upgrade") = "websocket")
  /\ (forall a b,
         rawHeader (header req) "Upgrade" = (a ++ "websocket" ++ b)%string ->
         wants_websocket req = true -> a = EmptyString /\ b = EmptyString).
Proof.
  unfold wants_upgrade, wants_websocket. split3.
  - rewrite contains_app. split.
    + intros (a' & b' & H).
      apply toLower_split in H. destruct H as (a & ub & -> & <- & H).
      apply toLower_split in H. destruct H as (u & b & -> & H & <-).
      exists a, u, b. auto.
    + intros (a & u & b & -> & H).
      exists (toLower a), (toLower b).
      rewrite !toLower_app, H. reflexivity.
  - apply String.eqb_eq.
  - intros a b H E. apply String.eqb_eq in E. rewrite H in E.
    rewrite !toLower_app in E.
    assert (L : forall x, String.length (toLower x) = String.length x).
    { induction x as [| c x IH]; simpl; [| rewrite IH]; reflexivity. }
    assert (A : forall x y,
               String.length (x ++ y) = (String.length x + String.length y)%nat).
    { induction x as [| c x IH]; intros y; simpl; [| rewrite IH]; reflexivity. }
    apply (f_equal String.length) in E.
    rewrite !A, !L in E. simpl in E.
    destruct a, b; simpl in E; try (exfalso; lia). auto.
Qed.

(** ** A connection on which nothing arrives any more *)

Section Liveness.

Variable w : World.
Variable N : nat.
Variable g : Globals.

Hypothesis Tpos : 0 < keepAliveTimeout g.
Hypothesis no_data : forall n, (N <= n)%nat -> w_waitForReadyRead w n = false.
Hypothesis idle : forall n, (N <= n)%nat -> keepAliveTimeout g <= w_idleTime w n.
Hypothesis no_events : forall n, (N <= n)%nat -> w_processEvents w n = false.

Lemma drain_returns flags budget : forall s r s' tr,
  processEvents_loop w flags budget s = (r, s', tr) ->
  (0 < budget)%nat -> (N < tick s + budget)%nat ->
  r = Normal tt /\ (tick s < tick s')%nat.
Proof.
  induction budget as [| budget IH]; intros s r s' tr H B1 B2; [lia |].
  simpl in H. bind_prim H.
  destruct (w_processEvents w (tick s)) eqn:P.
  - assert (K : (tick s < N)%nat).
    { destruct (Nat.lt_ge_cases (tick s) N) as [K | K]; [exact K |].
      rewrite (no_events K) in P. discriminate. }
    apply IH in H; simpl in *; [| lia | lia].
    destruct H as [-> H]. split; [reflexivity | lia].
  - prim H. split; [reflexivity | simpl; lia].
Qed.

Lemma reading_loop_returns fuel : forall s r s' tr,
  keepAliveTimeout (glob s) = keepAliveTimeout g ->
  readRequest_loop w fuel s = (r, s', tr) ->
  (0 < fuel)%nat -> (N < tick s + fuel)%nat ->
  r = Normal tt /\ (tick s < tick s')%nat.
Proof.
  induction fuel as [| fuel IH]; intros s r s' tr T H B1 B2; [lia |].
  simpl in H. bind_prim H. case_if H.
  { prim H. split; [reflexivity | simpl; lia]. }
  bind_prim H. cbn [glob advance] in H. rewrite T in H.
  destruct (Z.gtb_spec (keepAliveTimeout g) 0) as [_ | K]; [| lia].
  bind_call H as E.
  2:{ bind_prim E. prim E. }
  bind_prim E. prim E. cbn [tick advance] in H. case_if H.
  { prim H. split; [reflexivity | simpl; lia]. }
  assert (K : (S (tick s) < N)%nat).
  { destruct (Nat.lt_ge_cases (S (tick s)) N) as [K | K]; [exact K |].
    pose proof (idle K). rewrite Z.geb_leb in Heqb0.
    apply Z.leb_gt in Heqb0. lia. }
  bind_prim H. case_if H.
  { prim H. split; [reflexivity | simpl; lia]. }
  bind_prim H. apply IH in H; simpl in *; [| exact T | lia | lia].
  destruct H as [-> H]. split; [reflexivity | lia].
Qed.

Lemma reading_returns fuel s r s' tr :
  keepAliveTimeout (glob s) = keepAliveTimeout g ->
  readRequest w fuel s = (r, s', tr) ->
  (0 < fuel)%nat -> (N < tick s + fuel)%nat ->
  (exists reqs, r = Normal reqs) /\ (tick s < tick s')%nat.
Proof.
  intros T H B1 B2. unfold readRequest in H.
  bind_call H as E; apply reading_loop_returns in E; auto;
    destruct E as [E1 E2].
  2:{ subst r0. simpl in St. contradiction. }
  bind_prim H. case_if H.
  - bind_prim H. prim H. split; [eauto | simpl; lia].
  - prim H. split; [eauto | simpl; lia].
Qed.

Lemma dispatch_returns reqs : forall s r s' tr,
  execute_all w reqs s = (r, s', tr) ->
  (r = Normal tt \/ exists e, r = Throw e) /\ (tick s <= tick s')%nat.
Proof.
  induction reqs as [| req rest IH]; intros s r s' tr H; simpl in H.
  - prim H. split; [auto | lia].
  - unfold execute in H. bind_call H as E.
    + bind_prim E. destruct (w_execute w (tick s) req); prim E.
      apply IH in H. simpl in H. destruct H as [H1 H2]. split; [exact H1 | lia].
    + bind_prim E.
      destruct (w_execute w (tick s) req); prim E;
        destruct r; simpl in St; try contradiction;
        (split; [right; eauto | simpl; lia]).
Qed.

Lemma waiting_returns budget fuel : forall s r s' tr,
  keepAliveTimeout (glob s) = keepAliveTimeout g ->
  keepalive_wait w budget fuel s = (r, s', tr) ->
  (N < budget)%nat -> (0 < fuel)%nat -> (N < tick s + fuel)%nat ->
  (r = Goto L_receive_end \/ (r = Normal tt /\ (tick s' <= N)%nat))
  /\ (tick s < tick s')%nat.
Proof.
  induction fuel as [| fuel IH]; intros s r s' tr T H B0 B1 B2; [lia |].
  simpl in H. bind_prim H.
  destruct (w_waitForReadyRead w (tick s)) eqn:W.
  { prim H. simpl. split; [| lia]. right. split; [reflexivity |].
    destruct (Nat.lt_ge_cases (tick s) N) as [K | K]; [lia |].
    rewrite (no_data K) in W. discriminate. }
  bind_prim H. case_if H.
  { prim H. simpl. split; [auto | lia]. }
  do 2 bind_prim H. cbn [tick glob advance] in H. rewrite T in H. case_if H.
  { prim H. simpl. split; [auto | lia]. }
  assert (K : (S (S (tick s)) < N)%nat).
  { destruct (Nat.lt_ge_cases (S (S (tick s))) N) as [K | K]; [exact K |].
    pose proof (idle K). rewrite Z.geb_leb in Heqb0.
    apply Z.leb_gt in Heqb0. lia. }
  bind_call H as E.
  - pose proof (processEvents_loop_spec _ _ _ _ E) as [_ F].
    apply drain_returns in E; simpl in *; [| lia | lia].
    destruct E as [_ E].
    apply IH in H; [| clear - F T; frame_tac | lia | lia | lia].
    destruct H as [H1 H2]. split; [exact H1 | lia].
  - apply drain_returns in E; simpl in *; [| lia | lia].
    destruct E as [-> _]. simpl in St. contradiction.
Qed.

Lemma serving_returns budget fuel : forall s r s' tr,
  keepAliveTimeout (glob s) = keepAliveTimeout g ->
  for_loop w budget fuel s = (r, s', tr) ->
  (N < budget)%nat -> (0 < fuel)%nat -> (N < tick s + fuel)%nat ->
  r <> Running.
Proof.
  induction fuel as [| fuel IH]; intros s r s' tr T H B0 B1 B2; [lia |].
  simpl in H.
  bind_call H as E.
  2:{ apply reading_returns in E; [| exact T | lia | lia].
      destruct E as [[reqs ->] _]. simpl in St. contradiction. }
  pose proof (readRequest_spec _ _ _ E) as [_ F1].
  apply reading_returns in E; [| exact T | lia | lia]. destruct E as [_ K1].
  destruct a as [| req0 rest]; [prim H; discriminate |].
  case_if H.
  { case_if H; [| prim H; discriminate].
    bind_call H as E; apply handshakeForWebSocket_spec in E;
      destruct E as [[[R _] | [R _]] _];
      try (subst r0; simpl in St; contradiction);
      injection R as ->; simpl in H; prim H; discriminate. }
  bind_call H as E.
  2:{ apply dispatch_returns in E. destruct E as [[-> | [e ->]] _];
        simpl in St; try contradiction.
      destruct r; try contradiction. discriminate. }
  pose proof (execute_all_spec _ _ _ E) as [_ F2].
  apply dispatch_returns in E. destruct E as [_ K2].
  bind_prim H. case_if H; [prim H; discriminate |].
  do 2 bind_prim H. case_if H; [prim H; discriminate |].
  match type of H with
  | _ (advance w 0 ?x) = _ =>
      assert (T3 : keepAliveTimeout (glob (advance w 0 x)) = keepAliveTimeout g)
        by (clear - T F1 F2; frame_tac)
  end.
  bind_call H as E.
  - pose proof (keepalive_wait_all _ _ _ _ E) as (_ & _ & F3).
    apply waiting_returns in E; [| exact T3 | lia | lia | lia].
    destruct E as [[E | [_ K3]] K4]; [discriminate E |].
    cbn [tick advance] in *.
    apply IH in H; [exact H | clear - T3 F3; frame_tac | lia | lia | lia].
  - apply waiting_returns in E; [| exact T3 | lia | lia | lia].
    destruct E as [[-> | [-> _]] _]; simpl in St; try contradiction.
    destruct r; try contradiction. discriminate.
Qed.

Lemma before_labels_returns fuel s r s' tr :
  keepAliveTimeout (glob s) = keepAliveTimeout g ->
  before_labels w fuel s = (r, s', tr) ->
  (N < fuel)%nat ->
  r = Normal tt \/ exists l, r = Goto l.
Proof.
  intros T H B. unfold before_labels in H. do 2 bind_prim H. case_if H.
  { do 2 bind_prim H. prim H. eauto. }
  do 2 bind_prim H. unfold try_block, try_catch in H.
  match type of H with
  | match for_loop w fuel fuel ?x with _ => _ end = _ =>
      destruct (for_loop w fuel fuel x) as [[rl s1] lp] eqn:L
  end.
  apply serving_returns in L; [| exact T | lia | lia | lia].
  destruct rl as [[] | l | [c | what] | ]; try congruence.
  - inversion H; subst. auto.
  - inversion H; subst. eauto.
  - prim H. auto.
  - prim H. auto.
Qed.

Lemma socket_cleanup_returns fuel s r s' tr :
  socket_cleanup w fuel s = (r, s', tr) -> (N < fuel)%nat -> r = Normal tt.
Proof.
  unfold socket_cleanup. intros H B.
  bind_call H as E; apply drain_returns in E; try lia; destruct E as [E _].
  - destruct (socket_error_spec w s0) as (s1 & E1 & _). rewrite E1 in H.
    inversion H. reflexivity.
  - subst r0. simpl in St. contradiction.
Qed.

Lemma receive_end_returns fuel s r s' tr :
  receive_end w fuel s = (r, s', tr) -> (N < fuel)%nat -> r = Normal tt.
Proof.
  unfold receive_end. intros H B. bind_prim H.
  eapply socket_cleanup_returns; eauto.
Qed.

Lemma run_returns fuel s :
  keepAliveTimeout (glob s) = keepAliveTimeout g ->
  (N < fuel)%nat ->
  result (run w fuel s) = Normal tt.
Proof.
  intros T B.
  destruct (run_result_cases w fuel s) as [K | K]; [exact K | exfalso].
  destruct (run w fuel s) as [[r s'] tr] eqn:H.
  unfold result in K. simpl in K. subst r.
  unfold run, with_Counter in H.
  set (s0 := set_threadCounter (threadCounter (glob s) + 1) s) in *.
  match type of H with
  | match ?body s0 with _ => _ end = _ =>
      destruct (body s0) as [[rb sb] tb] eqn:E
  end.
  assert (R : rb = Normal tt).
  { do 2 bind_prim E. unfold then_labels in E.
    match type of E with
    | match before_labels w fuel ?x with _ => _ end = _ =>
        destruct (before_labels w fuel x) as [[r1 s1] t1] eqn:E1
    end.
    apply before_labels_returns in E1; [| exact T | exact B].
    destruct E1 as [-> | [[ | | ] ->]].
    - destruct (receive_end w fuel s1) as [[r2 s2] t2] eqn:E2.
      apply receive_end_returns in E2; [| exact B]. inversion E; subst.
      reflexivity.
    - destruct (receive_end w fuel s1) as [[r2 s2] t2] eqn:E2.
      apply receive_end_returns in E2; [| exact B]. inversion E; subst.
      reflexivity.
    - destruct (socket_cleanup w fuel s1) as [[r2 s2] t2] eqn:E2.
      apply socket_cleanup_returns in E2; [| exact B]. inversion E; subst.
      reflexivity.
    - destruct (socket_error_spec w s1) as (s2 & E2 & _). rewrite E2 in E.
      inversion E; subst. reflexivity. }
  subst rb. discriminate.
Qed.

End Liveness.

(** X16.  With a positive keep-alive timeout run() does not hold its thread
    for ever on a connection on which nothing arrives any more.  If from
    some point on no wait finds data, the socket reports an idle time that
    has reached the timeout, and the event queue is empty, then run()
    returns, whatever the peer, the dispatcher and the other workers have
    done before. *)
Theorem run_returns_once_the_connection_is_idle
        (w : World) (N : nat) (s : State) :
  0 < keepAliveTimeout (glob s) ->
  (forall n, (N <= n)%nat -> w_waitForReadyRead w n = false) ->
  (forall n, (N <= n)%nat -> keepAliveTimeout (glob s) <= w_idleTime w n) ->
  (forall n, (N <= n)%nat -> w_processEvents w n = false) ->
  forall fuel, (N < fuel)%nat -> result (run w fuel s) = Normal tt.
Proof.
  intros T W I P fuel B.
  apply run_returns with (N := N) (g := glob s); auto.
Qed.

(** * The further properties on examples *)

(** Two workers, a bound of 2: the second one enters run() with the counter
    at 1, the first one leaves, and the second one reads a count of 1 and
    waits for a further request. *)
Example run_waits_once_the_other_worker_has_left :
  firstn 10 (events (run w_other_left 3
                         (mkState (mkGlobals 1 10) (mkThread 5 2 false) 0 0)))
  = [EvCounterInc; EvNewHttpSocket; EvSetSocketDescriptor 5 true;
     EvSetCurrentDatabaseContext true;
     EvCanReadRequest true; EvCanReadRequest true;
     EvRead [request "a"];
     EvExecute (request "a") 7 Returned;
     EvThreadCount 1;
     EvWaitForReadyRead 5 false].
Proof. reflexivity. Qed.

Lemma run_cleans_up_witness :
  socketDesc (self (mkState (mkGlobals 0 0) (mkThread 0 0 false) 13 0)) = 0
  /\ httpSocket (self (mkState (mkGlobals 0 0) (mkThread 0 0 false) 13 0)) = false
  /\ maxThreads (self (mkState (mkGlobals 0 0) (mkThread 0 0 false) 13 0))
     = maxThreads (self (worker_state 0 0))
  /\ glob (mkState (mkGlobals 0 0) (mkThread 0 0 false) 13 0)
     = glob (worker_state 0 0)
  /\ exists pre,
      [EvCounterInc; EvNewHttpSocket; EvSetSocketDescriptor 5 true;
       EvSetCurrentDatabaseContext true;
       EvCanReadRequest true; EvCanReadRequest true;
       EvRead [request "a"; request "b"];
       EvExecute (request "a") 7 Returned; EvExecute (request "b") 7 Returned;
       EvCloseHttpSocket; EvProcessEvents AllEvents false;
       EvRelease; EvSetCurrentDatabaseContext false; EvDeleteLater;
       EvCounterDec]
      = EvCounterInc :: EvNewHttpSocket :: pre ++ cleanup ++ [EvCounterDec]
      /\ all not_cleanup pre.
Proof.
  apply (proj1 (run_cleans_up_exactly_once w_served 3 (worker_state 0 0))).
  reflexivity.
Defined.

Lemma run_closes_raw_descriptor_witness :
  5 = socketDesc (self (worker_state 10 0))
  /\ exists err,
      events (run w_unbound 3 (worker_state 10 0))
      = [EvCounterInc; EvNewHttpSocket; EvSetSocketDescriptor 5 false;
         EvEmitError err; EvTfClose 5;
         EvRelease; EvSetCurrentDatabaseContext false; EvDeleteLater;
         EvCounterDec].
Proof.
  apply (@run_closes_raw_descriptor_only_when_unbound
           w_unbound 3 (worker_state 10 0) 5 false).
  simpl. auto.
Defined.


Lemma descriptors_are_closed_witness :
  httpSocket (self (worker_state 10 0)) = false
  /\ events (bind (setSocketDescriptor_each w_served [6; 0; 4294967303])
                  (fun _ => TActionThread_delete w_served) (worker_state 10 0))
     = [EvTfClose 5; EvTfClose 6; EvTfClose 7].
Proof.
  split; [reflexivity |].
  apply (proj1 (@descriptors_are_closed_exactly_once
                  w_served [6; 0; 4294967303] (worker_state 10 0) eq_refl)).
Defined.

Lemma destructor_after_run_witness :
  TActionThread_delete w_served
                       (mkState (mkGlobals 0 0) (mkThread 0 0 false) 13 0)
  = (Normal tt, mkState (mkGlobals 0 0) (mkThread 0 0 false) 13 0, []).
Proof.
  apply (@destructor_after_run_does_nothing
           w_served 3 (worker_state 0 0)
           (mkState (mkGlobals 0 0) (mkThread 0 0 false) 13 0)
           [EvCounterInc; EvNewHttpSocket; EvSetSocketDescriptor 5 true;
            EvSetCurrentDatabaseContext true;
            EvCanReadRequest true; EvCanReadRequest true;
            EvRead [request "a"; request "b"];
            EvExecute (request "a") 7 Returned;
            EvExecute (request "b") 7 Returned;
            EvCloseHttpSocket; EvProcessEvents AllEvents false;
            EvRelease; EvSetCurrentDatabaseContext false; EvDeleteLater;
            EvCounterDec]).
  reflexivity.
Defined.

Lemma readRequest_aborts_witness :
  frame (worker_state 10 0)
        (final (readRequest w_peer_gone 3 (worker_state 10 0)))
  /\ exists polls,
      all is_poll polls
      /\ ((@nil THttpRequest = [] /\ events (readRequest w_peer_gone 3 (worker_state 10 0))
                      = polls ++ [EvCanReadRequest false; EvAbort])
          \/ events (readRequest w_peer_gone 3 (worker_state 10 0))
             = polls ++ [EvCanReadRequest true; EvRead []]).
Proof.
  apply (@readRequest_aborts_or_reads
           w_peer_gone 3 (worker_state 10 0) (Normal [])
           (final (readRequest w_peer_gone 3 (worker_state 10 0)))
           (events (readRequest w_peer_gone 3 (worker_state 10 0)))).
  reflexivity.
Defined.

Lemma readRequest_loop_gives_up_witness :
  0 < keepAliveTimeout (glob (worker_state 10 0))
  /\ (keepAliveTimeout (glob (worker_state 10 0)) <= 10 ->
      @nil Event = [] /\ @Normal unit tt = Normal tt)
  /\ (10 < keepAliveTimeout (glob (worker_state 10 0)) ->
      exists st rest, @nil Event = EvState st :: rest).
Proof.
  apply (proj1 (readRequest_loop_gives_up_when_idle
                  w_quiet_peer 3 (worker_state 10 0))
               (Normal tt)
               (final (readRequest_loop w_quiet_peer 3 (worker_state 10 0)))
               (events (readRequest_loop w_quiet_peer 3 (worker_state 10 0)))
               10 []).
  - reflexivity.
  - exists [EvCanReadRequest false]. reflexivity.
Defined.

Lemma readRequest_returns_witness :
  0 < keepAliveTimeout (glob (worker_state 10 0))
  /\ exists reqs,
      result (readRequest w_quiet_peer 1 (worker_state 10 0)) = Normal reqs.
Proof.
  split; [reflexivity |].
  apply (@readRequest_returns_on_idle_socket w_quiet_peer 0 (worker_state 10 0)).
  - reflexivity.
  - intros k _. discriminate.
  - apply Nat.lt_0_succ.
Defined.

Lemma keepalive_wait_ends_witness :
  frame (worker_state 10 0)
        (final (keepalive_wait w_idles 3 3 (worker_state 10 0)))
  /\ all is_keepalive (events (keepalive_wait w_idles 3 3 (worker_state 10 0)))
  /\ L_receive_end = L_receive_end
  /\ ((exists pre st,
          events (keepalive_wait w_idles 3 3 (worker_state 10 0))
          = pre ++ [EvWaitForReadyRead 5 false; EvState st]
          /\ st <> ConnectedState)
      \/ (exists pre i,
             events (keepalive_wait w_idles 3 3 (worker_state 10 0))
             = pre ++ [EvWaitForReadyRead 5 false;
                       EvState ConnectedState; EvIdleTime i]
             /\ keepAliveTimeout (glob (worker_state 10 0)) <= i)).
Proof.
  apply (@keepalive_wait_ends_on_data_disconnect_or_idle
           w_idles 3 3 (worker_state 10 0) (Goto L_receive_end)
           (final (keepalive_wait w_idles 3 3 (worker_state 10 0)))
           (events (keepalive_wait w_idles 3 3 (worker_state 10 0)))).
  reflexivity.
Defined.

Lemma handshake_opens_witness :
  upgrade_header "WebSocket" = upgrade_header "WebSocket"
  /\ "192.0.2.1" = w_peerAddress w_endpoint
  /\ In (EvDuplicateSocket (w_socketDescriptor w_endpoint) 11)
        (events (handshakeForWebSocket w_endpoint (upgrade_header "WebSocket")
                                       (worker_state 10 0))).
Proof.
  apply (proj1 (proj2 (proj2 (@handshake_opens_on_a_duplicate
           w_endpoint (upgrade_header "WebSocket") (worker_state 10 0)
           (Normal true)
           (final (handshakeForWebSocket w_endpoint (upgrade_header "WebSocket")
                                         (worker_state 10 0)))
           (events (handshakeForWebSocket w_endpoint (upgrade_header "WebSocket")
                                          (worker_state 10 0)))
           eq_refl)))).
  simpl. auto.
Defined.

Lemma waitForAllDone_sleeps_witness :
  5 * Z.of_nat (sleeps (events (waitForAllDone w_saturated 12 9 (worker_state 0 0))))
  <= Z.max 0 (12 + 5)
  /\ (12 < 0 ->
      sleeps (events (waitForAllDone w_saturated 12 9 (worker_state 0 0))) = 0%nat)
  /\ clock (worker_state 0 0)
     + 5 * Z.of_nat (sleeps (events (waitForAllDone w_saturated 12 9
                                                    (worker_state 0 0))))
     <= clock (final (waitForAllDone w_saturated 12 9 (worker_state 0 0)))
  /\ glob (final (waitForAllDone w_saturated 12 9 (worker_state 0 0)))
     = glob (worker_state 0 0)
  /\ self (final (waitForAllDone w_saturated 12 9 (worker_state 0 0)))
     = self (worker_state 0 0).
Proof.
  apply (@waitForAllDone_sleeps_are_bounded
           w_saturated 12 (worker_state 0 0) 9 (Normal false)
           (final (waitForAllDone w_saturated 12 9 (worker_state 0 0)))
           (events (waitForAllDone w_saturated 12 9 (worker_state 0 0)))).
  reflexivity.
Defined.

Lemma keepalive_header_witness :
  0 <= keepAliveTimeout (glob (worker_state 10 0))
  /\ TActionThread_writeResponse add_line lines_written
                                 (glob (worker_state 10 0)) fresh_header "body"
     = ([("Connection", "Keep-Alive")], 1).
Proof.
  split; [discriminate |].
  apply (proj2 (proj2 (keepalive_header_goes_with_the_waits
                         add_line lines_written w_idles 3 (worker_state 10 0)
                         fresh_header "body"))
               ltac:(discriminate) false).
  simpl. auto 12.
Defined.

Lemma run_dispatches_witness :
  7 = w_socketId w_second_fails
  /\ exists reqs,
      In (EvRead reqs) (events (run w_second_fails 3 (worker_state 10 0)))
      /\ In (request "b") reqs.
Proof.
  apply (proj2 (run_dispatches_only_what_it_read
                  w_second_fails 3 (worker_state 10 0))
               (request "b") 7 (ThrewStdException "boom")).
  simpl. auto 12.
Defined.

Lemma run_closes_after_abort_witness :
  exists d,
    skipn 9 (events (run w_peer_gone 3 (worker_state 10 0)))
    = EvCloseHttpSocket :: d
    /\ all is_teardown d.
Proof.
  apply (proj2 (run_closes_last_and_right_after_an_abort
                  w_peer_gone 3 (worker_state 10 0))).
  exists (firstn 8 (events (run w_peer_gone 3 (worker_state 10 0)))).
  reflexivity.
Defined.

Lemma upgrade_test_witness :
  wants_upgrade (upgrade_request "WebSocket") = true.
Proof.
  apply (proj2 (proj1 (upgrade_test_ignores_case_and_place
                         (upgrade_request "WebSocket")))).
  exists "keep-alive, ", "Upgrade", EmptyString. split; reflexivity.
Defined.

Lemma run_returns_witness :
  0 < keepAliveTimeout (glob (worker_state 10 0))
  /\ result (run w_idles 1 (worker_state 10 0)) = Normal tt.
Proof.
  split; [reflexivity |].
  apply (@run_returns_once_the_connection_is_idle w_idles 0 (worker_state 10 0)).
  - reflexivity.
  - reflexivity.
  - intros n _. discriminate.
  - reflexivity.
  - apply Nat.lt_0_succ.
Defined.
